(** * The model-serving subsystem of osrs_backend

    A shallow embedding of [osrs_backend/tcp/server.py],
    [osrs_backend/tcp/protocol.py], [osrs_backend/ml/remote_processor.py]
    and [osrs_backend/ml/ppo.py], and the properties of the catalog, the
    model cache, the request pipeline and the connection handler.

    Python strings are modelled by [string] (one [ascii] per code point,
    so the code points 0..255), Python dicts whose iteration order is
    observable by insertion-ordered association lists, the two dicts of the
    model cache by [gmap], and [int] by [Z] or, for lengths, by [nat]. *)

From Stdlib Require Import ZArith String Ascii List Lia.
From stdpp Require Import gmap strings list fin_maps pretty.

Set Warnings "-register-all,-clear-no-such-hyp".
Local Open Scope string_scope.

(* ===================================================================== *)
(** * Part I: definitions                                                 *)
(* ===================================================================== *)

(** ** Python values and exceptions *)

(** What [json.loads] can return, which is also what the fields of a
    request hold (a dataclass does not check its annotations).  A float is
    identified by its [repr], which Python guarantees to round-trip. *)
Inductive json : Type :=
  | JNull
  | JBool (b : bool)
  | JInt (z : Z)
  | JFloat (repr : string)
  | JStr (s : string)
  | JArr (items : list json)
  | JObj (members : list (string * json)).

Inductive exn_class : Type :=
  | ValueError | TypeError | KeyError | IndexError | AssertionError
  | AttributeError | OSError | OtherError.

(** A raised exception: its class and [str(e)]. *)
Record py_exn : Type := Raise { exn_cls : exn_class; exn_str : string }.

(** Faults raised by the interpreter itself rather than by a [raise] in the
    repository; the message text is the interpreter's. *)
Inductive fault : Type :=
  | NotAMapping (v : json)
  | UnexpectedKeyword (k : string)
  | MissingArguments (ks : list string)
  | Unhashable (v : json)
  | NotIterable (v : json)
  | NoLen (v : json)
  | EmptyRange
  | IndexOutOfRange
  | NoneHasNoAttribute.

Definition fault_class (f : fault) : exn_class :=
  match f with
  | EmptyRange => ValueError
  | IndexOutOfRange => IndexError
  | NoneHasNoAttribute => AttributeError
  | _ => TypeError
  end.

(** Results of fallible code: [inl e] is "raises e". *)
Definition res (A : Type) : Type := py_exn + A.

Definition ret {A} (a : A) : res A := inr a.
Definition raise {A} (e : py_exn) : res A := inl e.
Definition bind {A B} (m : res A) (k : A -> res B) : res B :=
  match m with
  | inl e => inl e
  | inr a => k a
  end.

Notation "'let*' x ':=' m 'in' k" := (bind m (fun x => k))
  (at level 10, x pattern, m at level 100, k at level 200).

Fixpoint mapM {A B} (f : A -> res B) (l : list A) : res (list B) :=
  match l with
  | [] => ret []
  | a :: r => let* b := f a in let* bs := mapM f r in ret (b :: bs)
  end.

(** ** Insertion-ordered dicts with string keys *)

Definition pydict (V : Type) : Type := list (string * V).

Fixpoint dict_get {V} (k : string) (d : pydict V) : option V :=
  match d with
  | [] => None
  | (k', v) :: r => if String.eqb k k' then Some v else dict_get k r
  end.

(** [d[k] = v]: an existing key keeps its position, a new one goes last. *)
Fixpoint dict_set {V} (k : string) (v : V) (d : pydict V) : pydict V :=
  match d with
  | [] => [(k, v)]
  | (k', v') :: r =>
      if String.eqb k k' then (k, v) :: r else (k', v') :: dict_set k v r
  end.

Definition dict_keys {V} (d : pydict V) : list string := map fst d.
Definition dict_values {V} (d : pydict V) : list V := map snd d.
Definition dict_contains {V} (k : string) (d : pydict V) : bool :=
  match dict_get k d with Some _ => true | None => false end.

(** [{key(x): val(x) for x in xs}] *)
Definition dict_comprehension {X V} (key : X -> string) (val : X -> V)
    (xs : list X) : pydict V :=
  fold_left (fun d x => dict_set (key x) (val x) d) xs [].

(** ** Strings *)

Definition chars (s : string) : list ascii := list_ascii_of_string s.
Definition str (l : list ascii) : string := string_of_list_ascii l.

(** [s.endswith(suffix)] *)
Definition endswith (s suffix : string) : bool :=
  let l := chars s in
  let m := chars suffix in
  (length m <=? length l)%nat
  && bool_decide (drop (length l - length m) l = m).

(** [p.rfind(c)] for a one-character [c]: the last index, or -1. *)
Fixpoint rfind_from (c : ascii) (p : list ascii) (i last : Z) : Z :=
  match p with
  | [] => last
  | x :: r => rfind_from c r (i + 1) (if Ascii.eqb x c then i else last)
  end.

Definition rfind (p : list ascii) (c : ascii) : Z := rfind_from c p 0 (-1).

(** The loop of [genericpath._splitext] that skips leading dots: is there
    a character other than the dot in [p[filenameIndex:dotIndex]]? *)
Fixpoint stem_has_char (fuel : nat) (p : list ascii)
    (filenameIndex dotIndex : Z) : bool :=
  match fuel with
  | O => false
  | S fuel' =>
      if (filenameIndex <? dotIndex)%Z then
        match p !! Z.to_nat filenameIndex with
        | Some c =>
            if negb (Ascii.eqb c ".") then true
            else stem_has_char fuel' p (filenameIndex + 1) dotIndex
        | None => true
        end
      else false
  end.

(** [os.path.splitext(p)] on POSIX (separator [/], extension separator
    [.]). *)
Definition splitext (p : string) : string * string :=
  let l := chars p in
  let sepIndex := rfind l "/" in
  let dotIndex := rfind l "." in
  if (sepIndex <? dotIndex)%Z
     && stem_has_char (length l) l (sepIndex + 1) dotIndex
  then (str (take (Z.to_nat dotIndex) l), str (drop (Z.to_nat dotIndex) l))
  else (p, "").

(** [str(models_path / filename)] on POSIX for a [filename] that is a
    single path component, [p] being [str(models_path)]: pathlib prints
    the current directory as [.] and drops it when joining, a root already
    ends with the separator. *)
Definition path_join (p filename : string) : string :=
  if String.eqb p "." then filename
  else if endswith p "/" then p +:+ filename
  else p +:+ "/" +:+ filename.

Definition dq : string := String (ascii_of_nat 34) "".
Definition bs : string := String (ascii_of_nat 92) "".

Definition hex_digit (n : nat) : ascii :=
  match String.get n "0123456789abcdef" with Some c => c | None => "0"%char end.

(** Two lower-case hexadecimal digits of a code point below 256. *)
Definition hex2 (c : ascii) : string :=
  let n := nat_of_ascii c in
  String (hex_digit (n / 16)) (String (hex_digit (n mod 16)) "").

(** [str.isprintable] on one code point below 256: the ASCII range
    32..126 and the Latin-1 range 161..255 without the soft hyphen. *)
Definition isprintable (c : ascii) : bool :=
  let n := nat_of_ascii c in
  ((32 <=? n) && (n <=? 126) || (161 <=? n) && negb (n =? 173))%nat.

Definition contains_char (c : ascii) (s : string) : bool :=
  existsb (Ascii.eqb c) (chars s).

(** The body of [repr(s)] between the quotes, [q] being the quote chosen. *)
Fixpoint repr_body (q : ascii) (s : string) : string :=
  match s with
  | EmptyString => ""
  | String c r =>
      (if Ascii.eqb c q then bs +:+ String q ""
       else if Ascii.eqb c (ascii_of_nat 92) then bs +:+ bs
       else if Ascii.eqb c (ascii_of_nat 9) then bs +:+ "t"
       else if Ascii.eqb c (ascii_of_nat 10) then bs +:+ "n"
       else if Ascii.eqb c (ascii_of_nat 13) then bs +:+ "r"
       else if isprintable c then String c ""
       else bs +:+ "x" +:+ hex2 c)
      +:+ repr_body q r
  end.

(** [repr(s)] of a [str]: single quotes, unless the string has a single
    quote and no double quote. *)
Definition repr_str (s : string) : string :=
  let q := if contains_char (ascii_of_nat 39) s
              && negb (contains_char (ascii_of_nat 34) s)
           then ascii_of_nat 34 else ascii_of_nat 39 in
  String q "" +:+ repr_body q s +:+ String q "".

Fixpoint join (sep : string) (l : list string) : string :=
  match l with
  | [] => ""
  | [x] => x
  | x :: r => x +:+ sep +:+ join sep r
  end.

(** [repr] of a list of [str], which is how an f-string prints it. *)
Definition repr_str_list (l : list string) : string :=
  "[" +:+ join ", " (map repr_str l) +:+ "]".

(** [str(z)] of an [int]. *)
Definition str_int (z : Z) : string := pretty z.

(** [repr(v)] of a value that can be a dict key. *)
Definition repr_scalar (v : json) : string :=
  match v with
  | JNull => "None"
  | JBool true => "True"
  | JBool false => "False"
  | JInt z => str_int z
  | JFloat r => r
  | JStr s => repr_str s
  | _ => ""
  end.

(** [format(v, "")], as the f-string of the unknown-model message applies
    it to a value that can be a dict key. *)
Definition str_scalar (v : json) : string :=
  match v with
  | JStr s => s
  | _ => repr_scalar v
  end.

(** ** [json.dumps] with its defaults *)

(** One character of a string under [ensure_ascii]: the quote, the
    backslash and everything outside space..tilde are escaped. *)
Definition json_escape_char (c : ascii) : string :=
  let n := nat_of_ascii c in
  if (n =? 34)%nat then bs +:+ dq
  else if (n =? 92)%nat then bs +:+ bs
  else if (n =? 10)%nat then bs +:+ "n"
  else if (n =? 13)%nat then bs +:+ "r"
  else if (n =? 9)%nat then bs +:+ "t"
  else if (n =? 12)%nat then bs +:+ "f"
  else if (n =? 8)%nat then bs +:+ "b"
  else if ((32 <=? n) && (n <=? 126))%nat then String c ""
  else bs +:+ "u00" +:+ hex2 c.

Fixpoint json_escape (s : string) : string :=
  match s with
  | EmptyString => ""
  | String c r => json_escape_char c +:+ json_escape r
  end.

Definition dumps_str (s : string) : string := dq +:+ json_escape s +:+ dq.

Definition dumps_float (r : string) : string :=
  if String.eqb r "nan" then "NaN"
  else if String.eqb r "inf" then "Infinity"
  else if String.eqb r "-inf" then "-Infinity"
  else r.

Fixpoint json_dumps (v : json) : string :=
  match v with
  | JNull => "null"
  | JBool true => "true"
  | JBool false => "false"
  | JInt z => str_int z
  | JFloat r => dumps_float r
  | JStr s => dumps_str s
  | JArr items => "[" +:+ join ", " (map json_dumps items) +:+ "]"
  | JObj members =>
      "{" +:+ join ", "
        (map (fun kv => dumps_str (fst kv) +:+ ": " +:+ json_dumps (snd kv))
             members)
      +:+ "}"
  end.

(** ** The list operations of the request pipeline *)

(** [list(itertools.chain.from_iterable(xss))] *)
Definition chain_from_iterable {A} (xss : list (list A)) : list A :=
  concat xss.

(** [list(itertools.accumulate(l))], running sums from [acc]. *)
Fixpoint accumulate_from (acc : nat) (l : list nat) : list nat :=
  match l with
  | [] => []
  | n :: r => (acc + n) :: accumulate_from (acc + n) r
  end.

Definition accumulate (l : list nat) : list nat := accumulate_from 0 l.

(** [cumulative_sizes = [0] + list(itertools.accumulate(action_head_sizes))] *)
Definition cumulative_sizes (action_head_sizes : list nat) : list nat :=
  0 :: accumulate action_head_sizes.

(** [l[a:b]] for non-negative bounds; Python clips both ends. *)
Definition py_slice {A} (a b : nat) (l : list A) : list A :=
  take (b - a) (drop a l).

(** The comprehension of server.py lines 207-210 on row 0 of the tensor:
    [[row[cs[i] : cs[i + 1]] for i in range(len(action_head_sizes))]]. *)
Definition split_by_heads {A} (action_head_sizes : list nat) (row : list A)
    : list (list A) :=
  let cs := cumulative_sizes action_head_sizes in
  map (fun i => py_slice (nth i cs 0) (nth (S i) cs 0) row)
      (seq 0 (length action_head_sizes)).

(** Cutting a row into consecutive chunks of the given sizes: what the
    split is meant to compute, written by recursion on the sizes. *)
Fixpoint chunks {A} (sizes : list nat) (row : list A) : list (list A) :=
  match sizes with
  | [] => []
  | n :: r => take n row :: chunks r (drop n row)
  end.

(** ** Tensors, the loaded model and the world around the server *)

Inductive dtype : Type := float32 | bool_.

(** A tensor built by [th.tensor(data, dtype=...)]. *)
Record tensor : Type := Tensor { t_dtype : dtype; t_data : json }.

(** [deterministic] is a bool (or whatever the request held) or a tensor. *)
Inductive det_arg : Type :=
  | DetValue (v : json)
  | DetTensor (t : tensor).

(** What the layers of the policy network compute for a batch, each
    tensor given by its [tolist()]; floats by their [repr]. *)
Record policy_outputs : Type := {
  out_actions : list (list Z);
  out_log_probs : list string;
  out_entropy : list (list string);
  out_values : list (list string);
  out_probs : list (list string)
}.

(** The tuple that [PPO.predict] and the processors return. *)
Record prediction : Type := {
  p_actions : option (list (list Z));
  p_log_probs : option (list string);
  p_entropy : option (list (list string));
  p_values : option (list (list string));
  p_probs : option (list (list string));
  p_extension_results : list json
}.

(** A [PPO] object.  The network and the extensions are opaque to the
    serving core; extension results are taken to be JSON values. *)
Record PPO : Type := {
  action_head_count : nat;
  normalized_observations : bool;
  normalize : tensor -> tensor;
  network : tensor -> tensor -> det_arg -> res policy_outputs;
  _extensions : pydict (tensor -> res json)
}.

(** Everything outside the repository that the serving code consults. *)
Record world : Type := {
  (** the interpreter's message for a fault *)
  interp_msg : fault -> string;
  (** [str(Path(s))] *)
  Path_str : string -> string;
  (** [Path.exists] and [os.listdir], by the path's string *)
  Path_exists : string -> bool;
  os_listdir : string -> res (list string);
  (** [os.path.exists] *)
  os_path_exists : string -> bool;
  (** [th.load(path, map_location=device)] followed by the [PPO]
      constructor on the checkpoint *)
  PPO_of_checkpoint : string -> string -> res PPO;
  (** [th.tensor]: the exception, if any, for this data and dtype *)
  torch_rejects : dtype -> json -> option py_exn;
  (** [asyncio.start_server]: the exception, if any, for this host and
      port *)
  bind_fails : string -> Z -> option py_exn
}.

Definition fault_exn (w : world) (f : fault) : py_exn :=
  Raise (fault_class f) (interp_msg w f).

Definition th_tensor (w : world) (data : json) (d : dtype) : res tensor :=
  match torch_rejects w d data with
  | Some e => raise e
  | None => ret (Tensor d data)
  end.

(** ** Dynamic operations on request values *)

Definition truthy (v : json) : bool :=
  match v with
  | JNull => false
  | JBool b => b
  | JInt z => negb (z =? 0)%Z
  | JFloat r => negb (String.eqb r "0.0" || String.eqb r "-0.0")
  | JStr s => negb (String.eqb s "")
  | JArr l => match l with [] => false | _ => true end
  | JObj kv => match kv with [] => false | _ => true end
  end.

Definition hashable (v : json) : bool :=
  match v with
  | JArr _ | JObj _ => false
  | _ => true
  end.

(** [iter(v)] run to the end. *)
Definition py_iter (w : world) (v : json) : res (list json) :=
  match v with
  | JArr l => ret l
  | JStr s => ret (map (fun c => JStr (String c "")) (chars s))
  | JObj kv => ret (map (fun p => JStr (fst p)) kv)
  | _ => raise (fault_exn w (NotIterable v))
  end.

(** [len(v)] *)
Definition py_len (w : world) (v : json) : res nat :=
  match v with
  | JArr l => ret (length l)
  | JStr s => ret (String.length s)
  | JObj kv => ret (length kv)
  | _ => raise (fault_exn w (NoLen v))
  end.

(** [k in d] and [d[k]] for a dict with [str] keys and any [k]. *)
Definition dict_contains_val {V} (w : world) (k : json) (d : pydict V)
    : res bool :=
  if negb (hashable k) then raise (fault_exn w (Unhashable k))
  else match k with
       | JStr s => ret (dict_contains s d)
       | _ => ret false
       end.

Definition dict_getitem_val {V} (w : world) (k : json) (d : pydict V)
    : res V :=
  if negb (hashable k) then raise (fault_exn w (Unhashable k))
  else match k with
       | JStr s =>
           match dict_get s d with
           | Some v => ret v
           | None => raise (Raise KeyError (repr_scalar k))
           end
       | _ => raise (Raise KeyError (repr_scalar k))
       end.

(** ** ppo.py *)

(** Modelled from the spec: the [Policy] class ([osrs_backend/ml/policy.py])
    that [self._eval_policy] runs is not among the sources.  Spec, section
    3: [logProb], [entropy], [values], [probs] are "each present only if
    the corresponding flag was set, otherwise absent/null"; [action] is an
    output like the others, under [return_actions].  So the policy computes
    the network's outputs and hands back each one exactly when its flag is
    set. *)
Definition eval_policy (m : PPO) (obs action_masks : tensor)
    (sample_deterministic : det_arg)
    (return_actions return_entropy return_log_probs return_values
       return_probs : json)
    : res (option (list (list Z)) * option (list string)
           * option (list (list string)) * option (list (list string))
           * option (list (list string))) :=
  let* o := network m obs action_masks sample_deterministic in
  ret (if truthy return_actions then Some (out_actions o) else None,
       if truthy return_log_probs then Some (out_log_probs o) else None,
       if truthy return_entropy then Some (out_entropy o) else None,
       if truthy return_values then Some (out_values o) else None,
       if truthy return_probs then Some (out_probs o) else None).

(** [th.ones(n, dtype=th.bool)] and [th.zeros(n, dtype=th.bool)] *)
Definition th_full (b : bool) (n : nat) : tensor :=
  Tensor bool_ (JArr (repeat (JBool b) n)).

(** [PPO.predict]; moving a tensor to a device does not change it. *)
Definition PPO_predict (w : world) (self : PPO) (obs action_masks : tensor)
    (deterministic : det_arg)
    (return_actions return_log_probs return_entropy return_values
       return_probs : json)
    (extensions : json) : res prediction :=
  let deterministic :=
    match deterministic with
    | DetValue (JBool true) => DetTensor (th_full true (action_head_count self))
    | DetValue (JBool false) => DetTensor (th_full false (action_head_count self))
    | d => d
    end in
  let obs := if normalized_observations self then normalize self obs else obs in
  let* (actions, log_probs, entropy, values, probs) :=
    eval_policy self obs action_masks deterministic
      return_actions return_entropy return_log_probs return_values
      return_probs in
  let* names := py_iter w extensions in
  let* extension_results :=
    mapM (fun extension =>
            let* ext := dict_getitem_val w extension (_extensions self) in
            ext obs)
         names in
  ret {| p_actions := actions; p_log_probs := log_probs;
         p_entropy := entropy; p_values := values; p_probs := probs;
         p_extension_results := extension_results |}.

(** [PPO.load] *)
Definition PPO_load (w : world) (load_path device : string) : res PPO :=
  if negb (os_path_exists w load_path)
  then raise (Raise ValueError (load_path +:+ " not found"))
  else PPO_of_checkpoint w load_path device.

(** ** remote_processor.py: the model cache *)

(** A loaded model object: Python compares models by identity, so every
    object that [PPO.load] returns carries the number of the load call
    that made it. *)
Record handle : Type := Handle { obj_id : nat; obj_model : PPO }.

(** The state of a [ThreadedProcessor].  A [Lock] object is a number;
    [held_locks] says which of them are held, [next_lock] numbers the next
    [Lock()], and [load_calls] records every call of [PPO.load]. *)
Record ThreadedProcessor : Type := {
  _pool_size : Z;
  _device : string;
  _model_locks : gmap string nat;
  _models : gmap string handle;
  _lock_lock : bool;
  held_locks : gset nat;
  next_lock : nat;
  load_calls : list string
}.

Definition set_model_locks (f : gmap string nat -> gmap string nat)
    (p : ThreadedProcessor) : ThreadedProcessor :=
  {| _pool_size := _pool_size p; _device := _device p;
     _model_locks := f (_model_locks p); _models := _models p;
     _lock_lock := _lock_lock p; held_locks := held_locks p;
     next_lock := next_lock p; load_calls := load_calls p |}.

Definition set_models (f : gmap string handle -> gmap string handle)
    (p : ThreadedProcessor) : ThreadedProcessor :=
  {| _pool_size := _pool_size p; _device := _device p;
     _model_locks := _model_locks p; _models := f (_models p);
     _lock_lock := _lock_lock p; held_locks := held_locks p;
     next_lock := next_lock p; load_calls := load_calls p |}.

Definition set_lock_lock (b : bool) (p : ThreadedProcessor)
    : ThreadedProcessor :=
  {| _pool_size := _pool_size p; _device := _device p;
     _model_locks := _model_locks p; _models := _models p;
     _lock_lock := b; held_locks := held_locks p;
     next_lock := next_lock p; load_calls := load_calls p |}.

Definition set_held_locks (f : gset nat -> gset nat)
    (p : ThreadedProcessor) : ThreadedProcessor :=
  {| _pool_size := _pool_size p; _device := _device p;
     _model_locks := _model_locks p; _models := _models p;
     _lock_lock := _lock_lock p; held_locks := f (held_locks p);
     next_lock := next_lock p; load_calls := load_calls p |}.

Definition bump_next_lock (p : ThreadedProcessor) : ThreadedProcessor :=
  {| _pool_size := _pool_size p; _device := _device p;
     _model_locks := _model_locks p; _models := _models p;
     _lock_lock := _lock_lock p; held_locks := held_locks p;
     next_lock := S (next_lock p); load_calls := load_calls p |}.

Definition log_load (path : string) (p : ThreadedProcessor)
    : ThreadedProcessor :=
  {| _pool_size := _pool_size p; _device := _device p;
     _model_locks := _model_locks p; _models := _models p;
     _lock_lock := _lock_lock p; held_locks := held_locks p;
     next_lock := next_lock p; load_calls := load_calls p ++ [path] |}.

(** The processor right after its construction: nothing loaded, no lock
    made or held. *)
Definition fresh_processor (pool_size : Z) (device : string)
    : ThreadedProcessor :=
  {| _pool_size := pool_size; _device := device;
     _model_locks := ∅; _models := ∅; _lock_lock := false;
     held_locks := ∅; next_lock := 0; load_calls := [] |}.

(** [ThreadedProcessor.__init__]; a [ThreadPoolExecutor] refuses a
    non-positive number of workers. *)
Definition ThreadedProcessor_init (pool_size : Z) (device : string)
    : res ThreadedProcessor :=
  if (pool_size <=? 0)%Z
  then raise (Raise ValueError "max_workers must be greater than 0")
  else ret (fresh_processor pool_size device).

Definition get_pool_size (p : ThreadedProcessor) : Z := _pool_size p.

Definition THREAD_REMOTE_PROCESSOR : string := "thread".

(** [create_remote_processor] *)
Definition create_remote_processor (pool_size : Z) (processor_type : string)
    (device : string) : res ThreadedProcessor :=
  if String.eqb processor_type THREAD_REMOTE_PROCESSOR
  then ThreadedProcessor_init pool_size device
  else raise (Raise ValueError ("Unknown processor type: " +:+ processor_type)).

(** Where a thread stands inside [_load_model]; one constructor per
    statement, with the lock or the values the thread holds in locals. *)
Inductive pc : Type :=
  | PcCheck                       (* if model_path not in self._models *)
  | PcAcqRegistry                 (* with self._lock_lock: *)
  | PcTestLock                    (* if model_path not in self._model_locks *)
  | PcNewLock                     (* self._model_locks[model_path] = Lock() *)
  | PcGetLock                     (* model_lock = self._model_locks[model_path] *)
  | PcRelRegistry (l : nat)       (* leave the first with self._lock_lock *)
  | PcAcqModel (l : nat)          (* with model_lock: *)
  | PcRecheck (l : nat)           (* if model_path not in self._models *)
  | PcLoad (l : nat)              (* PPO.load(model_path, ...) *)
  | PcStore (l : nat) (h : handle) (* self._models[model_path] = <result> *)
  | PcRelModel (l : nat)          (* leave with model_lock *)
  | PcAcqRegistry2                (* with self._lock_lock: *)
  | PcTestLock2                   (* if model_path in self._model_locks *)
  | PcDelLock                     (* del self._model_locks[model_path] *)
  | PcRelRegistry2                (* leave the second with self._lock_lock *)
  | PcReturn                      (* return self._models[model_path] *)
  | PcUnwindModel (l : nat) (e : py_exn)  (* e leaves with model_lock *)
  | PcUnwindRegistry (e : py_exn) (* e leaves with self._lock_lock *)
  | PcDone (h : handle)           (* returned h *)
  | PcRaised (e : py_exn).        (* raised e *)

(** One statement of [_load_model] run by one thread.  [None]: the thread
    cannot move, because it waits for a lock or has finished. *)
Definition thread_step (w : world) (self : ThreadedProcessor)
    (model_path : string) (at_ : pc) : option (ThreadedProcessor * pc) :=
  match at_ with
  | PcCheck =>
      match _models self !! model_path with
      | None => Some (self, PcAcqRegistry)
      | Some _ => Some (self, PcReturn)
      end
  | PcAcqRegistry =>
      if _lock_lock self then None
      else Some (set_lock_lock true self, PcTestLock)
  | PcTestLock =>
      match _model_locks self !! model_path with
      | None => Some (self, PcNewLock)
      | Some _ => Some (self, PcGetLock)
      end
  | PcNewLock =>
      Some (bump_next_lock
              (set_model_locks (insert model_path (next_lock self)) self),
            PcGetLock)
  | PcGetLock =>
      match _model_locks self !! model_path with
      | Some model_lock => Some (self, PcRelRegistry model_lock)
      | None =>
          Some (self, PcUnwindRegistry (Raise KeyError (repr_str model_path)))
      end
  | PcRelRegistry model_lock =>
      Some (set_lock_lock false self, PcAcqModel model_lock)
  | PcAcqModel model_lock =>
      if decide (model_lock ∈ held_locks self) then None
      else Some (set_held_locks (union {[model_lock]}) self,
                 PcRecheck model_lock)
  | PcRecheck model_lock =>
      match _models self !! model_path with
      | None => Some (self, PcLoad model_lock)
      | Some _ => Some (self, PcRelModel model_lock)
      end
  | PcLoad model_lock =>
      match PPO_load w model_path (_device self) with
      | inr m =>
          Some (log_load model_path self,
                PcStore model_lock (Handle (length (load_calls self)) m))
      | inl e => Some (log_load model_path self, PcUnwindModel model_lock e)
      end
  | PcStore model_lock h =>
      Some (set_models (insert model_path h) self, PcRelModel model_lock)
  | PcRelModel model_lock =>
      Some (set_held_locks (fun s => s ∖ {[model_lock]}) self, PcAcqRegistry2)
  | PcAcqRegistry2 =>
      if _lock_lock self then None
      else Some (set_lock_lock true self, PcTestLock2)
  | PcTestLock2 =>
      match _model_locks self !! model_path with
      | Some _ => Some (self, PcDelLock)
      | None => Some (self, PcRelRegistry2)
      end
  | PcDelLock =>
      match _model_locks self !! model_path with
      | Some _ => Some (set_model_locks (delete model_path) self, PcRelRegistry2)
      | None =>
          Some (self, PcUnwindRegistry (Raise KeyError (repr_str model_path)))
      end
  | PcRelRegistry2 => Some (set_lock_lock false self, PcReturn)
  | PcReturn =>
      match _models self !! model_path with
      | Some h => Some (self, PcDone h)
      | None => Some (self, PcRaised (Raise KeyError (repr_str model_path)))
      end
  | PcUnwindModel model_lock e =>
      Some (set_held_locks (fun s => s ∖ {[model_lock]}) self, PcRaised e)
  | PcUnwindRegistry e => Some (set_lock_lock false self, PcRaised e)
  | PcDone _ | PcRaised _ => None
  end.

(** The number of statements a thread at this point can still run. *)
Definition pc_rank (at_ : pc) : nat :=
  match at_ with
  | PcCheck => 16 | PcAcqRegistry => 15 | PcTestLock => 14 | PcNewLock => 13
  | PcGetLock => 12 | PcRelRegistry _ => 11 | PcAcqModel _ => 10
  | PcRecheck _ => 9 | PcLoad _ => 8 | PcStore _ _ => 7 | PcRelModel _ => 6
  | PcAcqRegistry2 => 5 | PcTestLock2 => 4 | PcDelLock => 3
  | PcRelRegistry2 => 2 | PcReturn => 1
  | PcUnwindModel _ _ => 1 | PcUnwindRegistry _ => 1
  | PcDone _ => 0 | PcRaised _ => 0
  end.

Definition finished (at_ : pc) : bool :=
  match at_ with
  | PcDone _ | PcRaised _ => true
  | _ => false
  end.

(** *** Several threads inside [_load_model] *)

(** The processor and the threads of its executor that are inside
    [_load_model], each with its [model_path] argument. *)
Record pool_state : Type := {
  proc : ThreadedProcessor;
  threads : list (string * pc)
}.

(** The interpreter lets any thread that can move run its next
    statement. *)
Inductive step (w : world) : pool_state -> pool_state -> Prop :=
  | step_thread st i model_path at_ self' at_' :
      threads st !! i = Some (model_path, at_) ->
      thread_step w (proc st) model_path at_ = Some (self', at_') ->
      step w st {| proc := self';
                   threads := <[i := (model_path, at_')]> (threads st) |}.

Inductive steps (w : world) : pool_state -> pool_state -> Prop :=
  | steps_refl st : steps w st st
  | steps_step st st' st'' :
      steps w st st' -> step w st' st'' -> steps w st st''.

(** No thread can move. *)
Definition quiet (w : world) (st : pool_state) : Prop :=
  forall st', ~ step w st st'.

(** Running a given schedule: thread [i] runs one statement, for each [i]
    of the list in turn; a thread that cannot move is skipped. *)
Fixpoint run_schedule (w : world) (schedule : list nat) (st : pool_state)
    : pool_state :=
  match schedule with
  | [] => st
  | i :: rest =>
      match threads st !! i with
      | Some (model_path, at_) =>
          match thread_step w (proc st) model_path at_ with
          | Some (self', at_') =>
              run_schedule w rest
                {| proc := self';
                   threads := <[i := (model_path, at_')]> (threads st) |}
          | None => run_schedule w rest st
          end
      | None => run_schedule w rest st
      end
  end.

(** All callers start at the top of [_load_model]. *)
Definition callers (paths : list string) : list (string * pc) :=
  map (fun model_path => (model_path, PcCheck)) paths.

(** *** The proof outline of [_load_model]

    What holds of the processor whenever a thread with argument
    [model_path] stands at a given statement, whatever the other threads
    do meanwhile.  [cached0] is the map of loaded models when the calls
    began. *)

Definition holds_registry (at_ : pc) : bool :=
  match at_ with
  | PcTestLock | PcNewLock | PcGetLock | PcRelRegistry _
  | PcTestLock2 | PcDelLock | PcRelRegistry2 | PcUnwindRegistry _ => true
  | _ => false
  end.

Definition holds_model (at_ : pc) : option nat :=
  match at_ with
  | PcRecheck l | PcLoad l | PcStore l _ | PcRelModel l
  | PcUnwindModel l _ => Some l
  | _ => None
  end.

Definition loadable (w : world) (self : ThreadedProcessor)
    (model_path : string) : Prop :=
  exists m, PPO_load w model_path (_device self) = inr m.

Definition outline (w : world) (self : ThreadedProcessor)
    (model_path : string) (at_ : pc) : Prop :=
  let registry := _lock_lock self = true in
  let absent := _models self !! model_path = None in
  let present := is_Some (_models self !! model_path) in
  let lock_is l := _model_locks self !! model_path = Some l in
  match at_ with
  | PcCheck | PcAcqRegistry => True
  | PcTestLock => registry
  | PcNewLock => registry /\ _model_locks self !! model_path = None
  | PcGetLock => registry /\ is_Some (_model_locks self !! model_path)
  | PcRelRegistry l => registry /\ (absent -> lock_is l)
  | PcAcqModel l => absent -> lock_is l
  | PcRecheck l => l ∈ held_locks self /\ (absent -> lock_is l)
  | PcLoad l => l ∈ held_locks self /\ absent /\ lock_is l
  | PcStore l h =>
      l ∈ held_locks self /\ absent /\ lock_is l
      /\ PPO_load w model_path (_device self) = inr (obj_model h)
  | PcRelModel l => l ∈ held_locks self /\ present
  | PcAcqRegistry2 => present
  | PcTestLock2 => registry /\ present
  | PcDelLock =>
      registry /\ present /\ is_Some (_model_locks self !! model_path)
  | PcRelRegistry2 => registry /\ present
  | PcReturn => present
  | PcDone h => _models self !! model_path = Some h
  | PcUnwindModel _ _ | PcUnwindRegistry _ | PcRaised _ => False
  end.

(** Two threads never hold the registry lock or the same model lock
    together. *)
Definition exclusive (a b : pc) : Prop :=
  (holds_registry a = true -> holds_registry b = true -> False)
  /\ (forall l, holds_model a = Some l -> holds_model b = Some l -> False).

(** The invariant of a pool whose callers began with [cached0] loaded and
    [calls0] load calls made, for the given arguments. *)
Record single_flight (w : world) (cached0 : gmap string handle)
    (calls0 : list string) (paths : list string) (st : pool_state)
    : Prop := {
  sf_paths : map fst (threads st) = paths;
  sf_loadable : forall q,
    q ∈ paths -> cached0 !! q = None -> loadable w (proc st) q;
  sf_outline : forall i q a,
    threads st !! i = Some (q, a) -> outline w (proc st) q a;
  sf_exclusive : forall i j q a q' a',
    threads st !! i = Some (q, a) -> threads st !! j = Some (q', a') ->
    i <> j -> exclusive a a';
  sf_registry_owner :
    _lock_lock (proc st) = true ->
    exists i q a, threads st !! i = Some (q, a) /\ holds_registry a = true;
  sf_model_owner : forall l,
    l ∈ held_locks (proc st) ->
    exists i q a, threads st !! i = Some (q, a) /\ holds_model a = Some l;
  sf_kept : forall q h,
    cached0 !! q = Some h -> _models (proc st) !! q = Some h;
  sf_origin : forall q h,
    _models (proc st) !! q = Some h ->
    cached0 !! q = Some h
    \/ (cached0 !! q = None /\ q ∈ paths
        /\ PPO_load w q (_device (proc st)) = inr (obj_model h));
  sf_calls : exists new,
    load_calls (proc st) = (calls0 ++ new)%list
    /\ NoDup new
    /\ forall q,
         q ∈ new
         <-> cached0 !! q = None
             /\ (is_Some (_models (proc st) !! q)
                 \/ exists i l h, threads st !! i = Some (q, PcStore l h))
}.

(** The statements all threads together can still run. *)
Definition total_rank (st : pool_state) : nat :=
  sum_list (map (fun t => pc_rank (snd t)) (threads st)).

(** *** One caller at a time *)

Fixpoint run_thread (fuel : nat) (w : world) (self : ThreadedProcessor)
    (model_path : string) (at_ : pc) : ThreadedProcessor * pc :=
  match fuel with
  | O => (self, at_)
  | S fuel' =>
      match thread_step w self model_path at_ with
      | Some (self', at_') => run_thread fuel' w self' model_path at_'
      | None => (self, at_)
      end
  end.

(** [ThreadedProcessor._load_model] called while no other thread is inside
    it.  [None]: the call never returns (it waits for a lock that nobody
    releases). *)
Definition _load_model (w : world) (self : ThreadedProcessor)
    (model_path : string) : option (ThreadedProcessor * res handle) :=
  match run_thread (pc_rank PcCheck) w self model_path PcCheck with
  | (self', PcDone h) => Some (self', inr h)
  | (self', PcRaised e) => Some (self', inl e)
  | _ => None
  end.

(** No thread is inside [_load_model]: no lock is held. *)
Definition idle (p : ThreadedProcessor) : Prop :=
  _lock_lock p = false /\ held_locks p = ∅.

(** What a preload returns: [None, None, None, None, None, []]. *)
Definition no_prediction : prediction :=
  {| p_actions := None; p_log_probs := None; p_entropy := None;
     p_values := None; p_probs := None; p_extension_results := [] |}.

(** [ThreadedProcessor._worker_task] *)
Definition _worker_task (w : world) (self : ThreadedProcessor)
    (model_path : string) (observation action_masks : option tensor)
    (deterministic : det_arg)
    (return_actions return_log_probs return_entropy return_values
       return_probs : json)
    (extensions : json) : option (ThreadedProcessor * res prediction) :=
  match _load_model w self model_path with
  | None => None
  | Some (self', inl e) => Some (self', inl e)
  | Some (self', inr model) =>
      match observation with
      | None => Some (self', ret no_prediction)
      | Some observation =>
          match action_masks with
          | None => Some (self', raise (Raise AssertionError ""))
          | Some action_masks =>
              Some (self',
                    PPO_predict w (obj_model model) observation action_masks
                      deterministic return_actions return_log_probs
                      return_entropy return_values return_probs extensions)
          end
      end
  end.

(** [ThreadedProcessor.predict]: the worker task, run on the executor and
    awaited; [process_id] is not used. *)
Definition ThreadedProcessor_predict (w : world) (self : ThreadedProcessor)
    (process_id : Z) (model_path : string)
    (observation action_masks : option tensor) (deterministic : det_arg)
    (return_actions return_log_probs return_entropy return_values
       return_probs : json)
    (extensions : json) : option (ThreadedProcessor * res prediction) :=
  _worker_task w self model_path observation action_masks deterministic
    return_actions return_log_probs return_entropy return_values
    return_probs extensions.

(** ** protocol.py *)

(** A request as constructed: the dataclass stores what it is given. *)
Record InferenceRequest : Type := {
  model : json;
  actionMasks : json;
  obs : json;
  deterministic : json;
  returnLogProb : json;
  returnEntropy : json;
  returnValue : json;
  returnProbs : json;
  extensions : json
}.

Record InferenceResponse : Type := {
  action : list Z;
  logProb : option string;
  entropy : option (list string);
  values : option (list string);
  probs : option (list (list string));
  extensionResults : list json
}.

Definition request_fields : list string :=
  ["model"; "actionMasks"; "obs"; "deterministic"; "returnLogProb";
   "returnEntropy"; "returnValue"; "returnProbs"; "extensions"].

Definition required_fields : list string := ["model"; "actionMasks"; "obs"].

Definition in_list (k : string) (l : list string) : bool :=
  existsb (String.eqb k) l.

Definition field_or (request_json : pydict json) (k : string) (default : json)
    : json :=
  match dict_get k request_json with
  | Some v => v
  | None => default
  end.

(** The constructor of [InferenceRequest] called with the parsed line as
    its keyword arguments (server.py line 122): the argument must be a mapping, a
    key that is no field is an unexpected keyword, a required field that
    is not given is a missing argument, and the other fields take their
    defaults. *)
Definition InferenceRequest_init (w : world) (request_json : json)
    : res InferenceRequest :=
  match request_json with
  | JObj kwargs =>
      match filter (fun k => negb (in_list k request_fields))
                   (dict_keys kwargs) with
      | k :: _ => raise (fault_exn w (UnexpectedKeyword k))
      | [] =>
          match filter (fun k => negb (dict_contains k kwargs))
                       required_fields with
          | (_ :: _) as missing =>
              raise (fault_exn w (MissingArguments missing))
          | [] =>
              ret {| model := field_or kwargs "model" JNull;
                     actionMasks := field_or kwargs "actionMasks" JNull;
                     obs := field_or kwargs "obs" JNull;
                     deterministic :=
                       field_or kwargs "deterministic" (JBool false);
                     returnLogProb :=
                       field_or kwargs "returnLogProb" (JBool false);
                     returnEntropy :=
                       field_or kwargs "returnEntropy" (JBool false);
                     returnValue := field_or kwargs "returnValue" (JBool false);
                     returnProbs := field_or kwargs "returnProbs" (JBool false);
                     extensions := field_or kwargs "extensions" (JArr []) |}
          end
      end
  | v => raise (fault_exn w (NotAMapping v))
  end.

Definition dumps_opt {A} (f : A -> json) (o : option A) : json :=
  match o with
  | Some a => f a
  | None => JNull
  end.

Definition floats (l : list string) : json := JArr (map JFloat l).

(** [dataclasses.asdict(response)] *)
Definition asdict (r : InferenceResponse) : json :=
  JObj [("action", JArr (map JInt (action r)));
        ("logProb", dumps_opt JFloat (logProb r));
        ("entropy", dumps_opt floats (entropy r));
        ("values", dumps_opt floats (values r));
        ("probs", dumps_opt (fun p => JArr (map floats p)) (probs r));
        ("extensionResults", JArr (extensionResults r))].

(** ** server.py *)

Record TCPInferenceServer : Type := {
  host : string;
  port : Z;
  pool_size : Z;
  processor_type : string;
  device : string;
  server : bool;
  remote_processor : option ThreadedProcessor;
  models : pydict string
}.

Definition set_remote_processor (rp : option ThreadedProcessor)
    (self : TCPInferenceServer) : TCPInferenceServer :=
  {| host := host self; port := port self; pool_size := pool_size self;
     processor_type := processor_type self; device := device self;
     server := server self; remote_processor := rp; models := models self |}.

Definition set_server (b : bool) (self : TCPInferenceServer)
    : TCPInferenceServer :=
  {| host := host self; port := port self; pool_size := pool_size self;
     processor_type := processor_type self; device := device self;
     server := b; remote_processor := remote_processor self;
     models := models self |}.

(** The dict comprehension of [__init__] over a directory listing. *)
Definition scan_models (models_path : string) (listing : list string)
    : pydict string :=
  dict_comprehension
    (fun filename => fst (splitext filename))
    (fun filename => path_join models_path filename)
    (filter (fun filename => endswith filename ".zip") listing).

(** The catalog name as the spec words it: "the file name without that
    extension", here the name without its last four characters. *)
Definition spec_catalog_name (filename : string) : string :=
  str (take (String.length filename - 4) (chars filename)).

(** The catalog as the spec words it: exactly the files with the
    extension, each under its name without the extension, mapped to its
    full path. *)
Definition catalog_as_specified (models_path : string) (listing : list string)
    (catalog : pydict string) : Prop :=
  forall name path,
    dict_get name catalog = Some path
    <-> exists filename,
          filename ∈ listing /\ endswith filename ".zip" = true
          /\ name = spec_catalog_name filename
          /\ path = path_join models_path filename.

(** A string of dots only (the empty string included). *)
Definition only_dots (s : string) : bool :=
  forallb (fun c => Ascii.eqb c ".") (chars s).

(** The catalog name as amended: the file name without its last four
    characters, unless these leave only dots (or nothing), in which case
    the whole file name. *)
Definition amended_catalog_name (filename : string) : string :=
  if only_dots (spec_catalog_name filename) then filename
  else spec_catalog_name filename.

(** The catalog as amended: there is an entry under a name exactly when
    some listed file with the extension has that catalog name, and the
    entry holds the full path of the last such file of the listing. *)
Definition catalog_as_amended (models_path : string) (listing : list string)
    (catalog : pydict string) : Prop :=
  forall name path,
    dict_get name catalog = Some path
    <-> exists before filename after,
          listing = (before ++ filename :: after)%list
          /\ endswith filename ".zip" = true
          /\ name = amended_catalog_name filename
          /\ path = path_join models_path filename
          /\ forall other,
               other ∈ after -> endswith other ".zip" = true ->
               amended_catalog_name other <> name.

(** [TCPInferenceServer.__init__]; [settings_models_dir] is
    [get_settings().models_dir]. *)
Definition TCPInferenceServer_init (w : world) (settings_models_dir : string)
    (host : string) (port : Z) (models_dir : option string) (pool_size : Z)
    (processor_type device : string) : res TCPInferenceServer :=
  let models_path :=
    Path_str w (match models_dir with
                | Some d => if String.eqb d "" then settings_models_dir else d
                | None => settings_models_dir
                end) in
  let* models :=
    if Path_exists w models_path then
      let* listing := os_listdir w models_path in
      ret (scan_models models_path listing)
    else ret [] in
  ret {| host := host; port := port; pool_size := pool_size;
         processor_type := processor_type; device := device;
         server := false; remote_processor := None; models := models |}.

(** The preloads of [_preload_models], in the order they are created: one
    per pool slot per model. *)
Definition preload_tasks (rp : ThreadedProcessor) (models : pydict string)
    : list (Z * string) :=
  flat_map (fun i => map (fun model => (Z.of_nat i, model)) (dict_values models))
           (seq 0 (Z.to_nat (get_pool_size rp))).

(** The preloads run one after the other, as an executor with one worker
    runs them; [asyncio.gather] raises the first exception.  (With more
    workers they interleave, which [step] describes.) *)
Fixpoint run_preloads (w : world) (rp : ThreadedProcessor)
    (tasks : list (Z * string)) : option (ThreadedProcessor * res unit) :=
  match tasks with
  | [] => Some (rp, ret tt)
  | (i, model) :: rest =>
      match ThreadedProcessor_predict w rp i model None None
              (DetValue (JBool false)) (JBool true) (JBool false)
              (JBool false) (JBool false) (JBool false) (JArr []) with
      | None => None
      | Some (rp', r) =>
          match run_preloads w rp' rest with
          | None => None
          | Some (rp'', r') => Some (rp'', let* _ := r in r')
          end
      end
  end.

(** [TCPInferenceServer._preload_models] *)
Definition _preload_models (w : world) (self : TCPInferenceServer)
    : option (TCPInferenceServer * res unit) :=
  match remote_processor self with
  | None => Some (self, ret tt)
  | Some rp =>
      match run_preloads w rp (preload_tasks rp (models self)) with
      | None => None
      | Some (rp', r) => Some (set_remote_processor (Some rp') self, r)
      end
  end.

(** [TCPInferenceServer.start] *)
Definition start (w : world) (self : TCPInferenceServer)
    : option (TCPInferenceServer * res unit) :=
  match create_remote_processor (pool_size self) (processor_type self)
          (device self) with
  | inl e => Some (self, inl e)
  | inr rp =>
      let self := set_remote_processor (Some rp) self in
      match (match models self with
             | [] => Some (self, ret tt)
             | _ :: _ => _preload_models w self
             end) with
      | None => None
      | Some (self, inl e) => Some (self, inl e)
      | Some (self, inr _) =>
          match bind_fails w (host self) (port self) with
          | Some e => Some (self, inl e)
          | None => Some (set_server true self, ret tt)
          end
      end
  end.

(** [t.tolist()[0]] *)
Definition row0 {A} (w : world) (rows : list A) : res A :=
  match rows with
  | r :: _ => ret r
  | [] => raise (fault_exn w IndexOutOfRange)
  end.

Definition row0_opt {A} (w : world) (t : option (list A)) : res (option A) :=
  match t with
  | Some rows => let* r := row0 w rows in ret (Some r)
  | None => ret None
  end.

(** [random.randint(0, n - 1)]: its value is not used by the processor,
    only its refusal of an empty range is visible. *)
Definition randint_check (w : world) (n : Z) : res unit :=
  if (n <=? 0)%Z then raise (fault_exn w EmptyRange) else ret tt.

(** [TCPInferenceServer._process_request].  [None]: the awaited prediction
    never completes. *)
Definition _process_request (w : world) (self : TCPInferenceServer)
    (request : InferenceRequest)
    : option (TCPInferenceServer * res InferenceResponse) :=
  let model_name := model request in
  let before :=
    let* known := dict_contains_val w model_name (models self) in
    if negb known then
      raise (Raise ValueError
               ("Unknown model: " +:+ str_scalar model_name
                +:+ ". Available: " +:+ repr_str_list (dict_keys (models self))))
    else
    let raw_sliced_action_masks := actionMasks request in
    let* heads := py_iter w raw_sliced_action_masks in
    let* head_items := mapM (py_iter w) heads in
    let raw_action_masks := chain_from_iterable head_items in
    let* observations := th_tensor w (JArr [obs request]) float32 in
    let* action_masks := th_tensor w (JArr [JArr raw_action_masks]) bool_ in
    let* sample_deterministic :=
      match deterministic request with
      | JArr _ =>
          let* t := th_tensor w (deterministic request) bool_ in
          ret (DetTensor t)
      | v => ret (DetValue v)
      end in
    let* rp :=
      match remote_processor self with
      | Some rp => ret rp
      | None => raise (fault_exn w NoneHasNoAttribute)
      end in
    let* _ := randint_check w (get_pool_size rp) in
    let* model_path := dict_getitem_val w model_name (models self) in
    ret (rp, observations, action_masks, sample_deterministic, model_path) in
  match before with
  | inl e => Some (self, inl e)
  | inr (rp, observations, action_masks, sample_deterministic, model_path) =>
      match ThreadedProcessor_predict w rp 0 model_path (Some observations)
              (Some action_masks) sample_deterministic (JBool true)
              (returnLogProb request) (returnEntropy request)
              (returnValue request) (returnProbs request)
              (extensions request) with
      | None => None
      | Some (rp', result) =>
          Some (set_remote_processor (Some rp') self,
                let* r := result in
                let* action :=
                  match p_actions r with
                  | Some a => ret a
                  | None => raise (Raise AssertionError "")
                  end in
                let* probs :=
                  match truthy (returnProbs request), p_probs r with
                  | true, Some flattened_probs =>
                      let* heads := py_iter w (actionMasks request) in
                      let* action_head_sizes := mapM (py_len w) heads in
                      match action_head_sizes with
                      | [] => ret (Some [])
                      | _ :: _ =>
                          let* row := row0 w flattened_probs in
                          ret (Some (split_by_heads action_head_sizes row))
                      end
                  | _, _ => ret None
                  end in
                let* action0 := row0 w action in
                let* logProb := row0_opt w (p_log_probs r) in
                let* entropy := row0_opt w (p_entropy r) in
                let* values := row0_opt w (p_values r) in
                ret {| action := action0; logProb := logProb;
                       entropy := entropy; values := values; probs := probs;
                       extensionResults := p_extension_results r |})
      end
  end.

(** What the reader of a connection delivers next: a line, given by what
    [json.loads] makes of it and by the failures, if any, of the calls of
    [writer.drain()] that follow in order; or a failure of [readline()].
    The end of the list is the end of the stream. *)
Inductive read_event : Type :=
  | ReadLine (parsed : res json) (drains : list (option py_exn))
  | ReadError (e : py_exn).

(** How [_handle_client] ends: it closes the writer, or it never gets
    there because an awaited prediction never completes. *)
Inductive handler_end : Type := Closed | Hung.

(** [(json.dumps({"error": str(e)}) + "\n")] and
    [(json.dumps(response_json) + "\n")] *)
Definition error_line (e : py_exn) : string :=
  json_dumps (JObj [("error", JStr (exn_str e))]) +:+ String (ascii_of_nat 10) "".

Definition response_line (response : InferenceResponse) : string :=
  json_dumps (asdict response) +:+ String (ascii_of_nat 10) "".

(** Lines 121-125: from the received line to the encoded response. *)
Definition try_body (w : world) (self : TCPInferenceServer)
    (parsed : res json) : option (TCPInferenceServer * res string) :=
  match parsed with
  | inl e => Some (self, inl e)
  | inr request_json =>
      match InferenceRequest_init w request_json with
      | inl e => Some (self, inl e)
      | inr request =>
          match _process_request w self request with
          | None => None
          | Some (self', r) =>
              Some (self', let* response := r in ret (response_line response))
          end
      end
  end.

(** [TCPInferenceServer._handle_client] from its [try] on (lines 112-144):
    the lines handed to [writer.write], how the handler ends, and the
    server afterwards.  [_handle_client_call] below has the statements
    before the [try]. *)
Fixpoint _handle_client (w : world) (self : TCPInferenceServer)
    (events : list read_event)
    : list string * handler_end * TCPInferenceServer :=
  match events with
  | [] => ([], Closed, self)
  | ReadError e :: _ => ([], Closed, self)
  | ReadLine parsed drains :: rest =>
      match try_body w self parsed with
      | None => ([], Hung, self)
      | Some (self', inr line) =>
          match nth 0 drains None with
          | None =>
              let '(out, e, s) := _handle_client w self' rest in
              (line :: out, e, s)
          | Some e =>
              match nth 1 drains None with
              | None =>
                  let '(out, e', s) := _handle_client w self' rest in
                  (line :: error_line e :: out, e', s)
              | Some _ => ([line; error_line e], Closed, self')
              end
          end
      | Some (self', inl e) =>
          match nth 0 drains None with
          | None =>
              let '(out, e', s) := _handle_client w self' rest in
              (error_line e :: out, e', s)
          | Some _ => ([error_line e], Closed, self')
          end
      end
  end.

(** How a call of [_handle_client] ends: through the [finally] of lines
    138-144 or waiting for a prediction, as [_handle_client] above says;
    or with an exception raised before the [try] of line 112 is entered,
    of which only the class is recorded. *)
Inductive call_end : Type :=
  | Entered (e : handler_end)
  | RaisedBeforeTry (cls : exn_class).

(** A call of [_handle_client] from its first statement.  Lines 108-110
    unpack [writer.get_extra_info("peername")] into two names and a rest
    before the [try]: a peer name that is [None] (the transport could not
    read it) cannot be unpacked, a [TypeError]; one with fewer than two
    components has not enough values, a [ValueError].  Either leaves the
    handler without a line read or written and without the [finally] that
    closes the writer.  Otherwise the handler goes on as [_handle_client]
    above, which is the function from line 112 on. *)
Definition _handle_client_call (w : world) (self : TCPInferenceServer)
    (peername : option (list json)) (events : list read_event)
    : list string * call_end * TCPInferenceServer :=
  match peername with
  | None => ([], RaisedBeforeTry TypeError, self)
  | Some (client_ip :: client_port :: _) =>
      let '(out, e, s) := _handle_client w self events in
      (out, Entered e, s)
  | Some _ => ([], RaisedBeforeTry ValueError, self)
  end.

(** ** A small world to run the definitions in *)

(** A model with two heads of three and two actions. *)
Definition toy_model : PPO :=
  {| action_head_count := 2;
     normalized_observations := false;
     normalize := fun t => t;
     network := fun _ _ _ =>
       ret {| out_actions := [[1%Z; 0%Z]];
              out_log_probs := ["-0.5"];
              out_entropy := [["0.6"; "0.7"]];
              out_values := [["1.5"]];
              out_probs := [["0.2"; "0.8"; "0.0"; "0.5"; "0.5"]] |};
     _extensions := [("winrate", fun _ => ret (JFloat "0.5"))] |}.

(** A directory [models] with one model file and one other file; every
    path under it can be loaded except [models/broken.zip]. *)
Definition toy_world : world :=
  {| interp_msg := fun _ => "fault";
     Path_str := fun s => s;
     Path_exists := fun s => String.eqb s "models";
     os_listdir := fun _ => ret ["bronze_agility.zip"; "notes.txt"];
     os_path_exists := fun s => negb (String.eqb s "models/broken.zip");
     PPO_of_checkpoint := fun _ _ => ret toy_model;
     torch_rejects := fun _ _ => None;
     bind_fails := fun _ _ => None |}.

(** A running server of [toy_world]: the catalog of the scenario of the
    spec, a pool of two workers, nothing loaded yet. *)
Definition toy_server : TCPInferenceServer :=
  {| host := "127.0.0.1"; port := 9999; pool_size := 2;
     processor_type := "thread"; device := "cpu"; server := true;
     remote_processor := Some (fresh_processor 2 "cpu");
     models := [("bronze_agility", "models/bronze_agility.zip")] |}.

(** A request for [model_name] with masks for two heads and one frame. *)
Definition toy_request (model_name : string) (more : list (string * json))
    : json :=
  JObj ([("model", JStr model_name);
         ("actionMasks",
          JArr [JArr [JBool true; JBool true; JBool false];
                JArr [JBool true; JBool true]]);
         ("obs", JArr [JArr [JInt 1; JFloat "0.5"]])] ++ more)%list.

(** The same request once constructed, with the given flags. *)
Definition toy_constructed (model_name : string)
    (log_prob_flag entropy_flag value_flag probs_flag : bool)
    : InferenceRequest :=
  {| model := JStr model_name;
     actionMasks := JArr [JArr [JBool true; JBool true; JBool false];
                          JArr [JBool true; JBool true]];
     obs := JArr [JArr [JInt 1; JFloat "0.5"]];
     deterministic := JBool false;
     returnLogProb := JBool log_prob_flag;
     returnEntropy := JBool entropy_flag;
     returnValue := JBool value_flag;
     returnProbs := JBool probs_flag;
     extensions := JArr [] |}.

Definition newline : string := String (ascii_of_nat 10) "".

(** The error line of the unknown-model scenario as the spec prints it. *)
Definition spec_unknown_model_line : string :=
  "{" +:+ dq +:+ "error" +:+ dq +:+ ": " +:+ dq
  +:+ "Unknown model: iron_agility. Available: [bronze_agility]"
  +:+ dq +:+ "}" +:+ newline.

(** The same line as the server writes it. *)
Definition unknown_model_line : string :=
  "{" +:+ dq +:+ "error" +:+ dq +:+ ": " +:+ dq
  +:+ "Unknown model: iron_agility. Available: ['bronze_agility']"
  +:+ dq +:+ "}" +:+ newline.

(** The keys of a dict built by setting the given keys in turn: each key
    at the place of its first occurrence. *)
Definition first_occurrences (ks : list string) : list string :=
  fold_left (fun acc k => if in_list k acc then acc else (acc ++ [k])%list)
            ks [].

(** The schedule that lets threads 0 and 1 take turns, [n] times. *)
Definition alternate (n : nat) : list nat := concat (replicate n [0; 1]).

(** Two callers for the model file of [toy_world], on a fresh processor
    with two workers. *)
Definition toy_pool : pool_state :=
  {| proc := fresh_processor 2 "cpu";
     threads := callers (replicate 2 "models/bronze_agility.zip") |}.

(** ** server.py: the factory *)

(** [create_tcp_server]: construct the server, start it and return it.
    [None]: [start] never returns. *)
Definition create_tcp_server (w : world) (settings_models_dir : string)
    (host : string) (port : Z) (models_dir : option string) (pool_size : Z)
    (processor_type device : string) : option (res TCPInferenceServer) :=
  match TCPInferenceServer_init w settings_models_dir host port models_dir
          pool_size processor_type device with
  | inl e => Some (inl e)
  | inr server =>
      match start w server with
      | None => None
      | Some (_, inl e) => Some (inl e)
      | Some (server', inr _) => Some (inr server')
      end
  end.

(** ** Notions used by the properties of part II *)

(** *** One connection *)

(** The lines a handler gets to read: those before the first failure of
    [readline()], or all of them. *)
Fixpoint lines_until_error (events : list read_event) : nat :=
  match events with
  | ReadLine _ _ :: rest => S (lines_until_error rest)
  | _ => 0
  end.

(** The processor of the server, if it has one, is used by nobody. *)
Definition processor_idle (self : TCPInferenceServer) : Prop :=
  match remote_processor self with
  | Some rp => idle rp
  | None => True
  end.

(** What one request may do to a server whose processor nobody else
    uses: nothing, or one call of [PPO.load] for a catalog location that
    was not cached, which is cached afterwards if the load succeeds. *)
Definition request_effect (w : world) (self self' : TCPInferenceServer)
    : Prop :=
  self' = self
  \/ exists rp rp' path,
       remote_processor self = Some rp
       /\ path ∈ dict_values (models self)
       /\ _models rp !! path = None
       /\ self' = set_remote_processor (Some rp') self
       /\ idle rp'
       /\ _device rp' = _device rp
       /\ load_calls rp' = (load_calls rp ++ [path])%list
       /\ (forall q, q <> path -> _models rp' !! q = _models rp !! q)
       /\ match PPO_load w path (_device rp) with
          | inr m =>
              _models rp' !! path = Some (Handle (length (load_calls rp)) m)
          | inl _ => _models rp' !! path = None
          end.

(** The transport works for this event: the first [drain()] after its
    line, if it is a line, succeeds. *)
Definition drains_ok (ev : read_event) : Prop :=
  match ev with
  | ReadLine _ drains => nth 0 drains None = None
  | ReadError _ => True
  end.

(** *** The lock registry *)

(** The statements between reading the lock of the location from the
    registry and deleting it from there. *)
Definition in_lock_window (at_ : pc) : bool :=
  match at_ with
  | PcGetLock | PcRelRegistry _ | PcAcqModel _ | PcRecheck _ | PcLoad _
  | PcStore _ _ | PcRelModel _ | PcAcqRegistry2 | PcTestLock2 | PcDelLock =>
      true
  | _ => false
  end.

(** Every lock in the registry was there when the calls began, or belongs
    to the location of a thread that has not yet left [_load_model]'s
    cleanup. *)
Definition registry_tracked (locks0 : gmap string nat) (st : pool_state)
    : Prop :=
  forall q l,
    _model_locks (proc st) !! q = Some l ->
    locks0 !! q = Some l
    \/ exists i a, threads st !! i = Some (q, a) /\ in_lock_window a = true.

(** Inside [PPO.load] or holding its result before it is stored. *)
Definition in_load (at_ : pc) : bool :=
  match at_ with
  | PcLoad _ | PcStore _ _ => true
  | _ => false
  end.

(** *** Callers of a location that does not load *)

(** The proof outline of [_load_model] for callers of one location whose
    load raises [e]: what holds of the processor whenever a thread stands
    at a given statement. *)
Definition failing_outline (self : ThreadedProcessor) (model_path : string)
    (e : py_exn) (at_ : pc) : Prop :=
  let registry := _lock_lock self = true in
  let lock_is l := _model_locks self !! model_path = Some l in
  match at_ with
  | PcCheck | PcAcqRegistry => True
  | PcTestLock => registry
  | PcNewLock => registry /\ _model_locks self !! model_path = None
  | PcGetLock => registry /\ is_Some (_model_locks self !! model_path)
  | PcRelRegistry l => registry /\ lock_is l
  | PcAcqModel l => lock_is l
  | PcRecheck l | PcLoad l => l ∈ held_locks self /\ lock_is l
  | PcUnwindModel l e' => l ∈ held_locks self /\ lock_is l /\ e' = e
  | PcRaised e' => e' = e
  | _ => False
  end.

(** The thread has called [PPO.load]. *)
Definition attempted (at_ : pc) : bool :=
  match at_ with
  | PcUnwindModel _ _ | PcRaised _ => true
  | _ => false
  end.

Definition attempts (T : list (string * pc)) : nat :=
  sum_list (map (fun t => if attempted (snd t) then 1 else 0) T).

(** The invariant of a pool whose callers all ask for [model_path], whose
    load raises [e], and began with [cached0] loaded and [calls0] load
    calls made. *)
Record failing_flight (w : world) (cached0 : gmap string handle)
    (calls0 : list string) (model_path : string) (e : py_exn)
    (st : pool_state) : Prop := {
  ff_paths : forall i q a, threads st !! i = Some (q, a) -> q = model_path;
  ff_load : PPO_load w model_path (_device (proc st)) = inl e;
  ff_models : _models (proc st) = cached0;
  ff_absent : cached0 !! model_path = None;
  ff_outline : forall i q a,
    threads st !! i = Some (q, a) -> failing_outline (proc st) q e a;
  ff_exclusive : forall i j q a q' a',
    threads st !! i = Some (q, a) -> threads st !! j = Some (q', a') ->
    i <> j -> exclusive a a';
  ff_registry_owner :
    _lock_lock (proc st) = true ->
    exists i q a, threads st !! i = Some (q, a) /\ holds_registry a = true;
  ff_model_owner : forall l,
    l ∈ held_locks (proc st) ->
    exists i q a, threads st !! i = Some (q, a) /\ holds_model a = Some l;
  ff_calls :
    load_calls (proc st)
    = (calls0 ++ replicate (attempts (threads st)) model_path)%list
}.

(** ** remote_processor.py: the tasks of the executor *)

(** The arguments with which [predict] hands [_worker_task] to the
    executor (remote_processor.py lines 114-129); [return_device] is not
    modelled, moving a tensor to a device does not change it. *)
Record worker_args : Type := {
  wa_model_path : string;
  wa_observation : option tensor;
  wa_action_masks : option tensor;
  wa_deterministic : det_arg;
  wa_return_actions : json;
  wa_return_log_probs : json;
  wa_return_entropy : json;
  wa_return_values : json;
  wa_return_probs : json;
  wa_extensions : json
}.

(** [_worker_task] from the return of [_load_model] on (lines 153-172),
    [model] being the model returned. *)
Definition worker_task_rest (w : world) (model : handle) (args : worker_args)
    : res prediction :=
  match wa_observation args with
  | None => ret no_prediction
  | Some observation =>
      match wa_action_masks args with
      | None => raise (Raise AssertionError "")
      | Some action_masks =>
          PPO_predict w (obj_model model) observation action_masks
            (wa_deterministic args) (wa_return_actions args)
            (wa_return_log_probs args) (wa_return_entropy args)
            (wa_return_values args) (wa_return_probs args)
            (wa_extensions args)
      end
  end.

(** Where a thread of the executor stands in [_worker_task]: inside the
    call of [_load_model] of line 152, or at the end, with what
    [_load_model] returned or raised and what the task returns or
    raises. *)
Inductive task_pc : Type :=
  | TaskLoading (at_ : pc)
  | TaskEnded (loaded : res handle) (r : res prediction).

(** One statement of [_worker_task] run by one thread.  [None]: the thread
    cannot move, because it waits for a lock or has ended. *)
Definition task_step (w : world) (self : ThreadedProcessor)
    (args : worker_args) (at_ : task_pc)
    : option (ThreadedProcessor * task_pc) :=
  match at_ with
  | TaskLoading (PcDone model) =>
      Some (self, TaskEnded (inr model) (worker_task_rest w model args))
  | TaskLoading (PcRaised e) => Some (self, TaskEnded (inl e) (inl e))
  | TaskLoading at_ =>
      match thread_step w self (wa_model_path args) at_ with
      | Some (self', at_') => Some (self', TaskLoading at_')
      | None => None
      end
  | TaskEnded _ _ => None
  end.

(** The processor and the tasks that its executor is running. *)
Record executor_state : Type := {
  ex_proc : ThreadedProcessor;
  ex_tasks : list (worker_args * task_pc)
}.

(** The interpreter lets any thread of the executor that can move run its
    next statement.  Every task has a thread here; an executor with fewer
    workers than tasks starts a task when a worker is free, which gives
    some of these runs. *)
Inductive executor_step (w : world)
    : executor_state -> executor_state -> Prop :=
  | executor_step_task st i args at_ self' at_' :
      ex_tasks st !! i = Some (args, at_) ->
      task_step w (ex_proc st) args at_ = Some (self', at_') ->
      executor_step w st
        {| ex_proc := self';
           ex_tasks := <[i := (args, at_')]> (ex_tasks st) |}.

Inductive executor_steps (w : world)
    : executor_state -> executor_state -> Prop :=
  | executor_steps_refl st : executor_steps w st st
  | executor_steps_step st st' st'' :
      executor_steps w st st' -> executor_step w st' st'' ->
      executor_steps w st st''.

(** No thread of the executor can move. *)
Definition executor_quiet (w : world) (st : executor_state) : Prop :=
  forall st', ~ executor_step w st st'.

(** Running a given schedule, as [run_schedule] does for [_load_model]. *)
Fixpoint run_executor (w : world) (schedule : list nat) (st : executor_state)
    : executor_state :=
  match schedule with
  | [] => st
  | i :: rest =>
      match ex_tasks st !! i with
      | Some (args, at_) =>
          match task_step w (ex_proc st) args at_ with
          | Some (self', at_') =>
              run_executor w rest
                {| ex_proc := self';
                   ex_tasks := <[i := (args, at_')]> (ex_tasks st) |}
          | None => run_executor w rest st
          end
      | None => run_executor w rest st
      end
  end.

(** One task run alone, for at most [fuel] statements. *)
Fixpoint run_task (fuel : nat) (w : world) (self : ThreadedProcessor)
    (args : worker_args) (at_ : task_pc) : ThreadedProcessor * task_pc :=
  match fuel with
  | O => (self, at_)
  | S fuel' =>
      match task_step w self args at_ with
      | Some (self', at_') => run_task fuel' w self' args at_'
      | None => (self, at_)
      end
  end.

(** The arguments of a preload: [predict(process_id=i, model_path=model)]
    (server.py line 87) leaves the others at their defaults. *)
Definition preload_args (model : string) : worker_args :=
  {| wa_model_path := model;
     wa_observation := None;
     wa_action_masks := None;
     wa_deterministic := DetValue (JBool false);
     wa_return_actions := JBool true;
     wa_return_log_probs := JBool false;
     wa_return_entropy := JBool false;
     wa_return_values := JBool false;
     wa_return_probs := JBool false;
     wa_extensions := JArr [] |}.

(** The executor when [_preload_models] awaits its tasks (lines 86-91):
    one [_worker_task] per pool slot per model, none started. *)
Definition preload_executor (rp : ThreadedProcessor) (models : pydict string)
    : executor_state :=
  {| ex_proc := rp;
     ex_tasks := map (fun t => (preload_args (snd t), TaskLoading PcCheck))
                     (preload_tasks rp models) |}.

(** The statements a task can still run, and all tasks together. *)
Definition task_rank (at_ : task_pc) : nat :=
  match at_ with
  | TaskLoading a => S (pc_rank a)
  | TaskEnded _ _ => 0
  end.

Definition executor_rank (st : executor_state) : nat :=
  sum_list (map (fun t => task_rank (snd t)) (ex_tasks st)).

(** A task seen as a caller of [_load_model]: where it stands inside the
    call, or how the call ended. *)
Definition task_caller (at_ : task_pc) : pc :=
  match at_ with
  | TaskLoading a => a
  | TaskEnded (inr h) _ => PcDone h
  | TaskEnded (inl e) _ => PcRaised e
  end.

Definition load_view (st : executor_state) : pool_state :=
  {| proc := ex_proc st;
     threads := map (fun t => (wa_model_path (fst t), task_caller (snd t)))
                    (ex_tasks st) |}.

(** What an ended task holds: the result of the rest of [_worker_task] on
    the model that [_load_model] returned, or the exception it raised. *)
Definition task_consistent (w : world) (t : worker_args * task_pc) : Prop :=
  match snd t with
  | TaskLoading _ => True
  | TaskEnded (inr h) r => r = worker_task_rest w h (fst t)
  | TaskEnded (inl e) r => r = inl e
  end.

(** The task has ended. *)
Definition task_ended (at_ : task_pc) : bool :=
  match at_ with
  | TaskEnded _ _ => true
  | TaskLoading _ => false
  end.

(* ===================================================================== *)
(** * Part II: properties                                                 *)
(* ===================================================================== *)

(** ** The definitions at work *)

Example splitext_cases :
  splitext "bronze_agility.zip" = ("bronze_agility", ".zip")
  /\ splitext "model.v2.zip" = ("model.v2", ".zip")
  /\ splitext ".zip" = (".zip", "")
  /\ splitext "..zip" = ("..zip", "")
  /\ splitext "notes" = ("notes", "")
  /\ splitext "a.b/c" = ("a.b/c", "").
Proof. repeat split; reflexivity. Qed.

Example scan_models_cases :
  scan_models "models" ["bronze_agility.zip"; "notes.txt"; "iron.ZIP"; "b.zip"]
  = [("bronze_agility", "models/bronze_agility.zip"); ("b", "models/b.zip")]
  /\ scan_models "." ["a.zip"] = [("a", "a.zip")]
  /\ scan_models "/" ["a.zip"] = [("a", "/a.zip")]
  /\ scan_models "models" [".zip.zip"; ".zip"] = [(".zip", "models/.zip")].
Proof. repeat split; reflexivity. Qed.

Example repr_cases :
  repr_str_list ["a"; "b"] = "['a', 'b']"
  /\ repr_str "it's" = dq +:+ "it's" +:+ dq
  /\ repr_str_list [] = "[]"
  /\ str_scalar (JInt (-5)) = "-5"
  /\ str_scalar JNull = "None".
Proof. repeat split; reflexivity. Qed.

Example response_line_case :
  fst (fst (_handle_client toy_world toy_server
              [ReadLine (inr (toy_request "bronze_agility"
                                [("returnProbs", JBool true);
                                 ("extensions", JArr [JStr "winrate"])])) []]))
  = ["{" +:+ dq +:+ "action" +:+ dq +:+ ": [1, 0], "
     +:+ dq +:+ "logProb" +:+ dq +:+ ": null, "
     +:+ dq +:+ "entropy" +:+ dq +:+ ": null, "
     +:+ dq +:+ "values" +:+ dq +:+ ": null, "
     +:+ dq +:+ "probs" +:+ dq +:+ ": [[0.2, 0.8, 0.0], [0.5, 0.5]], "
     +:+ dq +:+ "extensionResults" +:+ dq +:+ ": [0.5]}" +:+ newline].
Proof. reflexivity. Qed.

Example start_toy_server :
  exists self running rp,
    TCPInferenceServer_init toy_world "../pvp-ml/models" "127.0.0.1" 9999
      (Some "models") 2 "thread" "cpu" = inr self
    /\ models self = [("bronze_agility", "models/bronze_agility.zip")]
    /\ start toy_world self = Some (running, ret tt)
    /\ remote_processor running = Some rp
    /\ load_calls rp = ["models/bronze_agility.zip"]
    /\ idle rp.
Proof.
  eexists _, _, _. split; [reflexivity|]. split; [reflexivity|].
  split; [vm_compute; reflexivity|]. split; [reflexivity|].
  split; [reflexivity|]. split; reflexivity.
Qed.

(** ** Flattening and splitting *)

Lemma split_from_chunks {A} (ns : list nat) (row : list A) acc :
  map (fun i => py_slice (nth i (acc :: accumulate_from acc ns) 0)
                         (nth (S i) (acc :: accumulate_from acc ns) 0) row)
      (seq 0 (length ns))
  = chunks ns (drop acc row).
Proof.
  revert acc. induction ns as [|n ns IH]; intros acc; [done|].
  cbn [length seq map chunks accumulate_from]. f_equal.
  - unfold py_slice. cbn [nth]. f_equal. lia.
  - rewrite <- seq_shift, map_map, drop_drop, <- IH.
    apply map_ext. intros i. reflexivity.
Qed.

Lemma split_by_heads_chunks {A} (ns : list nat) (row : list A) :
  split_by_heads ns row = chunks ns row.
Proof.
  unfold split_by_heads, cumulative_sizes, accumulate.
  by rewrite split_from_chunks, drop_0.
Qed.

Lemma chunks_concat {A} (heads : list (list A)) :
  chunks (map length heads) (concat heads) = heads.
Proof.
  induction heads as [|h hs IH]; [done|].
  cbn [map concat chunks].
  by rewrite take_app_length, drop_app_length, IH.
Qed.

Lemma chunks_shape {A} (ns : list nat) (row : list A) :
  length row = sum_list ns ->
  map length (chunks ns row) = ns /\ concat (chunks ns row) = row.
Proof.
  revert row. induction ns as [|n ns IH]; intros row Hlen; cbn in *.
  - destruct row; [done|discriminate].
  - destruct (IH (drop n row)) as [IH1 IH2].
    { rewrite length_drop. lia. }
    rewrite IH1, IH2, length_take, take_drop. split; [f_equal; lia|done].
Qed.

Lemma accumulate_from_lookup acc (ns : list nat) i :
  i < length ns ->
  accumulate_from acc ns !! i = Some (acc + sum_list (take (S i) ns)).
Proof.
  revert acc i. induction ns as [|n ns IH]; intros acc i Hi; cbn in *; [lia|].
  destruct i as [|i]; cbn.
  - by rewrite take_0, Nat.add_0_r.
  - rewrite IH by lia. cbn. f_equal. lia.
Qed.

Lemma cumulative_sizes_lookup (ns : list nat) i :
  i <= length ns ->
  cumulative_sizes ns !! i = Some (sum_list (take i ns)).
Proof.
  intros Hi. unfold cumulative_sizes, accumulate.
  destruct i as [|i]; [by rewrite take_0|].
  cbn. by rewrite accumulate_from_lookup by lia.
Qed.

Lemma length_chain {A} (heads : list (list A)) :
  length (chain_from_iterable heads) = sum_list (map length heads).
Proof.
  unfold chain_from_iterable.
  induction heads as [|h hs IH]; [done|].
  cbn. by rewrite length_app, IH.
Qed.

(** C3.  The boundaries used for the split are the running sums of the
    per-head mask lengths, [0, n1, n1+n2, ...] ([0, 3, 5, 9] for
    [3, 2, 4]).  Flattening the per-head masks gives one sequence of
    n1+...+nk elements, and splitting it at these boundaries gives the
    heads back; splitting any payload of that total length gives groups of
    the same lengths as the heads, in head order, that concatenate to the
    payload. *)
Theorem flatten_then_split_round_trip {A B} (heads : list (list A))
    (payload : list B) :
  length payload = sum_list (map length heads) ->
  let action_head_sizes := map length heads in
  (forall i, i <= length action_head_sizes ->
     cumulative_sizes action_head_sizes !! i
     = Some (sum_list (take i action_head_sizes)))
  /\ cumulative_sizes [3; 2; 4] = [0; 3; 5; 9]
  /\ length (chain_from_iterable heads) = length payload
  /\ split_by_heads action_head_sizes (chain_from_iterable heads) = heads
  /\ map length (split_by_heads action_head_sizes payload) = map length heads
  /\ chain_from_iterable (split_by_heads action_head_sizes payload) = payload.
Proof.
  intros Hlen sizes. subst sizes.
  split; [intros i Hi; by apply cumulative_sizes_lookup|].
  split; [reflexivity|].
  split; [by rewrite length_chain|].
  rewrite !split_by_heads_chunks. unfold chain_from_iterable.
  split; [apply chunks_concat|].
  by apply chunks_shape.
Qed.

Lemma flatten_then_split_round_trip_witness :
  let heads := [[true; false; true]; [true; true]; [false; true; true; false]] in
  let payload := [1; 2; 3; 4; 5; 6; 7; 8; 9] in
  length payload = sum_list (map length heads)
  /\ split_by_heads (map length heads) payload
     = [[1; 2; 3]; [4; 5]; [6; 7; 8; 9]]
  /\ split_by_heads (map length heads) (chain_from_iterable heads) = heads.
Proof.
  intros heads payload.
  destruct (flatten_then_split_round_trip heads payload eq_refl)
    as (_ & _ & _ & Hheads & _ & _).
  split; [reflexivity|]. split; [reflexivity|exact Hheads].
Defined.

(** ** The model cache, one caller at a time *)

Ltac run1 :=
  cbn [pc_rank run_thread thread_step set_lock_lock set_model_locks
       set_models set_held_locks bump_next_lock log_load _model_locks
       _models _lock_lock held_locks next_lock load_calls _device
       _pool_size].

Lemma load_model_cached w p path h :
  _models p !! path = Some h ->
  _load_model w p path = Some (p, inr h).
Proof.
  intros Hm. unfold _load_model. cbn. rewrite Hm. cbn. by rewrite Hm.
Qed.

Lemma load_model_uncached w p path :
  idle p ->
  _models p !! path = None ->
  exists p',
    _load_model w p path
    = Some (p', match PPO_load w path (_device p) with
                | inr m => inr (Handle (length (load_calls p)) m)
                | inl e => inl e
                end)
    /\ _models p'
       = match PPO_load w path (_device p) with
         | inr m => <[path := Handle (length (load_calls p)) m]> (_models p)
         | inl _ => _models p
         end
    /\ load_calls p' = (load_calls p ++ [path])%list
    /\ idle p'
    /\ _device p' = _device p /\ _pool_size p' = _pool_size p.
Proof.
  intros [Hreg Hheld] Hm. unfold _load_model, idle.
  run1. rewrite Hm. run1. rewrite Hreg. run1.
  assert (Hfree : forall l : nat, l ∉ (∅ : gset nat)) by (intros l; apply not_elem_of_empty).
  assert (Hrel : forall l : nat, ({[l]} ∪ ∅) ∖ {[l]} = (∅ : gset nat)).
  { intros l. apply set_eq. intros x.
    rewrite elem_of_difference, elem_of_union, elem_of_singleton.
    split; [tauto|]. intros Hx. by apply not_elem_of_empty in Hx. }
  destruct (_model_locks p !! path) as [l|] eqn:Hl; run1.
  - rewrite Hl. run1. rewrite Hheld, decide_False by apply Hfree. run1.
    rewrite Hm. run1.
    destruct (PPO_load w path (_device p)) as [e|m]; run1.
    + eexists. split; [reflexivity|]. run1. by rewrite Hheld, Hrel.
    + repeat (first [rewrite Hl | rewrite lookup_insert_eq]; run1).
      eexists. split; [reflexivity|]. run1. by rewrite Hheld, Hrel.
  - rewrite lookup_insert_eq. run1.
    rewrite Hheld, decide_False by apply Hfree. run1.
    rewrite Hm. run1.
    destruct (PPO_load w path (_device p)) as [e|m]; run1.
    + eexists. split; [reflexivity|]. run1. by rewrite Hheld, Hrel.
    + repeat (rewrite lookup_insert_eq; run1).
      eexists. split; [reflexivity|]. run1. by rewrite Hheld, Hrel.
Qed.

(** C8.  When the load of a location that is not cached fails, the call
    raises the error of the load (for missing storage, the [ValueError]
    of [PPO.load]), the map of loaded models is unchanged and the
    location is still absent; and a later call for the same location, in
    whatever state storage then is, calls [PPO.load] again and caches the
    model if that load succeeds. *)
Theorem failed_load_is_not_cached w p path e :
  idle p ->
  _models p !! path = None ->
  PPO_load w path (_device p) = inl e ->
  exists p',
    _load_model w p path = Some (p', inl e)
    /\ _models p' = _models p
    /\ _models p' !! path = None
    /\ load_calls p' = (load_calls p ++ [path])%list
    /\ (os_path_exists w path = false ->
        e = Raise ValueError (path +:+ " not found"))
    /\ forall w', exists p'',
        load_calls p'' = (load_calls p ++ [path; path])%list
        /\ match PPO_load w' path (_device p) with
           | inr m =>
               _load_model w' p' path
               = Some (p'', inr (Handle (S (length (load_calls p))) m))
               /\ _models p'' !! path
                  = Some (Handle (S (length (load_calls p))) m)
           | inl e' =>
               _load_model w' p' path = Some (p'', inl e')
               /\ _models p'' !! path = None
           end.
Proof.
  intros Hidle Hm Hload.
  destruct (load_model_uncached w p path Hidle Hm)
    as (p' & Hrun & Hmodels & Hlog & Hidle' & Hdev & _).
  rewrite Hload in Hrun, Hmodels.
  exists p'. repeat split; try done.
  - by rewrite Hmodels.
  - intros Hmissing. unfold PPO_load in Hload. rewrite Hmissing in Hload.
    cbn in Hload. by inversion Hload.
  - intros w'.
    assert (Hm' : _models p' !! path = None) by by rewrite Hmodels.
    destruct (load_model_uncached w' p' path Hidle' Hm')
      as (p'' & Hrun' & Hmodels' & Hlog' & _).
    rewrite Hdev, Hlog in Hrun', Hmodels'. rewrite Hlog in Hlog'.
    rewrite length_app, Nat.add_1_r in Hrun', Hmodels'.
    exists p''. split; [by rewrite Hlog', <- app_assoc|].
    destruct (PPO_load w' path (_device p)) as [e'|m].
    + split; [done|]. by rewrite Hmodels'.
    + split; [done|]. by rewrite Hmodels', lookup_insert_eq.
Qed.

Lemma failed_load_is_not_cached_witness :
  exists p',
    _load_model toy_world (fresh_processor 1 "cpu") "models/broken.zip"
    = Some (p', inl (Raise ValueError "models/broken.zip not found"))
    /\ _models p' !! "models/broken.zip" = None
    /\ load_calls p' = ["models/broken.zip"].
Proof.
  destruct (failed_load_is_not_cached toy_world (fresh_processor 1 "cpu")
              "models/broken.zip"
              (Raise ValueError "models/broken.zip not found"))
    as (p' & Hrun & _ & Hm & Hlog & _); [by split|reflexivity|reflexivity|].
  exists p'. by repeat split.
Defined.

(** ** The request pipeline and the connection handler *)

Lemma dict_keys_set {V} k (v : V) (d : pydict V) :
  dict_keys (dict_set k v d)
  = if in_list k (dict_keys d) then dict_keys d else (dict_keys d ++ [k])%list.
Proof.
  induction d as [|[k' v'] d IH]; [done|].
  cbn. destruct (String.eqb k k') eqn:Hk; cbn.
  - apply String.eqb_eq in Hk. by subst.
  - unfold dict_keys in *. rewrite IH. unfold in_list.
    by destruct (existsb (String.eqb k) (map fst d)).
Qed.

Lemma dict_keys_comprehension {X V} (key : X -> string) (val : X -> V) xs :
  dict_keys (dict_comprehension key val xs) = first_occurrences (map key xs).
Proof.
  unfold dict_comprehension, first_occurrences.
  assert (Hgen : forall (d : pydict V),
    dict_keys (fold_left (fun d x => dict_set (key x) (val x) d) xs d)
    = fold_left (fun acc k => if in_list k acc then acc else (acc ++ [k])%list)
                (map key xs) (dict_keys d)).
  { induction xs as [|x xs IH]; intros d; [done|].
    cbn [fold_left map]. by rewrite IH, dict_keys_set. }
  apply Hgen.
Qed.

Lemma process_request_unknown w self request name :
  model request = JStr name ->
  dict_contains name (models self) = false ->
  _process_request w self request
  = Some (self, inl (Raise ValueError
                       ("Unknown model: " +:+ name +:+ ". Available: "
                        +:+ repr_str_list (dict_keys (models self))))).
Proof.
  intros Hname Hnot. unfold _process_request, dict_contains_val.
  rewrite Hname. cbn. by rewrite Hnot.
Qed.

Lemma handle_client_error w self parsed drains rest self' e :
  try_body w self parsed = Some (self', inl e) ->
  nth 0 drains None = None ->
  _handle_client w self (ReadLine parsed drains :: rest)
  = let '(out, end_, s) := _handle_client w self' rest in
    (error_line e :: out, end_, s).
Proof. intros Htry Hdrain. cbn [_handle_client]. by rewrite Htry, Hdrain. Qed.

(** C2, as amended.  A request that names a model absent from the catalog
    fails with the message [Unknown model: <name>. Available: <names>],
    where <names> is Python's printing of the list of catalog names in
    insertion order, each name in quotes; the handler writes it as the
    one field of an error object.  For a catalog with only
    [bronze_agility] and the name [iron_agility] the line is
    [{"error": "Unknown model: iron_agility. Available: ['bronze_agility']"}]. *)
Theorem unknown_model_error w self request_json request name drains rest :
  InferenceRequest_init w request_json = inr request ->
  model request = JStr name ->
  dict_contains name (models self) = false ->
  let e := Raise ValueError
             ("Unknown model: " +:+ name +:+ ". Available: "
              +:+ repr_str_list (dict_keys (models self))) in
  _process_request w self request = Some (self, inl e)
  /\ (nth 0 drains None = None ->
      _handle_client w self (ReadLine (inr request_json) drains :: rest)
      = let '(out, end_, s) := _handle_client w self rest in
        (error_line e :: out, end_, s))
  /\ (forall models_path listing,
        models self = scan_models models_path listing ->
        dict_keys (models self)
        = first_occurrences
            (map (fun filename => fst (splitext filename))
                 (filter (fun filename => endswith filename ".zip") listing)))
  /\ (dict_keys (models self) = ["bronze_agility"] ->
      name = "iron_agility" ->
      error_line e = unknown_model_line).
Proof.
  intros Hinit Hname Hnot e.
  assert (Hproc : _process_request w self request = Some (self, inl e))
    by by apply process_request_unknown.
  split; [done|]. split; [|split].
  - intros Hdrain. apply handle_client_error; [|done].
    unfold try_body. by rewrite Hinit, Hproc.
  - intros models_path listing ->. apply dict_keys_comprehension.
  - intros Hkeys ->. subst e. rewrite Hkeys. reflexivity.
Qed.

Lemma unknown_model_error_witness :
  _handle_client toy_world toy_server
    [ReadLine (inr (toy_request "iron_agility" [])) []]
  = ([unknown_model_line], Closed, toy_server).
Proof.
  destruct (unknown_model_error toy_world toy_server
              (toy_request "iron_agility" [])
              (toy_constructed "iron_agility" false false false false)
              "iron_agility" [] [] eq_refl eq_refl eq_refl)
    as (_ & Hline & _ & Hexact).
  rewrite (Hline eq_refl), (Hexact eq_refl eq_refl). reflexivity.
Defined.

(** The line of the spec's scenario has the catalog names unquoted; the
    server writes them quoted. *)
Lemma unknown_model_line_is_not_the_spec_line :
  fst (fst (_handle_client toy_world toy_server
              [ReadLine (inr (toy_request "iron_agility" [])) []]))
  = [unknown_model_line]
  /\ unknown_model_line <> spec_unknown_model_line.
Proof. split; [reflexivity|]. intros Heq. vm_compute in Heq. discriminate. Qed.



(** C9.  A line that parses to an object with a key that is none of the
    nine fields of [InferenceRequest] is refused by the constructor with a
    [TypeError] for an unexpected keyword (whether or not the required
    fields are there), and the handler writes an error line for it. *)
Theorem unknown_field_is_rejected w self kwargs k drains rest :
  k ∈ dict_keys kwargs ->
  in_list k request_fields = false ->
  exists k0,
    k0 ∈ dict_keys kwargs
    /\ in_list k0 request_fields = false
    /\ InferenceRequest_init w (JObj kwargs)
       = inl (fault_exn w (UnexpectedKeyword k0))
    /\ exn_cls (fault_exn w (UnexpectedKeyword k0)) = TypeError
    /\ try_body w self (inr (JObj kwargs))
       = Some (self, inl (fault_exn w (UnexpectedKeyword k0)))
    /\ (nth 0 drains None = None ->
        _handle_client w self (ReadLine (inr (JObj kwargs)) drains :: rest)
        = let '(out, end_, s) := _handle_client w self rest in
          (error_line (fault_exn w (UnexpectedKeyword k0)) :: out, end_, s)).
Proof.
  intros Hin Hk.
  assert (Hk' : k ∈ filter (fun k => negb (in_list k request_fields))
                       (dict_keys kwargs)).
  { apply list_elem_of_filter. split; [|done]. by rewrite Hk. }
  destruct (filter (fun k => negb (in_list k request_fields))
              (dict_keys kwargs)) as [|k0 ks] eqn:Hf.
  { by apply elem_of_nil in Hk'. }
  assert (Hk0 : k0 ∈ filter (fun k => negb (in_list k request_fields))
                        (dict_keys kwargs)) by (rewrite Hf; left).
  apply list_elem_of_filter in Hk0 as [Hk0 Hin0].
  assert (Hinit : InferenceRequest_init w (JObj kwargs)
                  = inl (fault_exn w (UnexpectedKeyword k0))).
  { unfold InferenceRequest_init. by rewrite Hf. }
  assert (Htry : try_body w self (inr (JObj kwargs))
                 = Some (self, inl (fault_exn w (UnexpectedKeyword k0)))).
  { unfold try_body. by rewrite Hinit. }
  exists k0. split; [done|]. split; [by destruct (in_list k0 request_fields)|].
  split; [done|]. split; [done|]. split; [done|].
  intros Hdrain. by apply handle_client_error.
Qed.

Lemma unknown_field_is_rejected_witness :
  exists k0,
    _handle_client toy_world toy_server
      [ReadLine (inr (toy_request "bronze_agility" [("verbose", JBool true)])) []]
    = ([error_line (fault_exn toy_world (UnexpectedKeyword k0))],
       Closed, toy_server).
Proof.
  assert (Hin : "verbose" ∈ dict_keys
                  [("model", JStr "bronze_agility");
                   ("actionMasks",
                    JArr [JArr [JBool true; JBool true; JBool false];
                          JArr [JBool true; JBool true]]);
                   ("obs", JArr [JArr [JInt 1; JFloat "0.5"]]);
                   ("verbose", JBool true)]).
  { unfold dict_keys. cbn. do 3 right. left. }
  destruct (unknown_field_is_rejected toy_world toy_server _ "verbose" [] []
              Hin eq_refl)
    as (k0 & _ & _ & Hinit & _ & _ & Hline).
  exists k0. exact (Hline eq_refl).
Defined.

(** ** Startup without a models directory *)

(** C10.  When the models directory does not exist, the constructor
    returns a server with an empty catalog; [start] then issues no preload
    (the processor it creates has loaded nothing) and, the processor and
    the listener being available, leaves the server listening; and every
    request naming a model then fails on its own with
    [Unknown model: <name>. Available: []], written as an error line
    after which the handler reads on. *)
Theorem missing_directory_is_not_fatal w settings_models_dir host port
    models_dir pool_size processor_type device :
  Path_exists w
    (Path_str w (match models_dir with
                 | Some d => if String.eqb d "" then settings_models_dir else d
                 | None => settings_models_dir
                 end)) = false ->
  (0 < pool_size)%Z ->
  processor_type = THREAD_REMOTE_PROCESSOR ->
  bind_fails w host port = None ->
  exists self running,
    TCPInferenceServer_init w settings_models_dir host port models_dir
      pool_size processor_type device = inr self
    /\ models self = []
    /\ start w self = Some (running, ret tt)
    /\ server running = true
    /\ models running = []
    /\ remote_processor running = Some (fresh_processor pool_size device)
    /\ forall request name,
         model request = JStr name ->
         let e := Raise ValueError
                    ("Unknown model: " +:+ name +:+ ". Available: []") in
         _process_request w running request = Some (running, inl e)
         /\ forall request_json drains rest,
              InferenceRequest_init w request_json = inr request ->
              nth 0 drains None = None ->
              _handle_client w running
                (ReadLine (inr request_json) drains :: rest)
              = let '(out, end_, s) := _handle_client w running rest in
                (error_line e :: out, end_, s).
Proof.
  intros Hmissing Hpool -> Hbind.
  eexists _, _. split.
  { unfold TCPInferenceServer_init. rewrite Hmissing. reflexivity. }
  split; [reflexivity|]. split.
  { unfold start, create_remote_processor, ThreadedProcessor_init. cbn.
    rewrite (proj2 (Z.leb_gt _ _) Hpool). cbn. rewrite Hbind. reflexivity. }
  split; [reflexivity|]. split; [reflexivity|]. split; [reflexivity|].
  intros request name Hname e.
  assert (Hproc : forall self, models self = [] ->
            _process_request w self request = Some (self, inl e)).
  { intros self Hm.
    rewrite (process_request_unknown w self request name Hname)
      by by rewrite Hm.
    by rewrite Hm. }
  split; [by apply Hproc|].
  intros request_json drains rest Hinit Hdrain.
  apply handle_client_error; [|done].
  unfold try_body. rewrite Hinit, Hproc; done.
Qed.

Lemma missing_directory_is_not_fatal_witness :
  exists self running,
    TCPInferenceServer_init toy_world "../pvp-ml/models" "127.0.0.1" 9999 None
      1 "thread" "cpu" = inr self
    /\ start toy_world self = Some (running, ret tt)
    /\ fst (fst (_handle_client toy_world running
                   [ReadLine (inr (toy_request "bronze_agility" [])) []]))
       = [error_line (Raise ValueError
                        "Unknown model: bronze_agility. Available: []")].
Proof.
  destruct (missing_directory_is_not_fatal toy_world "../pvp-ml/models"
              "127.0.0.1" 9999 None 1 "thread" "cpu"
              eq_refl eq_refl eq_refl eq_refl)
    as (self & running & Hinit & _ & Hstart & _ & _ & _ & Hreq).
  exists self, running. split; [exact Hinit|]. split; [exact Hstart|].
  destruct (Hreq (toy_constructed "bronze_agility" false false false false)
                 "bronze_agility" eq_refl) as [_ Hline].
  by rewrite (Hline (toy_request "bronze_agility" []) [] [] eq_refl eq_refl).
Defined.

(** ** Optional outputs *)

Ltac case_res H :=
  match type of H with
  | bind ?m _ = _ =>
      let e := fresh "e" in
      destruct m as [e|?] eqn:?; cbn [bind] in H; [discriminate H|]
  end.

Lemma row0_opt_is_Some {A} w (t : option (list A)) o :
  row0_opt w t = inr o -> (is_Some o <-> is_Some t).
Proof.
  destruct t as [rows|]; cbn.
  - destruct (row0 w rows); cbn; [discriminate|].
    intros [= <-]. split; eauto.
  - intros [= <-]. done.
Qed.

Lemma PPO_predict_outputs w m obs masks det ra rl re rv rp exts r :
  PPO_predict w m obs masks det ra rl re rv rp exts = inr r ->
  (is_Some (p_actions r) <-> truthy ra = true)
  /\ (is_Some (p_log_probs r) <-> truthy rl = true)
  /\ (is_Some (p_entropy r) <-> truthy re = true)
  /\ (is_Some (p_values r) <-> truthy rv = true)
  /\ (is_Some (p_probs r) <-> truthy rp = true)
  /\ (exts = JArr [] -> p_extension_results r = []).
Proof.
  unfold PPO_predict, eval_policy. intros H.
  case_res H.
  destruct p as [[[[actions log_probs] entropy] values] probs].
  case_res H. case_res H. cbn in H. injection H as <-. cbn.
  match goal with
  | Hp : bind (network _ _ _ _) _ = inr _ |- _ => rename Hp into Hpol
  end.
  case_res Hpol. cbn in Hpol. injection Hpol as <- <- <- <- <-.
  assert (Hsome : forall (A : Type) (b : bool) (x : A),
            is_Some (if b then Some x else None) <-> b = true).
  { intros A [] x; split; intros Hx;
      first [done | by eauto | by destruct Hx]. }
  repeat split; try apply Hsome; try (apply Hsome; done).
  intros ->.
  match goal with
  | Hi : py_iter _ _ = inr _, Hm : mapM _ _ = inr _ |- _ =>
      cbn in Hi; injection Hi as <-; cbn in Hm; by injection Hm as <-
  end.
Qed.

Lemma worker_task_outputs w rp path obs masks det ra rl re rv rpb exts rp' r :
  _worker_task w rp path (Some obs) (Some masks) det ra rl re rv rpb exts
  = Some (rp', inr r) ->
  exists m, PPO_predict w m obs masks det ra rl re rv rpb exts = inr r.
Proof.
  unfold _worker_task. intros H.
  destruct (_load_model w rp path) as [[rp1 [e|h]]|]; [by inversion H| |done].
  injection H as _ H. eauto.
Qed.

(** C7.  For a request whose four flags are booleans and for which a
    response is produced, each of [logProb], [entropy], [values] and
    [probs] is present exactly when its flag is set, so all four are
    absent when all four flags are false; and [extensionResults] is empty
    when the request's [extensions] is empty. *)
Theorem optional_outputs_follow_flags w self request self' r
    (log_prob_flag entropy_flag value_flag probs_flag : bool) :
  returnLogProb request = JBool log_prob_flag ->
  returnEntropy request = JBool entropy_flag ->
  returnValue request = JBool value_flag ->
  returnProbs request = JBool probs_flag ->
  _process_request w self request = Some (self', inr r) ->
  (is_Some (logProb r) <-> log_prob_flag = true)
  /\ (is_Some (entropy r) <-> entropy_flag = true)
  /\ (is_Some (values r) <-> value_flag = true)
  /\ (is_Some (probs r) <-> probs_flag = true)
  /\ (log_prob_flag = false -> entropy_flag = false ->
      value_flag = false -> probs_flag = false ->
      logProb r = None /\ entropy r = None /\ values r = None
      /\ probs r = None)
  /\ (extensions request = JArr [] -> extensionResults r = []).
Proof.
  intros Hl He Hv Hp H. unfold _process_request in H.
  rewrite Hl, He, Hv, Hp in H.
  match type of H with
  | match ?b with _ => _ end = _ =>
      destruct b as [e|[[[[rp obs_t] masks_t] det] path]] eqn:Hbefore;
        [by inversion H|]
  end.
  unfold ThreadedProcessor_predict in H.
  match type of H with
  | match ?b with _ => _ end = _ =>
      destruct b as [[rp' result]|] eqn:Hpred; [|done]
  end.
  injection H as _ H. case_res H. rename p into pr.
  apply worker_task_outputs in Hpred as [m Hpred].
  apply PPO_predict_outputs in Hpred
    as (_ & Hlp & Hen & Hva & Hpr & Hext). cbn [truthy] in *.
  case_res H. case_res H. rename o into probs_r.
  case_res H. case_res H. case_res H. case_res H.
  cbn in H. injection H as <-. cbn.
  match goal with
  | H1 : row0_opt w (p_log_probs pr) = inr _,
    H2 : row0_opt w (p_entropy pr) = inr _,
    H3 : row0_opt w (p_values pr) = inr _ |- _ =>
      apply row0_opt_is_Some in H1, H2, H3;
      rewrite Hlp in H1; rewrite Hen in H2; rewrite Hva in H3;
      rename H1 into Hlp', H2 into Hen', H3 into Hva'
  end.
  assert (Hpr' : is_Some probs_r <-> probs_flag = true).
  { match goal with
    | Hx : _ = inr probs_r |- _ => rename Hx into Hprobs
    end.
    destruct probs_flag.
    - destruct (p_probs pr) as [flat|].
      + case_res Hprobs. case_res Hprobs.
        match type of Hprobs with
        | match ?sizes with _ => _ end = _ => destruct sizes
        end.
        * cbn in Hprobs. injection Hprobs as <-. by eauto.
        * case_res Hprobs. cbn in Hprobs. injection Hprobs as <-. by eauto.
      + exfalso. destruct Hpr as [_ Hpr]. by destruct (Hpr eq_refl).
    - cbn in Hprobs. injection Hprobs as <-. split; [by intros [? ?]|done]. }
  assert (Hnone : forall (A : Type) (o : option A) (b : bool),
            (is_Some o <-> b = true) -> b = false -> o = None).
  { intros A [x|] b Hiff ->; [|done].
    destruct Hiff as [Hiff _]. by specialize (Hiff (ex_intro _ x eq_refl)). }
  repeat split; try tauto; try (intros; eapply Hnone; eassumption).
  all: try (by apply Hlp'); try (by apply Hen'); try (by apply Hva');
       try (by apply Hpr').
Qed.

Lemma optional_outputs_follow_flags_witness :
  exists self' r,
    _process_request toy_world toy_server
      (toy_constructed "bronze_agility" false true false true)
    = Some (self', inr r)
    /\ logProb r = None /\ values r = None
    /\ entropy r = Some ["0.6"; "0.7"]
    /\ probs r = Some [["0.2"; "0.8"; "0.0"]; ["0.5"; "0.5"]]
    /\ extensionResults r = [].
Proof.
  assert (Hrun : exists self' r,
            _process_request toy_world toy_server
              (toy_constructed "bronze_agility" false true false true)
            = Some (self', inr r)
            /\ entropy r = Some ["0.6"; "0.7"]
            /\ probs r = Some [["0.2"; "0.8"; "0.0"]; ["0.5"; "0.5"]]).
  { eexists _, _. split; [vm_compute; reflexivity|]. by split. }
  destruct Hrun as (self' & r & Hrun & Hen & Hpr).
  destruct (optional_outputs_follow_flags toy_world toy_server
              (toy_constructed "bronze_agility" false true false true)
              self' r false true false true
              eq_refl eq_refl eq_refl eq_refl Hrun)
    as (Hlp' & _ & Hva' & _ & _ & Hext).
  exists self', r. split; [exact Hrun|].
  split; [destruct (logProb r); [by destruct Hlp' as [Hlp' _];
            specialize (Hlp' (ex_intro _ _ eq_refl))|done]|].
  split; [destruct (values r); [by destruct Hva' as [Hva' _];
            specialize (Hva' (ex_intro _ _ eq_refl))|done]|].
  split; [exact Hen|]. split; [exact Hpr|]. by apply Hext.
Defined.

(** ** The catalog *)

Lemma str_chars s : str (chars s) = s.
Proof. apply string_of_list_ascii_of_string. Qed.

Lemma chars_app s t : chars (s +:+ t) = (chars s ++ chars t)%list.
Proof.
  induction s as [|c s IH]; [done|].
  change (chars (String c s +:+ t)) with (c :: chars (s +:+ t)).
  by rewrite IH.
Qed.

Lemma str_app l m : str (l ++ m)%list = str l +:+ str m.
Proof.
  induction l as [|c l IH]; [done|].
  change (str ((c :: l) ++ m)%list) with (String c (str (l ++ m)%list)).
  by rewrite IH.
Qed.

Lemma length_chars s : length (chars s) = String.length s.
Proof.
  induction s as [|c s IH]; [done|].
  change (S (length (chars s)) = S (String.length s)). by rewrite IH.
Qed.

Lemma rfind_from_app c (p q : list ascii) i last :
  rfind_from c (p ++ q) i last
  = rfind_from c q (i + Z.of_nat (length p)) (rfind_from c p i last).
Proof.
  revert i last. induction p as [|x p IH]; intros i last; cbn [app rfind_from length].
  - by rewrite Z.add_0_r.
  - rewrite IH. f_equal. lia.
Qed.

Lemma rfind_from_absent c (q : list ascii) i last :
  existsb (Ascii.eqb c) q = false -> rfind_from c q i last = last.
Proof.
  revert i. induction q as [|x q IH]; intros i Hq; [done|].
  cbn in *. apply orb_false_iff in Hq as [Hx Hq].
  rewrite Ascii.eqb_sym, Hx. by apply IH.
Qed.

Lemma stem_has_char_spec fuel (pre s post : list ascii) :
  length s <= fuel ->
  stem_has_char fuel (pre ++ s ++ post) (Z.of_nat (length pre))
    (Z.of_nat (length pre + length s))
  = existsb (fun c => negb (Ascii.eqb c ".")) s.
Proof.
  revert fuel pre. induction s as [|c s IH]; intros fuel pre Hfuel.
  - destruct fuel; [done|]. cbn [stem_has_char length existsb].
    by rewrite Nat.add_0_r, Z.ltb_irrefl.
  - destruct fuel as [|fuel]; [cbn in Hfuel; lia|].
    cbn [stem_has_char length existsb].
    rewrite (proj2 (Z.ltb_lt _ _)) by lia.
    rewrite Nat2Z.id, lookup_app_r, Nat.sub_diag by lia. cbn [lookup app].
    cbn. destruct (negb (Ascii.eqb c ".")); [done|]. cbn.
    specialize (IH fuel (pre ++ [c])%list).
    rewrite length_app, <- app_assoc in IH. cbn [length app] in IH.
    replace (Z.of_nat (length pre) + 1)%Z with (Z.of_nat (length pre + 1))
      by lia.
    replace (length pre + S (length s)) with (length pre + 1 + length s)
      by lia.
    apply IH. cbn in Hfuel. lia.
Qed.

Lemma existsb_negb {A} (f : A -> bool) (l : list A) :
  existsb (fun c => negb (f c)) l = negb (forallb f l).
Proof.
  induction l as [|c l IH]; [done|]. cbn. rewrite IH.
  by destruct (f c), (forallb f l).
Qed.

Lemma splitext_zip stem :
  contains_char "/" stem = false ->
  splitext (stem +:+ ".zip")
  = if only_dots stem then (stem +:+ ".zip", "") else (stem, ".zip").
Proof.
  unfold contains_char, only_dots, splitext. intros Hsep.
  rewrite chars_app. change (chars ".zip") with ["."; "z"; "i"; "p"]%char.
  unfold rfind. rewrite !rfind_from_app.
  rewrite (rfind_from_absent "/" (chars stem)) by done.
  cbn [rfind_from Ascii.eqb Bool.eqb length]. cbn [Z.add Z.of_nat].
  change (0 + Z.of_nat (length (chars stem)))%Z
    with (Z.of_nat (length (chars stem))).
  rewrite (proj2 (Z.ltb_lt (-1) _)) by lia. cbn [andb].
  pose proof (stem_has_char_spec
                (length (chars stem ++ ["."; "z"; "i"; "p"]%char))
                [] (chars stem) ["."; "z"; "i"; "p"]%char) as Hstem.
  cbn [app length Nat.add] in Hstem. change (Z.of_nat 0) with 0%Z in Hstem.
  change (-1 + 1)%Z with 0%Z.
  rewrite Hstem by (rewrite length_app; lia).
  rewrite existsb_negb.
  destruct (forallb (fun c => Ascii.eqb c ".") (chars stem)); [done|].
  cbn [negb]. rewrite Nat2Z.id, take_app_length, drop_app_length.
  by rewrite str_chars.
Qed.

Lemma endswith_zip filename :
  endswith filename ".zip" = true <-> exists stem, filename = stem +:+ ".zip".
Proof.
  unfold endswith. change (chars ".zip") with ["."; "z"; "i"; "p"]%char.
  cbn [length]. split.
  - intros H. apply andb_true_iff in H as [Hlen Hdrop].
    apply bool_decide_eq_true in Hdrop.
    exists (str (take (length (chars filename) - 4) (chars filename))).
    rewrite <- (str_chars filename) at 1.
    rewrite <- (take_drop (length (chars filename) - 4) (chars filename)) at 1.
    by rewrite Hdrop, str_app.
  - intros [stem ->]. rewrite chars_app.
    change (chars ".zip") with ["."; "z"; "i"; "p"]%char.
    rewrite length_app. cbn [length].
    apply andb_true_iff. split; [apply Nat.leb_le; lia|].
    apply bool_decide_eq_true.
    replace (length (chars stem) + 4 - 4) with (length (chars stem)) by lia.
    by rewrite drop_app_length.
Qed.

Lemma spec_catalog_name_zip stem : spec_catalog_name (stem +:+ ".zip") = stem.
Proof.
  unfold spec_catalog_name. rewrite <- length_chars, chars_app.
  change (chars ".zip") with ["."; "z"; "i"; "p"]%char.
  rewrite length_app. cbn [length].
  replace (length (chars stem) + 4 - 4) with (length (chars stem)) by lia.
  by rewrite take_app_length, str_chars.
Qed.

Lemma contains_char_zip c stem :
  contains_char c (stem +:+ ".zip") = false -> contains_char c stem = false.
Proof.
  unfold contains_char. rewrite chars_app, existsb_app.
  intros H. by apply orb_false_iff in H as [H _].
Qed.

Lemma dict_get_set {V} k k' (v : V) (d : pydict V) :
  dict_get k (dict_set k' v d)
  = if String.eqb k k' then Some v else dict_get k d.
Proof.
  induction d as [|[k0 v0] d IH]; [done|].
  cbn. destruct (String.eqb k' k0) eqn:Hk0; cbn.
  - apply String.eqb_eq in Hk0 as <-. by destruct (String.eqb k k').
  - rewrite IH. destruct (String.eqb k k') eqn:Hk; [|done].
    apply String.eqb_eq in Hk as ->. by rewrite Hk0.
Qed.

Lemma dict_comprehension_snoc {X V} (key : X -> string) (val : X -> V) xs x :
  dict_comprehension key val (xs ++ [x])
  = dict_set (key x) (val x) (dict_comprehension key val xs).
Proof. unfold dict_comprehension. by rewrite fold_left_app. Qed.

Lemma dict_comprehension_origin {X V} (key : X -> string) (val : X -> V) xs
    k v :
  dict_get k (dict_comprehension key val xs) = Some v ->
  exists x, x ∈ xs /\ key x = k /\ val x = v.
Proof.
  induction xs as [|x xs IH] using rev_ind; [done|].
  rewrite dict_comprehension_snoc, dict_get_set.
  destruct (String.eqb k (key x)) eqn:Hk.
  - apply String.eqb_eq in Hk. intros [= <-]. exists x. set_solver.
  - intros Hget. destruct (IH Hget) as (y & Hy & Hky & Hvy).
    exists y. set_solver.
Qed.

Lemma dict_comprehension_lookup {X V} (key : X -> string) (val : X -> V) xs
    k v :
  (forall x y, x ∈ xs -> y ∈ xs -> key x = key y -> x = y) ->
  dict_get k (dict_comprehension key val xs) = Some v
  <-> exists x, x ∈ xs /\ key x = k /\ val x = v.
Proof.
  intros Hinj. split; [apply dict_comprehension_origin|].
  induction xs as [|x xs IH] using rev_ind.
  { intros (y & Hy & _). by apply elem_of_nil in Hy. }
  intros (y & Hy & Hky & Hvy).
  rewrite dict_comprehension_snoc, dict_get_set.
  destruct (String.eqb k (key x)) eqn:Hk.
  - apply String.eqb_eq in Hk. subst k.
    rewrite (Hinj y x) in Hvy; [by rewrite Hvy|done|set_solver|done].
  - apply String.eqb_neq in Hk. apply IH.
    + intros a b Ha Hb. apply Hinj; set_solver.
    + exists y. apply elem_of_app in Hy as [Hy|Hy]; [done|].
      apply list_elem_of_singleton in Hy. by subst.
Qed.

Lemma snoc_eq_middle {A} (l : list A) x before y after :
  (l ++ [x] = before ++ y :: after)%list ->
  (after = [] /\ l = before /\ y = x)
  \/ exists after', after = (after' ++ [x])%list
                    /\ l = (before ++ y :: after')%list.
Proof.
  intros Heq. destruct after as [|z after _] using rev_ind.
  - left. by apply app_inj_tail in Heq as [-> ->].
  - right. exists after.
    change (before ++ y :: after ++ [z])%list
      with (before ++ (y :: after) ++ [z])%list in Heq.
    rewrite app_assoc in Heq. by apply app_inj_tail in Heq as [-> ->].
Qed.

(** A dict comprehension with a filter: the entry of a key is the value of
    the last element that passes the filter and has that key. *)
Lemma dict_comprehension_filter_last {X V} (key : X -> string) (val : X -> V)
    (keep : X -> bool) xs k v :
  dict_get k (dict_comprehension key val (filter keep xs)) = Some v
  <-> exists before x after,
        xs = (before ++ x :: after)%list
        /\ keep x = true /\ key x = k /\ val x = v
        /\ forall y, y ∈ after -> keep y = true -> key y <> k.
Proof.
  revert v. induction xs as [|x xs IH] using rev_ind; intros v.
  { split; [done|]. intros (before & y & after & Heq & _).
    by destruct before. }
  rewrite filter_app. destruct (decide (keep x)) as [Hx|Hx].
  - rewrite filter_cons_True, filter_nil by done.
    rewrite dict_comprehension_snoc, dict_get_set.
    destruct (String.eqb k (key x)) eqn:Hk.
    + apply String.eqb_eq in Hk. split.
      * intros [= <-]. exists xs, x, []. split_and!; try done.
        -- by destruct (keep x).
        -- intros y Hy. by apply elem_of_nil in Hy.
      * intros (before & y & after & Heq & Hy & Hky & Hvy & Hlast).
        apply snoc_eq_middle in Heq as [(-> & -> & ->)|(after' & -> & ->)];
          [by rewrite Hvy|].
        exfalso. apply (Hlast x); [set_solver| |done].
        by destruct (keep x).
    + apply String.eqb_neq in Hk. rewrite IH. split.
      * intros (before & y & after & -> & Hy & Hky & Hvy & Hlast).
        exists before, y, (after ++ [x])%list. split_and!; try done.
        -- by rewrite <- app_assoc.
        -- intros z Hz Hkeep. apply elem_of_app in Hz as [Hz|Hz];
             [by apply Hlast|].
           apply list_elem_of_singleton in Hz as ->. congruence.
      * intros (before & y & after & Heq & Hy & Hky & Hvy & Hlast).
        apply snoc_eq_middle in Heq as [(-> & -> & ->)|(after' & -> & ->)];
          [congruence|].
        exists before, y, after'. split_and!; try done.
        intros z Hz. apply Hlast. set_solver.
  - rewrite filter_cons_False, filter_nil, app_nil_r by done.
    rewrite IH. split.
    + intros (before & y & after & -> & Hy & Hky & Hvy & Hlast).
      exists before, y, (after ++ [x])%list. split_and!; try done.
      * by rewrite <- app_assoc.
      * intros z Hz Hkeep. apply elem_of_app in Hz as [Hz|Hz];
          [by apply Hlast|].
        apply list_elem_of_singleton in Hz as ->.
        exfalso. apply Hx. by rewrite Hkeep.
    + intros (before & y & after & Heq & Hy & Hky & Hvy & Hlast).
      apply snoc_eq_middle in Heq as [(-> & -> & ->)|(after' & -> & ->)].
      * exfalso. apply Hx. by rewrite Hy.
      * exists before, y, after'. split_and!; try done.
        intros z Hz. apply Hlast. set_solver.
Qed.

Lemma last_such {X} (P : X -> Prop) `{forall x, Decision (P x)} (xs : list X) x :
  x ∈ xs -> P x ->
  exists before y after,
    xs = (before ++ y :: after)%list /\ P y /\ forall z, z ∈ after -> ~ P z.
Proof.
  induction xs as [|z xs IH] using rev_ind; intros Hx HP.
  { by apply elem_of_nil in Hx. }
  destruct (decide (P z)) as [Hz|Hz].
  - exists xs, z, []. split_and!; try done.
    intros y Hy. by apply elem_of_nil in Hy.
  - apply elem_of_app in Hx as [Hx|Hx].
    + destruct (IH Hx HP) as (before & y & after & -> & Hy & Hlast).
      exists before, y, (after ++ [z])%list. split_and!; try done.
      * by rewrite <- app_assoc.
      * intros u Hu. apply elem_of_app in Hu as [Hu|Hu]; [by apply Hlast|].
        by apply list_elem_of_singleton in Hu as ->.
    + apply list_elem_of_singleton in Hx as ->. done.
Qed.

(** C6, as amended.  For a directory listing (names without a
    separator): every catalog entry comes from a listed file whose name
    ends with [.zip], is named [os.path.splitext(name)[0]] and holds the
    file's full path, so files without the extension contribute no entry.
    That name is the file name without [.zip] when the name has a
    character other than the dot before the extension, and the whole file
    name when it has not (as for the file [.zip]).  The catalog is exactly
    this: there is an entry under a name exactly when a listed file with
    the extension has that catalog name, and it holds the full path of the
    last such file of the listing; so when no two listed files with the
    extension have the same catalog name, the catalog has exactly one
    entry for each of them, under its catalog name, with its full path.
    When no listed name has only dots before the extension, the catalog is
    exactly as the spec describes it: the files with the extension, each
    under its name without the extension, mapped to its full path. *)
Theorem catalog_of_directory models_path listing :
  Forall (fun filename => contains_char "/" filename = false) listing ->
  (forall name path,
     dict_get name (scan_models models_path listing) = Some path ->
     exists filename,
       filename ∈ listing /\ endswith filename ".zip" = true
       /\ name = fst (splitext filename)
       /\ path = path_join models_path filename)
  /\ (forall stem,
        stem +:+ ".zip" ∈ listing ->
        fst (splitext (stem +:+ ".zip"))
        = if only_dots stem then stem +:+ ".zip" else stem)
  /\ (forall filename,
        filename ∈ listing -> endswith filename ".zip" = true ->
        fst (splitext filename) = amended_catalog_name filename)
  /\ catalog_as_amended models_path listing (scan_models models_path listing)
  /\ ((forall f g,
         f ∈ listing -> g ∈ listing ->
         endswith f ".zip" = true -> endswith g ".zip" = true ->
         amended_catalog_name f = amended_catalog_name g -> f = g) ->
      forall name path,
        dict_get name (scan_models models_path listing) = Some path
        <-> exists filename,
              filename ∈ listing /\ endswith filename ".zip" = true
              /\ name = amended_catalog_name filename
              /\ path = path_join models_path filename)
  /\ (Forall (fun filename =>
                endswith filename ".zip" = true ->
                only_dots (spec_catalog_name filename) = false) listing ->
      catalog_as_specified models_path listing
        (scan_models models_path listing)).
Proof.
  intros Hsep.
  assert (Hstem : forall stem, stem +:+ ".zip" ∈ listing ->
            fst (splitext (stem +:+ ".zip"))
            = if only_dots stem then stem +:+ ".zip" else stem).
  { intros stem Hin. rewrite splitext_zip.
    - by destruct (only_dots stem).
    - rewrite Forall_forall in Hsep. eapply contains_char_zip, Hsep, Hin. }
  assert (Hname : forall f, f ∈ listing -> endswith f ".zip" = true ->
            fst (splitext f) = amended_catalog_name f).
  { intros f Hf Hzip. unfold amended_catalog_name.
    apply endswith_zip in Hzip as [stem ->].
    by rewrite spec_catalog_name_zip, Hstem. }
  assert (Hexact : catalog_as_amended models_path listing
                     (scan_models models_path listing)).
  { intros name path. unfold scan_models.
    rewrite (dict_comprehension_filter_last
               (fun filename => fst (splitext filename))
               (fun filename => path_join models_path filename)
               (fun filename => endswith filename ".zip")).
    split.
    - intros (before & f & after & -> & Hzip & <- & <- & Hlast).
      exists before, f, after. split_and!; try done.
      + apply Hname; [set_solver|done].
      + intros other Hother Hzip'. rewrite <- !Hname by (set_solver || done).
        by apply Hlast.
    - intros (before & f & after & -> & Hzip & -> & -> & Hlast).
      exists before, f, after. split_and!; try done.
      + apply Hname; [set_solver|done].
      + intros other Hother Hzip'.
        rewrite (Hname other) by (set_solver || done).
        by apply Hlast. }
  split; [|split; [done|split; [done|split; [done|split]]]].
  - intros name path Hget. unfold scan_models in Hget.
    apply dict_comprehension_origin in Hget as (f & Hf & <- & <-).
    apply list_elem_of_filter in Hf as [Hzip Hf]. exists f.
    repeat split; try done. by destruct (endswith f ".zip").
  - intros Hinj name path. rewrite (Hexact name path). split.
    + intros (before & f & after & -> & Hzip & -> & -> & _).
      exists f. split_and!; try done. set_solver.
    + intros (f & Hf & Hzip & -> & ->).
      destruct (last_such
                  (fun g => endswith g ".zip" = true
                            /\ amended_catalog_name g
                               = amended_catalog_name f)
                  listing f Hf (conj Hzip eq_refl))
        as (before & g & after & Hlisting & [Hgzip Hgname] & Hlast).
      assert (g = f) as ->.
      { apply Hinj; try done. rewrite Hlisting. set_solver. }
      exists before, f, after. split_and!; try done.
      intros other Hother Hzip' Heq. by apply (Hlast other Hother).
  - intros Hplain name path. unfold scan_models.
    rewrite Forall_forall in Hplain.
    assert (Hkey : forall f, f ∈ listing -> endswith f ".zip" = true ->
              fst (splitext f) = spec_catalog_name f).
    { intros f Hf Hzip. specialize (Hplain f Hf Hzip).
      apply endswith_zip in Hzip as [stem ->].
      rewrite spec_catalog_name_zip in *. by rewrite Hstem, Hplain. }
    rewrite dict_comprehension_lookup.
    + split.
      * intros (f & Hf & <- & <-). apply list_elem_of_filter in Hf as [Hzip Hf].
        assert (Hzip' : endswith f ".zip" = true)
          by by destruct (endswith f ".zip").
        exists f. repeat split; try done. by apply Hkey.
      * intros (f & Hf & Hzip & -> & ->). exists f. split.
        { apply list_elem_of_filter. split; [by rewrite Hzip|done]. }
        split; [by apply Hkey|done].
    + intros f g Hf Hg Heq.
      apply list_elem_of_filter in Hf as [Hfz Hf], Hg as [Hgz Hg].
      assert (Hfz' : endswith f ".zip" = true)
        by by destruct (endswith f ".zip").
      assert (Hgz' : endswith g ".zip" = true)
        by by destruct (endswith g ".zip").
      rewrite !Hkey in Heq by done.
      apply endswith_zip in Hfz' as [s ->], Hgz' as [t ->].
      rewrite !spec_catalog_name_zip in Heq. by subst.
Qed.

Lemma catalog_of_directory_witness :
  let listing := [".zip"; "a.zip"; "notes.txt"] in
  dict_get "a" (scan_models "models" listing) = Some "models/a.zip"
  /\ dict_get ".zip" (scan_models "models" listing) = Some "models/.zip"
  /\ dict_get "notes" (scan_models "models" listing) = None.
Proof.
  intros listing.
  destruct (catalog_of_directory "models" listing)
    as (Horigin & _ & _ & Hexact & _).
  - repeat constructor.
  - split; [|split].
    + apply Hexact. exists [".zip"], "a.zip", ["notes.txt"].
      split_and!; try reflexivity.
      intros other Hother Hzip.
      apply list_elem_of_singleton in Hother as ->. discriminate Hzip.
    + apply Hexact. exists [], ".zip", ["a.zip"; "notes.txt"].
      split_and!; try reflexivity.
      intros other Hother Hzip Heq.
      apply elem_of_cons in Hother as [->|Hother]; [discriminate Heq|].
      apply list_elem_of_singleton in Hother as ->. discriminate Hzip.
    + destruct (dict_get "notes" (scan_models "models" listing)) as [path|]
        eqn:Hget; [|done].
      destruct (Horigin _ _ Hget) as (f & Hf & Hzip & Hname & _).
      repeat (apply elem_of_cons in Hf as [->|Hf]; [by vm_compute in Hname|]).
      by apply elem_of_nil in Hf.
Defined.

(** A file named [.zip] is cataloged under [.zip], not under the empty
    name that taking the extension off would give. *)
Lemma dot_zip_keeps_its_name :
  scan_models "models" [".zip"] = [(".zip", "models/.zip")]
  /\ ~ catalog_as_specified "models" [".zip"] (scan_models "models" [".zip"]).
Proof.
  split; [reflexivity|]. intros Hspec.
  destruct (Hspec "" "models/.zip") as [_ Hback].
  assert (Hget : dict_get "" (scan_models "models" [".zip"])
                 = Some "models/.zip").
  { apply Hback. exists ".zip". repeat split; try reflexivity.
    apply list_elem_of_singleton. reflexivity. }
  discriminate Hget.
Qed.

(** ** The model cache under concurrent callers *)

Section single_flight.
Context (w : world) (cached0 : gmap string handle) (calls0 : list string)
        (paths : list string).

Lemma thread_step_rank self q a self' a' :
  thread_step w self q a = Some (self', a') -> pc_rank a' < pc_rank a.
Proof.
  destruct a; cbn; intros H; repeat case_match; simplify_eq; cbn; lia.
Qed.

Lemma lookup_updated_thread (T : list (string * pc)) i j y z :
  <[i := y]> T !! j = Some z ->
  (j = i /\ z = y) \/ (j <> i /\ T !! j = Some z).
Proof.
  intros H. apply list_lookup_insert_Some in H as [(-> & -> & _)|[? ?]]; eauto.
Qed.

Ltac step_cases Hts :=
  match type of Hts with
  | thread_step _ _ _ ?a = Some _ =>
      destruct a; cbn [thread_step] in Hts; repeat case_match; simplify_eq
  end.

Ltac proc_simpl :=
  cbn [set_lock_lock set_model_locks set_models set_held_locks bump_next_lock
       log_load _model_locks _models _lock_lock held_locks next_lock
       load_calls _device _pool_size proc threads outline holds_registry
       holds_model] in *.

Ltac break_hyps :=
  repeat match goal with
         | H : _ /\ _ |- _ => destruct H
         | H : is_Some _ |- _ => destruct H as [? H]
         | H : exists _, _ |- _ => destruct H
         | H : loadable _ _ _ |- _ => destruct H as [? H]
         end.

Ltac finish :=
  break_hyps; proc_simpl; simplify_map_eq;
  first [done | congruence | by eauto | by intuition eauto | set_solver].

(** Local correctness: the statement a thread runs establishes the
    assertion of the statement it reaches. *)
Lemma outline_own self q a self' a' :
  thread_step w self q a = Some (self', a') ->
  outline w self q a ->
  (cached0 !! q = None -> loadable w self q) ->
  (forall h, cached0 !! q = Some h -> _models self !! q = Some h) ->
  outline w self' q a'.
Proof.
  intros Hts Ha Hload Hkept. step_cases Hts; proc_simpl; try finish.
  all: destruct (cached0 !! q) eqn:Hc;
    [specialize (Hkept _ eq_refl); finish
    |specialize (Hload eq_refl); finish].
Qed.

(** Interference freedom: the statement one thread runs keeps the
    assertion of every other thread. *)
Lemma outline_other self p a self' a' q b :
  thread_step w self p a = Some (self', a') ->
  outline w self p a ->
  outline w self q b ->
  exclusive a b ->
  outline w self' q b.
Proof.
  intros Hts Ha Hb [Hreg Hmod]. step_cases Hts; proc_simpl; try done.
  all: destruct b; proc_simpl; try done;
       try (by exfalso; apply Hreg);
       try (by exfalso; eapply Hmod).
  all: try (destruct (decide (q = p)) as [->|Hne]; finish).
Qed.

Lemma exclusive_sym a b : exclusive a b -> exclusive b a.
Proof. intros [H1 H2]. split; [tauto|]. intros l ? ?. by apply (H2 l). Qed.

Lemma exclusive_step self p a self' a' q b :
  thread_step w self p a = Some (self', a') ->
  outline w self q b ->
  exclusive a b ->
  exclusive a' b.
Proof.
  intros Hts Hb [Hreg Hmod]. step_cases Hts; proc_simpl.
  all: split; [|intros l0]; proc_simpl; try done; try (by eauto).
  all: destruct b; proc_simpl; try done; finish.
Qed.

Lemma step_registry self p a self' a' :
  thread_step w self p a = Some (self', a') ->
  holds_registry a' = true
  \/ _lock_lock self' = false
  \/ (holds_registry a = false /\ _lock_lock self' = _lock_lock self).
Proof. intros Hts. step_cases Hts; proc_simpl; eauto. Qed.

Lemma step_model_lock self p a self' a' l :
  thread_step w self p a = Some (self', a') ->
  l ∈ held_locks self' ->
  holds_model a' = Some l
  \/ (l ∈ held_locks self /\ holds_model a <> Some l).
Proof.
  intros Hts Hl. step_cases Hts; proc_simpl; eauto.
  all: try (by right; split; [done|congruence]).
  all: try (by right; split; [done|discriminate]).
  all: match goal with
       | |- Some ?x = Some _ \/ _ =>
           destruct (decide (l = x)) as [->|Hne];
             [by left|right; split; [set_solver|congruence]]
       | |- None = Some _ \/ _ => right; split; [set_solver|]
       end.
  all: intros [= ->]; set_solver.
Qed.

Lemma step_device self p a self' a' :
  thread_step w self p a = Some (self', a') -> _device self' = _device self.
Proof. intros Hts. by step_cases Hts. Qed.

Lemma step_models self p a self' a' q h :
  thread_step w self p a = Some (self', a') ->
  outline w self p a ->
  _models self !! q = Some h -> _models self' !! q = Some h.
Proof.
  intros Hts Ha Hq. step_cases Hts; proc_simpl; try done.
  destruct (decide (q = p)) as [->|Hne]; finish.
Qed.

Lemma step_models_new self p a self' a' q h :
  thread_step w self p a = Some (self', a') ->
  _models self' !! q = Some h ->
  _models self !! q = Some h \/ (exists l, q = p /\ a = PcStore l h).
Proof.
  intros Hts Hq. step_cases Hts; proc_simpl; eauto.
  destruct (decide (q = p)) as [->|Hne]; simplify_map_eq; eauto.
Qed.

Lemma map_fst_insert (T : list (string * pc)) i q a a' :
  T !! i = Some (q, a) -> map fst (<[i := (q, a')]> T) = map fst T.
Proof.
  revert i. induction T as [|t T IH]; intros [|i] Hi; simplify_eq/=; try done.
  by rewrite IH.
Qed.

Lemma thread_path_in (T : list (string * pc)) i q a :
  T !! i = Some (q, a) -> q ∈ map fst T.
Proof.
  intros Hi. apply list_elem_of_fmap. exists (q, a).
  split; [done|]. by eapply list_elem_of_lookup_2.
Qed.

Lemma step_kind self p a self' a' :
  thread_step w self p a = Some (self', a') ->
  outline w self' p a' ->
  (exists l h, a = PcLoad l /\ a' = PcStore l h /\ self' = log_load p self)
  \/ (exists l h, a = PcStore l h /\ a' = PcRelModel l
                 /\ self' = set_models (insert p h) self)
  \/ ((forall l h, a <> PcStore l h) /\ (forall l h, a' <> PcStore l h)
      /\ _models self' = _models self /\ load_calls self' = load_calls self).
Proof.
  intros Hts Ha'. step_cases Hts; proc_simpl; try done.
  all: try (by right; right).
  - left. eauto.
  - right. left. eauto.
Qed.

Lemma single_flight_step st st' :
  single_flight w cached0 calls0 paths st ->
  step w st st' ->
  single_flight w cached0 calls0 paths st'.
Proof.
  intros [Hpaths Hload Hout Hexcl Hreg Hmod Hkept Horigin Hcalls] Hstep.
  inversion Hstep as [st0 i p a self' a' Hi Hts]; subst st0 st'.
  pose proof (Hout _ _ _ Hi) as Ha.
  assert (Hp : p ∈ paths) by (rewrite <- Hpaths; by eapply thread_path_in).
  assert (Ha' : outline w self' p a').
  { eapply outline_own; [exact Hts|exact Ha| |by apply Hkept].
    intros Hc. by apply Hload. }
  assert (Hdev : _device self' = _device (proc st)) by by eapply step_device.
  assert (Hout' : forall j q b,
            <[i := (p, a')]> (threads st) !! j = Some (q, b) ->
            outline w self' q b).
  { intros j q b Hj.
    apply lookup_updated_thread in Hj as [[-> [= -> ->]]|[Hne Hj]]; [done|].
    eapply outline_other; eauto. }
  split; cbn [proc threads].
  - by erewrite map_fst_insert.
  - intros q Hq Hc. destruct (Hload q Hq Hc) as [m Hm].
    exists m. by rewrite Hdev.
  - done.
  - intros j k q b q' b' Hj Hk Hjk.
    apply lookup_updated_thread in Hj as [[-> [= -> ->]]|[Hnej Hj]];
      apply lookup_updated_thread in Hk as [[-> [= -> ->]]|[Hnek Hk]].
    + done.
    + eapply exclusive_step; eauto.
    + apply exclusive_sym. eapply exclusive_step; eauto.
    + eauto.
  - intros Hlock.
    destruct (step_registry _ _ _ _ _ Hts) as [Hown|[Hfree|[Hnot Hsame]]].
    + exists i, p, a'. split; [|done].
      apply list_lookup_insert_eq. by eapply lookup_lt_Some.
    + congruence.
    + rewrite Hsame in Hlock. destruct (Hreg Hlock) as (k & q & b & Hk & Hb).
      exists k, q, b. split; [|done].
      rewrite list_lookup_insert_ne; [done|]. intros ->. simplify_eq. congruence.
  - intros l Hl.
    destruct (step_model_lock _ _ _ _ _ l Hts Hl) as [Hown|[Hheld Hnot]].
    + exists i, p, a'. split; [|done].
      apply list_lookup_insert_eq. by eapply lookup_lt_Some.
    + destruct (Hmod l Hheld) as (k & q & b & Hk & Hb).
      exists k, q, b. split; [|done].
      rewrite list_lookup_insert_ne; [done|]. intros ->. simplify_eq.
  - intros q h Hc. eapply step_models; eauto.
  - intros q h Hq. rewrite Hdev.
    destruct (step_models_new _ _ _ _ _ _ _ Hts Hq) as [Hold|(l & -> & ->)];
      [by apply Horigin|].
    right. cbn [outline] in Ha. destruct Ha as (_ & Habs & _ & Hm).
    split; [|done].
    destruct (cached0 !! p) as [h0|] eqn:Hc; [|done].
    apply Hkept in Hc. congruence.
  - destruct Hcalls as (new & Hlog & Hnodup & Hnew).
    assert (Hstore_other : forall k q l h,
              k <> i -> threads st !! k = Some (q, PcStore l h) ->
              <[i := (p, a')]> (threads st) !! k = Some (q, PcStore l h)).
    { intros k q l h Hne Hk. by rewrite list_lookup_insert_ne. }
    assert (Hmine : <[i := (p, a')]> (threads st) !! i = Some (p, a')).
    { apply list_lookup_insert_eq. by eapply lookup_lt_Some. }
    destruct (step_kind _ _ _ _ _ Hts Ha')
      as [(l & h & -> & -> & ->)|[(l & h & -> & -> & ->)|(Hns & Hns' & Hm & Hl)]].
    + (* the load is called *)
      cbn [outline] in Ha. destruct Ha as (Hheld & Habs & Hlock).
      assert (Hc : cached0 !! p = None).
      { destruct (cached0 !! p) as [h0|] eqn:Hc; [|done].
        apply Hkept in Hc. congruence. }
      exists (new ++ [p])%list. proc_simpl.
      split; [by rewrite Hlog, app_assoc|]. split.
      * apply NoDup_app. split; [done|]. split; [|apply NoDup_singleton].
        intros q Hq Hqp. apply list_elem_of_singleton in Hqp as ->.
        apply Hnew in Hq as [_ [[h0 Hq]|(k & l' & h' & Hk)]]; [congruence|].
        assert (Hki : k <> i) by (intros ->; simplify_eq).
        pose proof (Hout _ _ _ Hk) as Hk'. cbn [outline] in Hk'.
        destruct Hk' as (_ & _ & Hlock' & _).
        assert (l' = l) by congruence. subst l'.
        destruct (Hexcl _ _ _ _ _ _ Hk Hi Hki) as [_ Hx]. by eapply (Hx l).
      * intros q. rewrite elem_of_app, list_elem_of_singleton, Hnew. split.
        -- intros [[Hcq [Hq|(k & l' & h' & Hk)]]| ->].
           ++ eauto.
           ++ split; [done|]. right. exists k, l', h'.
              apply Hstore_other; [|done]. intros ->. simplify_eq.
           ++ split; [done|]. right. eauto.
        -- intros [Hcq [Hq|(k & l' & h' & Hk)]]; [by eauto|].
           apply lookup_updated_thread in Hk as [[-> [= -> -> ->]]|[Hne Hk]];
             [by right|]. left. eauto 10.
    + (* the model is stored *)
      cbn [outline] in Ha. destruct Ha as (Hheld & Habs & Hlock & Hm).
      exists new. proc_simpl. split; [done|]. split; [done|].
      intros q. rewrite Hnew. split.
      * intros [Hcq [Hq|(k & l' & h' & Hk)]]; split; try done.
        -- left. destruct (decide (q = p)) as [->|Hne]; simplify_map_eq; eauto.
        -- destruct (decide (k = i)) as [->|Hne].
           ++ simplify_eq. left. by rewrite lookup_insert_eq.
           ++ right. eauto.
      * intros [Hcq [Hq|(k & l' & h' & Hk)]]; split; try done.
        -- destruct (decide (q = p)) as [->|Hne].
           ++ right. eauto.
           ++ left. by rewrite lookup_insert_ne in Hq.
        -- apply lookup_updated_thread in Hk as [[-> Heq]|[Hne Hk]];
             [by simplify_eq|]. right. eauto.
    + exists new. rewrite Hl, Hm. split; [done|]. split; [done|].
      intros q. rewrite Hnew. split.
      * intros [Hcq [Hq|(k & l' & h' & Hk)]]; split; try done; [by left|].
        right. exists k, l', h'. apply Hstore_other; [|done].
        intros ->. simplify_eq. by eapply Hns.
      * intros [Hcq [Hq|(k & l' & h' & Hk)]]; split; try done; [by left|].
        apply lookup_updated_thread in Hk as [[-> [= -> ?]]|[Hne Hk]].
        -- exfalso. by eapply Hns'.
        -- right. eauto.
Qed.

Lemma single_flight_steps st st' :
  single_flight w cached0 calls0 paths st ->
  steps w st st' ->
  single_flight w cached0 calls0 paths st'.
Proof.
  intros Hinv Hsteps. induction Hsteps as [|st st' st'' _ IH Hstep]; [done|].
  eapply single_flight_step; [by apply IH|exact Hstep].
Qed.

Lemma registry_holder_moves self q a :
  holds_registry a = true -> is_Some (thread_step w self q a).
Proof. destruct a; cbn; try done; intros _; repeat case_match; eauto. Qed.

Lemma model_holder_moves self q a l :
  holds_model a = Some l -> is_Some (thread_step w self q a).
Proof. destruct a; cbn; try done; intros _; repeat case_match; eauto. Qed.

Lemma thread_can_step st i q a :
  threads st !! i = Some (q, a) ->
  is_Some (thread_step w (proc st) q a) ->
  exists st', step w st st'.
Proof. intros Hi [[self' a'] Hts]. eexists. econstructor; eauto. Qed.

(** Progress: while a thread has not finished, some thread can move. *)
Lemma single_flight_progress st i q a :
  single_flight w cached0 calls0 paths st ->
  threads st !! i = Some (q, a) ->
  finished a = false ->
  exists st', step w st st'.
Proof.
  intros Hinv Hi Hfin.
  destruct (thread_step w (proc st) q a) as [[self' a']|] eqn:Hts.
  { eapply thread_can_step; eauto. }
  assert (Hwait : (_lock_lock (proc st) = true)
                  \/ exists l, l ∈ held_locks (proc st)).
  { destruct a; cbn in Hts, Hfin; repeat case_match; simplify_eq; eauto. }
  destruct Hwait as [Hlock|[l Hl]].
  - destruct (sf_registry_owner _ _ _ _ _ Hinv Hlock) as (k & q' & b & Hk & Hb).
    eapply thread_can_step; [exact Hk|]. by apply registry_holder_moves.
  - destruct (sf_model_owner _ _ _ _ _ Hinv l Hl) as (k & q' & b & Hk & Hb).
    eapply thread_can_step; [exact Hk|]. by eapply model_holder_moves.
Qed.

(** When no thread can move, every caller has returned the cached
    handle. *)
Lemma single_flight_quiet st i q a :
  single_flight w cached0 calls0 paths st ->
  quiet w st ->
  threads st !! i = Some (q, a) ->
  exists h, a = PcDone h /\ _models (proc st) !! q = Some h.
Proof.
  intros Hinv Hquiet Hi.
  destruct (finished a) eqn:Hfin.
  - pose proof (sf_outline _ _ _ _ _ Hinv _ _ _ Hi) as Ha.
    destruct a; try done. cbn in Ha. eauto.
  - destruct (single_flight_progress _ _ _ _ Hinv Hi Hfin) as [st' Hstep].
    by apply Hquiet in Hstep.
Qed.

Lemma sum_list_insert_lt (f : string * pc -> nat) (T : list (string * pc))
    i x y :
  T !! i = Some x -> f y < f x ->
  sum_list (map f (<[i := y]> T)) < sum_list (map f T).
Proof.
  revert i. induction T as [|t T IH]; intros [|i] Hi Hlt; simplify_eq/=.
  - lia.
  - specialize (IH i Hi Hlt). lia.
Qed.

(** Every statement run brings the pool closer to the end. *)
Lemma step_total_rank st st' : step w st st' -> total_rank st' < total_rank st.
Proof.
  intros Hstep. inversion Hstep as [st0 i p a self' a' Hi Hts]; subst.
  unfold total_rank. cbn [threads].
  eapply sum_list_insert_lt; [exact Hi|]. cbn. by eapply thread_step_rank.
Qed.

Lemma total_rank_callers self ps :
  total_rank {| proc := self; threads := callers ps |} = 16 * length ps.
Proof.
  unfold total_rank, callers. cbn [threads].
  induction ps as [|q ps IH]; [done|]. cbn [map sum_list length]. rewrite IH.
  cbn. lia.
Qed.

Lemma steps_total_rank st st' :
  steps w st st' -> total_rank st' <= total_rank st.
Proof.
  intros Hsteps. induction Hsteps as [|st st' st'' _ IH Hstep]; [done|].
  apply step_total_rank in Hstep. lia.
Qed.

Lemma steps_device st st' :
  steps w st st' -> _device (proc st') = _device (proc st).
Proof.
  intros Hsteps. induction Hsteps as [|st st' st'' _ IH Hstep]; [done|].
  inversion Hstep as [st0 i p a self' a' Hi Hts]; subst. cbn [proc].
  rewrite <- IH. by eapply step_device.
Qed.

(** A loaded location in the log is one of the callers' arguments. *)
Lemma single_flight_new_in_paths st (new : list string) :
  single_flight w cached0 calls0 paths st ->
  (forall q,
     q ∈ new
     <-> cached0 !! q = None
         /\ (is_Some (_models (proc st) !! q)
             \/ exists i l h, threads st !! i = Some (q, PcStore l h))) ->
  forall q, q ∈ new -> q ∈ paths.
Proof.
  intros Hinv Hnew q Hq. apply Hnew in Hq as [Hc [[h Hh]|(i & l & h & Hi)]].
  - destruct (sf_origin _ _ _ _ _ Hinv _ _ Hh) as [Hold|(_ & Hin & _)];
      [congruence|done].
  - rewrite <- (sf_paths _ _ _ _ _ Hinv). by eapply thread_path_in.
Qed.

Lemma single_flight_init self ps :
  idle self ->
  (forall q, q ∈ ps -> _models self !! q = None -> loadable w self q) ->
  single_flight w (_models self) (load_calls self) ps
    {| proc := self; threads := callers ps |}.
Proof.
  intros [Hreg Hheld] Hload.
  assert (Hcheck : forall i q a, callers ps !! i = Some (q, a) -> a = PcCheck).
  { intros i q a Hi. unfold callers in Hi.
    apply list_lookup_fmap_Some in Hi as (x & [= -> ->] & _). done. }
  split; cbn [proc threads].
  - unfold callers. rewrite map_map. apply map_id.
  - done.
  - intros i q a Hi. by rewrite (Hcheck _ _ _ Hi).
  - intros i j q a q' a' Hi Hj _.
    rewrite (Hcheck _ _ _ Hi), (Hcheck _ _ _ Hj). by split.
  - congruence.
  - intros l Hl. rewrite Hheld in Hl. by apply not_elem_of_empty in Hl.
  - done.
  - eauto.
  - exists []. split; [by rewrite app_nil_r|]. split; [apply NoDup_nil_2|].
    intros q. split; [by intros Hq%elem_of_nil|].
    intros [Hq [[h Hh]|(i & l & h & Hi)]]; [congruence|].
    by apply Hcheck in Hi.
Qed.
End single_flight.

Lemma steps_trans w st st' st'' :
  steps w st st' -> steps w st' st'' -> steps w st st''.
Proof.
  intros H1 H2. induction H2 as [|st' st'' st''' _ IH Hstep]; [done|].
  eapply steps_step; [by apply IH|done].
Qed.

Lemma run_schedule_steps w schedule st : steps w st (run_schedule w schedule st).
Proof.
  revert st. induction schedule as [|i rest IH]; intros st; [constructor|].
  cbn [run_schedule].
  destruct (threads st !! i) as [[q a]|] eqn:Hi; [|apply IH].
  destruct (thread_step w (proc st) q a) as [[self' a']|] eqn:Hts; [|apply IH].
  eapply steps_trans; [|apply IH].
  eapply steps_step; [constructor|]. econstructor; eauto.
Qed.

Lemma finished_quiet w st :
  forallb (fun t => finished (snd t)) (threads st) = true -> quiet w st.
Proof.
  intros Hall st' Hstep.
  inversion Hstep as [st0 i p a self' a' Hi Hts]; subst.
  rewrite forallb_forall in Hall.
  apply list_elem_of_lookup_2, list_elem_of_In, Hall in Hi. cbn in Hi.
  by destruct a.
Qed.

Lemma quiet_or_step w st : quiet w st \/ exists st', step w st st'.
Proof.
  assert (Hscan : forall T : list (string * pc),
    (forall i q a, T !! i = Some (q, a) ->
                   thread_step w (proc st) q a = None)
    \/ (exists i q a, T !! i = Some (q, a)
                      /\ is_Some (thread_step w (proc st) q a))).
  { induction T as [|[q a] T IH].
    - left. intros i q a Hi. by rewrite lookup_nil in Hi.
    - destruct (thread_step w (proc st) q a) as [next|] eqn:Hts.
      + right. exists 0, q, a. split; [done|]. rewrite Hts. eauto.
      + destruct IH as [IH|(i & q' & a' & Hi & Hmove)].
        * left. intros [|i] q' a' Hi; [by simplify_eq/=|]. by eapply IH.
        * right. exists (S i), q', a'. by split. }
  destruct (Hscan (threads st)) as [Hnone|(i & q & a & Hi & Hmove)].
  - left. intros st' Hstep.
    inversion Hstep as [st0 j p b self' b' Hj Hts]; subst.
    rewrite (Hnone _ _ _ Hj) in Hts. discriminate.
  - right. by eapply thread_can_step.
Qed.

(** Every run can be continued until no thread can move. *)
Lemma steps_to_quiet w st : exists st', steps w st st' /\ quiet w st'.
Proof.
  assert (Hwf : forall n st, total_rank st < n ->
            exists st', steps w st st' /\ quiet w st').
  { induction n as [|n IH]; intros st1 Hn; [lia|].
    destruct (quiet_or_step w st1) as [Hq|[st2 Hstep]].
    - exists st1. split; [constructor|done].
    - pose proof (step_total_rank w _ _ Hstep) as Hlt.
      destruct (IH st2) as (st' & Hsteps & Hq); [lia|].
      exists st'. split; [|done].
      eapply steps_trans; [|exact Hsteps].
      eapply steps_step; [constructor|exact Hstep]. }
  apply (Hwf (S (total_rank st))). lia.
Qed.

Lemma NoDup_all_equal (p : string) (l : list string) :
  NoDup l -> (forall x, x ∈ l -> x = p) -> l = [] \/ l = [p].
Proof.
  intros Hnd Hall. destruct l as [|x [|y l]]; [by left|right|exfalso].
  - f_equal. apply Hall. left.
  - assert (x = p) by (apply Hall; left).
    assert (y = p) by (apply Hall; right; left). subst.
    apply NoDup_cons in Hnd as [Hnd _]. apply Hnd. left.
Qed.

(** C1.  K callers (K at least 2) enter [_load_model] together for a
    location that is not cached and that [PPO.load] can load.  Whatever
    the interleaving of their statements: at most one call of [PPO.load]
    has been made at any moment; every statement run brings the end
    closer (at most 16 K statements are run in all), as long as a caller
    has not returned some thread can move, and the run can be continued
    until no thread can move; and once no thread can move, exactly one
    call of [PPO.load] has been made and every caller has returned the
    same handle, the one in the cache, holding the model that was
    loaded. *)
Theorem single_flight_load w self model_path K m :
  idle self ->
  _models self !! model_path = None ->
  PPO_load w model_path (_device self) = inr m ->
  2 <= K ->
  forall st,
    steps w {| proc := self; threads := callers (replicate K model_path) |} st ->
    (load_calls (proc st) = load_calls self
     \/ load_calls (proc st) = (load_calls self ++ [model_path])%list)
    /\ total_rank st <= 16 * K
    /\ (forall st', step w st st' -> total_rank st' < total_rank st)
    /\ (forall i q a,
          threads st !! i = Some (q, a) -> finished a = false ->
          exists st', step w st st')
    /\ (exists st', steps w st st' /\ quiet w st')
    /\ (quiet w st ->
        load_calls (proc st) = (load_calls self ++ [model_path])%list
        /\ exists h,
             threads st = replicate K (model_path, PcDone h)
             /\ _models (proc st) !! model_path = Some h
             /\ obj_model h = m).
Proof.
  intros Hidle Hm Hload HK st Hsteps.
  set (st0 := {| proc := self; threads := callers (replicate K model_path) |})
    in *.
  assert (Hinv0 : single_flight w (_models self) (load_calls self)
                    (replicate K model_path) st0).
  { apply single_flight_init; [done|]. intros q Hq _.
    apply elem_of_replicate in Hq as [-> _]. by exists m. }
  assert (Hinv : single_flight w (_models self) (load_calls self)
                   (replicate K model_path) st)
    by (eapply single_flight_steps; eassumption).
  assert (Hdev : _device (proc st) = _device self)
    by (eapply (steps_device w st0 st); eassumption).
  destruct (sf_calls _ _ _ _ _ Hinv) as (new & Hlog & Hnodup & Hnew).
  assert (Hall : forall q, q ∈ new -> q = model_path).
  { intros q Hq.
    eapply single_flight_new_in_paths in Hq; [|exact Hinv|exact Hnew].
    by apply elem_of_replicate in Hq as [-> _]. }
  assert (Hthreads : forall i q a,
            threads st !! i = Some (q, a) -> q = model_path).
  { intros i q a Hi. apply thread_path_in in Hi.
    rewrite (sf_paths _ _ _ _ _ Hinv) in Hi.
    by apply elem_of_replicate in Hi as [-> _]. }
  assert (Hlen : length (threads st) = K).
  { rewrite <- (length_map fst), (sf_paths _ _ _ _ _ Hinv).
    apply length_replicate. }
  split; [|split; [|split; [|split; [|split]]]]; [| | | |apply steps_to_quiet|].
  - destruct (NoDup_all_equal model_path new Hnodup Hall) as [->| ->].
    + left. by rewrite Hlog, app_nil_r.
    + by right.
  - etrans; [eapply steps_total_rank; exact Hsteps|].
    unfold st0. by rewrite total_rank_callers, length_replicate.
  - apply step_total_rank.
  - intros i q a. by eapply single_flight_progress.
  - intros Hquiet.
    destruct (lookup_lt_is_Some_2 (threads st) 0) as [[q a] H0]; [lia|].
    destruct (single_flight_quiet w _ _ _ _ _ _ _ Hinv Hquiet H0)
      as (h & -> & Hh).
    rewrite (Hthreads _ _ _ H0) in Hh.
    assert (Hin : model_path ∈ new) by (apply Hnew; eauto).
    split.
    + destruct (NoDup_all_equal model_path new Hnodup Hall) as [->| ->];
        [by apply elem_of_nil in Hin|done].
    + exists h. split; [|split; [done|]].
      * symmetry. apply replicate_as_Forall. split; [done|].
        apply Forall_forall. intros [q' a'] Hin'.
        apply list_elem_of_lookup in Hin' as [i Hi].
        destruct (single_flight_quiet w _ _ _ _ _ _ _ Hinv Hquiet Hi)
          as (h' & -> & Hh').
        rewrite (Hthreads _ _ _ Hi) in *. congruence.
      * destruct (sf_origin _ _ _ _ _ Hinv _ _ Hh) as [Hold|(_ & _ & Hfrom)];
          [congruence|].
        rewrite Hdev in Hfrom. congruence.
Qed.

Lemma single_flight_load_witness :
  let st := run_schedule toy_world (alternate 20) toy_pool in
  load_calls (proc st) = ["models/bronze_agility.zip"]
  /\ exists h,
       threads st = replicate 2 ("models/bronze_agility.zip", PcDone h)
       /\ _models (proc st) !! "models/bronze_agility.zip" = Some h
       /\ obj_model h = toy_model.
Proof.
  intros st.
  destruct (single_flight_load toy_world (fresh_processor 2 "cpu")
              "models/bronze_agility.zip" 2 toy_model
              (conj eq_refl eq_refl) eq_refl eq_refl (le_n 2) st
              (run_schedule_steps toy_world (alternate 20) toy_pool))
    as (_ & _ & _ & _ & _ & Hquiet).
  apply Hquiet. apply finished_quiet. reflexivity.
Defined.

(** The same among callers for any locations, each cached already or
    loadable: no location is loaded twice, only locations that were asked
    for and were not cached are loaded, and once no thread can move every
    such location has been loaded and every caller has returned the
    cached handle of its location. *)
Theorem single_flight_per_location w self (ps : list string) :
  idle self ->
  (forall q, q ∈ ps -> _models self !! q = None -> loadable w self q) ->
  forall st,
    steps w {| proc := self; threads := callers ps |} st ->
    exists new,
      load_calls (proc st) = (load_calls self ++ new)%list
      /\ NoDup new
      /\ (forall q, q ∈ new -> q ∈ ps /\ _models self !! q = None)
      /\ (quiet w st ->
          (forall q, q ∈ ps -> _models self !! q = None -> q ∈ new)
          /\ forall i q a,
               threads st !! i = Some (q, a) ->
               exists h, a = PcDone h /\ _models (proc st) !! q = Some h).
Proof.
  intros Hidle Hload st Hsteps.
  assert (Hinv : single_flight w (_models self) (load_calls self) ps st).
  { eapply single_flight_steps; [|exact Hsteps].
    by apply single_flight_init. }
  destruct (sf_calls _ _ _ _ _ Hinv) as (new & Hlog & Hnodup & Hnew).
  exists new. split; [done|]. split; [done|]. split.
  - intros q Hq. split.
    + eapply single_flight_new_in_paths; [exact Hinv|exact Hnew|exact Hq].
    + by apply Hnew in Hq as [Hq _].
  - intros Hquiet. split.
    + intros q Hq Hc. rewrite <- (sf_paths _ _ _ _ _ Hinv) in Hq.
      apply list_elem_of_fmap in Hq as ([q' a] & -> & Hin).
      apply list_elem_of_lookup in Hin as [i Hi].
      destruct (single_flight_quiet w _ _ _ _ _ _ _ Hinv Hquiet Hi)
        as (h & -> & Hh).
      apply Hnew. split; [done|]. left. eauto.
    + intros i q a Hi. by eapply single_flight_quiet.
Qed.

Lemma append_inj_r (p s t : string) : p +:+ s = p +:+ t -> s = t.
Proof.
  induction p as [|c p IH]; [done|].
  change (String c (p +:+ s) = String c (p +:+ t) -> s = t).
  intros [= H]. by apply IH.
Qed.

Lemma path_join_inj p f g : path_join p f = path_join p g -> f = g.
Proof.
  unfold path_join. destruct (String.eqb p "."); [done|].
  destruct (endswith p "/"); intros H.
  - by apply append_inj_r in H.
  - by apply append_inj_r, append_inj_r in H.
Qed.

Lemma dict_values_set {V} k (v : V) (d : pydict V) x :
  x ∈ dict_values (dict_set k v d) -> x = v \/ x ∈ dict_values d.
Proof.
  unfold dict_values. induction d as [|[k' v'] d IH]; cbn.
  - intros Hx. apply list_elem_of_singleton in Hx. by left.
  - destruct (String.eqb k k'); cbn; intros Hx.
    + apply elem_of_cons in Hx as [->|Hx]; [by left|]. right. by right.
    + apply elem_of_cons in Hx as [->|Hx]; [right; left|].
      destruct (IH Hx) as [->|Hin]; [by left|right; by right].
Qed.

Lemma dict_values_set_NoDup {V} k (v : V) (d : pydict V) :
  NoDup (dict_values d) -> v ∉ dict_values d ->
  NoDup (dict_values (dict_set k v d)).
Proof.
  unfold dict_values. induction d as [|[k' v'] d IH]; cbn; intros Hnd Hv.
  - apply NoDup_singleton.
  - apply NoDup_cons in Hnd as [Hv' Hnd].
    apply not_elem_of_cons in Hv as [Hne Hv].
    destruct (String.eqb k k'); cbn; apply NoDup_cons; split; try done.
    + intros Hin. apply (dict_values_set k v d) in Hin as [->|Hin]; done.
    + by apply IH.
Qed.

Lemma dict_comprehension_values {X V} (key : X -> string) (val : X -> V) xs :
  NoDup xs -> (forall x y, val x = val y -> x = y) ->
  NoDup (dict_values (dict_comprehension key val xs))
  /\ forall v, v ∈ dict_values (dict_comprehension key val xs) ->
       exists x, x ∈ xs /\ v = val x.
Proof.
  intros Hnd Hinj. induction xs as [|x xs IH] using rev_ind.
  { split; [apply NoDup_nil_2|]. intros v Hv. by apply elem_of_nil in Hv. }
  apply NoDup_app in Hnd as (Hnd & Hx & _). destruct (IH Hnd) as [IH1 IH2].
  rewrite dict_comprehension_snoc. split.
  - apply dict_values_set_NoDup; [done|]. intros Hin.
    apply IH2 in Hin as (y & Hy & Heq). apply Hinj in Heq as <-.
    apply (Hx x Hy). left.
  - intros v Hv. apply dict_values_set in Hv as [->|Hv].
    + exists x. split; [|done]. apply elem_of_app. right. left.
    + apply IH2 in Hv as (y & Hy & ->). exists y. split; [|done].
      apply elem_of_app. by left.
Qed.

Lemma scan_models_values_NoDup models_path listing :
  NoDup listing -> NoDup (dict_values (scan_models models_path listing)).
Proof.
  intros Hnd. unfold scan_models.
  apply dict_comprehension_values.
  - by apply NoDup_filter.
  - intros f g. apply path_join_inj.
Qed.

Lemma preload_tasks_paths rp (catalog : pydict string) q :
  (0 < get_pool_size rp)%Z ->
  q ∈ map snd (preload_tasks rp catalog) <-> q ∈ dict_values catalog.
Proof.
  intros Hpool. unfold preload_tasks. split.
  - intros Hq. apply list_elem_of_fmap in Hq as ([i q'] & -> & Hin).
    apply list_elem_of_In, in_flat_map in Hin as (n & _ & Hin).
    apply list_elem_of_In, list_elem_of_fmap in Hin as (m & [= _ ->] & Hm).
    done.
  - intros Hq. apply list_elem_of_fmap. exists (0%Z, q). split; [done|].
    apply list_elem_of_In, in_flat_map. exists 0. split.
    + apply in_seq. lia.
    + apply list_elem_of_In, list_elem_of_fmap. by exists q.
Qed.

Lemma preload_tasks_length rp (catalog : pydict string) :
  length (preload_tasks rp catalog)
  = Z.to_nat (get_pool_size rp) * length catalog.
Proof.
  unfold preload_tasks. generalize (Z.to_nat (get_pool_size rp)) 0.
  intros n. induction n as [|n IH]; intros s; [done|].
  cbn [seq flat_map]. rewrite length_app, IH, length_map.
  unfold dict_values. rewrite length_map. lia.
Qed.

(** ** The preload tasks on the executor *)

Lemma task_step_thread w self args a self' a' :
  thread_step w self (wa_model_path args) a = Some (self', a') ->
  task_step w self args (TaskLoading a) = Some (self', TaskLoading a').
Proof.
  intros Hts. destruct a; cbn [task_step]; try (by rewrite Hts).
  all: discriminate Hts.
Qed.

Lemma task_step_cases w self args at_ self' at_' :
  task_step w self args at_ = Some (self', at_') ->
  (exists a a', at_ = TaskLoading a /\ at_' = TaskLoading a'
                /\ thread_step w self (wa_model_path args) a = Some (self', a'))
  \/ (self' = self
      /\ exists a l r,
           at_ = TaskLoading a /\ finished a = true
           /\ at_' = TaskEnded l r /\ task_caller at_' = a
           /\ task_consistent w (args, at_')).
Proof.
  intros Hts. destruct at_ as [a|l r]; [|discriminate Hts].
  destruct a; cbn [task_step] in Hts;
    try (destruct (thread_step _ _ _ _) as [[p a1]|] eqn:Hth;
         [injection Hts as <- <-; left; by eauto|discriminate Hts]).
  all: injection Hts as <- <-; right; split; [done|].
  all: eexists _, _, _; by split_and!.
Qed.

Lemma task_step_rank w self args at_ self' at_' :
  task_step w self args at_ = Some (self', at_') ->
  task_rank at_' < task_rank at_.
Proof.
  intros Hts.
  apply task_step_cases in Hts
    as [(a & a' & -> & -> & Hth)|(_ & a & l & r & -> & _ & -> & _)].
  - cbn. apply thread_step_rank in Hth. lia.
  - cbn. lia.
Qed.

Lemma sum_list_insert_less {A} (f : A -> nat) (T : list A) i x y :
  T !! i = Some x -> f y < f x ->
  sum_list (map f (<[i := y]> T)) < sum_list (map f T).
Proof.
  revert i. induction T as [|t T IH]; intros [|i] Hi Hlt; simplify_eq/=.
  - lia.
  - specialize (IH i Hi Hlt). lia.
Qed.

Lemma executor_step_rank w st st' :
  executor_step w st st' -> executor_rank st' < executor_rank st.
Proof.
  intros Hstep. inversion Hstep as [st0 i args a self' a' Hi Hts]; subst.
  unfold executor_rank. cbn [ex_tasks].
  eapply sum_list_insert_less; [exact Hi|]. cbn. by eapply task_step_rank.
Qed.

Lemma executor_steps_trans w st st' st'' :
  executor_steps w st st' -> executor_steps w st' st'' ->
  executor_steps w st st''.
Proof.
  intros H1 H2. induction H2 as [|st1 st2 st3 _ IH Hstep]; [done|].
  eapply executor_steps_step; [by apply IH|done].
Qed.

Lemma run_executor_steps w schedule st :
  executor_steps w st (run_executor w schedule st).
Proof.
  revert st. induction schedule as [|i rest IH]; intros st; [constructor|].
  cbn [run_executor].
  destruct (ex_tasks st !! i) as [[args a]|] eqn:Hi; [|apply IH].
  destruct (task_step w (ex_proc st) args a) as [[self' a']|] eqn:Hts;
    [|apply IH].
  eapply executor_steps_trans; [|apply IH].
  eapply executor_steps_step; [constructor|]. by econstructor.
Qed.

Lemma executor_quiet_or_step w st :
  executor_quiet w st \/ exists st', executor_step w st st'.
Proof.
  assert (Hscan : forall T : list (worker_args * task_pc),
    (forall i args a, T !! i = Some (args, a) ->
                      task_step w (ex_proc st) args a = None)
    \/ (exists i args a, T !! i = Some (args, a)
                         /\ is_Some (task_step w (ex_proc st) args a))).
  { induction T as [|[args a] T IH].
    - left. intros i args a Hi. by rewrite lookup_nil in Hi.
    - destruct (task_step w (ex_proc st) args a) as [next|] eqn:Hts.
      + right. exists 0, args, a. split; [done|]. rewrite Hts. eauto.
      + destruct IH as [IH|(i & args' & a' & Hi & Hmove)].
        * left. intros [|i] args' a' Hi; [by simplify_eq/=|]. by eapply IH.
        * right. exists (S i), args', a'. by split. }
  destruct (Hscan (ex_tasks st)) as [Hnone|(i & args & a & Hi & Hmove)].
  - left. intros st' Hstep.
    inversion Hstep as [st0 j args b self' b' Hj Hts]; subst.
    rewrite (Hnone _ _ _ Hj) in Hts. discriminate.
  - right. destruct Hmove as [[self' a'] Hts]. eexists. by econstructor.
Qed.

Lemma executor_steps_to_quiet w st :
  exists st', executor_steps w st st' /\ executor_quiet w st'.
Proof.
  assert (Hwf : forall n st, executor_rank st < n ->
            exists st', executor_steps w st st' /\ executor_quiet w st').
  { induction n as [|n IH]; intros st1 Hn; [lia|].
    destruct (executor_quiet_or_step w st1) as [Hq|[st2 Hstep]].
    - exists st1. split; [constructor|done].
    - pose proof (executor_step_rank w _ _ Hstep) as Hlt.
      destruct (IH st2) as (st' & Hsteps & Hq); [lia|].
      exists st'. split; [|done].
      eapply executor_steps_trans; [|exact Hsteps].
      eapply executor_steps_step; [constructor|exact Hstep]. }
  apply (Hwf (S (executor_rank st))). lia.
Qed.

(** A statement of a task is a statement of its call of [_load_model], or
    the end of the task, which the callers' view does not see. *)
Lemma executor_step_view w st st' :
  executor_step w st st' ->
  load_view st' = load_view st \/ step w (load_view st) (load_view st').
Proof.
  intros Hstep. inversion Hstep as [st0 i args a self' a' Hi Hts]; subst.
  unfold load_view. cbn [ex_proc ex_tasks].
  rewrite list_fmap_insert. cbn [fst snd].
  assert (Hview : map (fun t => (wa_model_path (fst t), task_caller (snd t)))
                      (ex_tasks st) !! i
                  = Some (wa_model_path args, task_caller a)).
  { change (map ?f ?l) with (f <$> l). by rewrite list_lookup_fmap, Hi. }
  apply task_step_cases in Hts
    as [(b & b' & -> & -> & Hth)|(-> & b & l & r & -> & _ & -> & Hcall & _)].
  - right.
    apply (step_thread w
             {| proc := ex_proc st;
                threads := map (fun t => (wa_model_path (fst t),
                                          task_caller (snd t)))
                               (ex_tasks st) |}
             i (wa_model_path args) b self' b'); done.
  - left. f_equal. rewrite Hcall. by apply list_insert_id.
Qed.

Lemma executor_steps_view w st st' :
  executor_steps w st st' -> steps w (load_view st) (load_view st').
Proof.
  intros Hsteps. induction Hsteps as [|st st' st'' _ IH Hstep]; [constructor|].
  destruct (executor_step_view w _ _ Hstep) as [->|Hview]; [done|].
  by eapply steps_step.
Qed.

Lemma load_view_preload rp (models : pydict string) :
  load_view (preload_executor rp models)
  = {| proc := rp; threads := callers (map snd (preload_tasks rp models)) |}.
Proof.
  unfold load_view, preload_executor, callers. cbn [ex_proc ex_tasks].
  by rewrite !map_map.
Qed.

Lemma executor_steps_length w st st' :
  executor_steps w st st' -> length (ex_tasks st') = length (ex_tasks st).
Proof.
  intros Hsteps. induction Hsteps as [|st st' st'' _ IH Hstep]; [done|].
  inversion Hstep as [st0 i args a self' a' Hi Hts]; subst. cbn [ex_tasks].
  by rewrite length_insert.
Qed.

(** Tasks keep their arguments, and an ended task holds its result. *)
Lemma executor_steps_consistent w st st' :
  executor_steps w st st' ->
  Forall (task_consistent w) (ex_tasks st) ->
  Forall (task_consistent w) (ex_tasks st')
  /\ map fst (ex_tasks st') = map fst (ex_tasks st).
Proof.
  intros Hsteps Hall. induction Hsteps as [|st st' st'' _ IH Hstep]; [done|].
  destruct (IH Hall) as [Hcons Hargs].
  inversion Hstep as [st0 i args a self' a' Hi Hts]; subst. cbn [ex_tasks].
  split.
  - apply Forall_insert; [done|].
    apply task_step_cases in Hts
      as [(b & b' & -> & -> & _)|(_ & b & l & r & _ & _ & _ & _ & Hc)]; done.
  - rewrite <- Hargs. change (map ?f ?l) with (f <$> l).
    rewrite list_fmap_insert. cbn [fst]. apply list_insert_id.
    by rewrite list_lookup_fmap, Hi.
Qed.

(** A thread that can move inside [_load_model] is a task that can
    move. *)
Lemma executor_progress w st i args a :
  (forall j q b,
     threads (load_view st) !! j = Some (q, b) -> finished b = false ->
     exists st', step w (load_view st) st') ->
  ex_tasks st !! i = Some (args, a) ->
  (forall l r, a <> TaskEnded l r) ->
  exists st', executor_step w st st'.
Proof.
  intros Hprogress Hi Hlive.
  destruct a as [b|l r]; [|by destruct (Hlive l r)].
  destruct (finished b) eqn:Hfin.
  { assert (Hmove : is_Some (task_step w (ex_proc st) args (TaskLoading b)))
      by (destruct b; try done; cbn; eauto).
    destruct Hmove as [[self' a'] Hts]. eexists. by econstructor. }
  destruct (Hprogress i (wa_model_path args) b) as [st' Hstep]; [|done|].
  { unfold load_view. cbn [threads]. change (map ?f ?l) with (f <$> l).
    by rewrite list_lookup_fmap, Hi. }
  inversion Hstep as [st0 k q c self' c' Hk Hth]; subst.
  unfold load_view in Hk, Hth. cbn [threads proc] in Hk, Hth.
  change (map ?f ?l) with (f <$> l) in Hk.
  rewrite list_lookup_fmap in Hk.
  destruct (ex_tasks st !! k) as [[args' a']|] eqn:Hk'; [|discriminate Hk].
  cbn in Hk. injection Hk as <- <-.
  destruct a' as [c|[e|h] r]; cbn [task_caller] in Hth;
    [|discriminate Hth|discriminate Hth].
  eexists. econstructor; [exact Hk'|]. by apply task_step_thread.
Qed.

(** When no task can move, all tasks have ended and no caller can move. *)
Lemma executor_quiet_view w st :
  (forall j q b,
     threads (load_view st) !! j = Some (q, b) -> finished b = false ->
     exists st', step w (load_view st) st') ->
  executor_quiet w st ->
  (forall i args a,
     ex_tasks st !! i = Some (args, a) -> exists l r, a = TaskEnded l r)
  /\ quiet w (load_view st).
Proof.
  intros Hprogress Hquiet.
  assert (Hended : forall i args a,
            ex_tasks st !! i = Some (args, a) -> exists l r, a = TaskEnded l r).
  { intros i args a Hi. destruct a as [b|l r]; [|by eauto].
    destruct (executor_progress w st i args (TaskLoading b) Hprogress Hi)
      as [st' Hstep]; [done|]. by apply Hquiet in Hstep. }
  split; [done|]. apply finished_quiet. apply forallb_forall.
  intros [q b] Hin. apply list_elem_of_In in Hin.
  unfold load_view in Hin. cbn [threads] in Hin.
  apply list_elem_of_fmap in Hin as ([args a] & [= -> ->] & Hin).
  apply list_elem_of_lookup in Hin as [i Hi].
  destruct (Hended _ _ _ Hi) as (l & r & ->). by destruct l.
Qed.

(** One task run alone ends with what [_worker_task] returns. *)
Lemma run_task_thread w args n self a :
  pc_rank a <= n ->
  run_task (S n) w self args (TaskLoading a)
  = match run_thread n w self (wa_model_path args) a with
    | (self', PcDone h) =>
        (self', TaskEnded (inr h) (worker_task_rest w h args))
    | (self', PcRaised e) => (self', TaskEnded (inl e) (inl e))
    | (self', a') => (self', TaskLoading a')
    end.
Proof.
  revert self a. induction n as [|n IH]; intros self a Hrank.
  - destruct a; cbn in Hrank; try lia; reflexivity.
  - destruct (finished a) eqn:Hfin.
    { destruct a; try discriminate Hfin; reflexivity. }
    destruct (thread_step w self (wa_model_path args) a) as [[self' a']|]
      eqn:Hth.
    + pose proof (thread_step_rank w _ _ _ _ _ Hth) as Hlt.
      change (run_task (S (S n)) w self args (TaskLoading a))
        with (match task_step w self args (TaskLoading a) with
              | Some (self', at_') => run_task (S n) w self' args at_'
              | None => (self, TaskLoading a)
              end).
      rewrite (task_step_thread w self args a self' a' Hth).
      cbn [run_thread]. rewrite Hth. apply IH. lia.
    + change (run_task (S (S n)) w self args (TaskLoading a))
        with (match task_step w self args (TaskLoading a) with
              | Some (self', at_') => run_task (S n) w self' args at_'
              | None => (self, TaskLoading a)
              end).
      assert (Hstuck : task_step w self args (TaskLoading a) = None).
      { destruct a; try discriminate Hfin; cbn [task_step]; by rewrite Hth. }
      rewrite Hstuck. cbn [run_thread]. rewrite Hth.
      by destruct a.
Qed.

Lemma worker_task_run_task w self args :
  _worker_task w self (wa_model_path args) (wa_observation args)
    (wa_action_masks args) (wa_deterministic args) (wa_return_actions args)
    (wa_return_log_probs args) (wa_return_entropy args)
    (wa_return_values args) (wa_return_probs args) (wa_extensions args)
  = match run_task (S (pc_rank PcCheck)) w self args (TaskLoading PcCheck)
    with
    | (self', TaskEnded _ r) => Some (self', r)
    | _ => None
    end.
Proof.
  rewrite run_task_thread by done.
  unfold _worker_task, _load_model, worker_task_rest.
  destruct (run_thread (pc_rank PcCheck) w self (wa_model_path args) PcCheck)
    as [self' a].
  destruct a; try done.
  by destruct (wa_observation args), (wa_action_masks args).
Qed.

(** The preloads run one after the other on a processor nobody else uses,
    when their locations load: what is loaded, and how often. *)
Lemma run_preloads_loads w rp (tasks : list (Z * string)) :
  idle rp ->
  (forall q, q ∈ map snd tasks -> loadable w rp q) ->
  exists rp' (new : list string),
    run_preloads w rp tasks = Some (rp', ret tt)
    /\ idle rp'
    /\ _device rp' = _device rp
    /\ load_calls rp' = (load_calls rp ++ new)%list
    /\ NoDup new
    /\ (forall q, q ∈ new <-> q ∈ map snd tasks /\ _models rp !! q = None)
    /\ (forall q h, _models rp !! q = Some h -> _models rp' !! q = Some h)
    /\ (forall q, q ∈ map snd tasks -> is_Some (_models rp' !! q)).
Proof.
  revert rp. induction tasks as [|[i q] tasks IH]; intros rp Hidle Hload.
  { exists rp, []. split_and!; try done.
    - by rewrite app_nil_r.
    - apply NoDup_nil_2.
    - intros q. split; [by intros ?%elem_of_nil|].
      by intros [?%elem_of_nil _].
    - by intros q ?%elem_of_nil. }
  cbn [run_preloads map snd] in *.
  unfold ThreadedProcessor_predict, _worker_task.
  destruct (Hload q) as [m Hm]; [left|].
  destruct (_models rp !! q) as [h|] eqn:Hq.
  - rewrite (load_model_cached w rp q h Hq).
    destruct (IH rp Hidle) as (rp' & new & Hrun & Hidle' & Hdev & Hlog
                               & Hnodup & Hnew & Hkept & Hall).
    { intros q' Hq'. apply Hload. by right. }
    rewrite Hrun. exists rp', new. split_and!; try done.
    + intros q'. rewrite Hnew, elem_of_cons. split; [tauto|].
      intros [[->|Hin] Hnone]; [congruence|done].
    + intros q' Hq'. apply elem_of_cons in Hq' as [->|Hq']; [|by apply Hall].
      eexists. by apply Hkept.
  - destruct (load_model_uncached w rp q Hidle Hq)
      as (rp1 & Hrun1 & Hmodels1 & Hlog1 & Hidle1 & Hdev1 & _).
    rewrite Hm in Hrun1, Hmodels1. rewrite Hrun1.
    destruct (IH rp1 Hidle1) as (rp' & new & Hrun & Hidle' & Hdev & Hlog
                                 & Hnodup & Hnew & Hkept & Hall).
    { intros q' Hq'. destruct (Hload q') as [m' Hm']; [by right|].
      exists m'. by rewrite Hdev1. }
    rewrite Hrun. exists rp', (q :: new). split_and!; try done.
    + congruence.
    + by rewrite Hlog, Hlog1, <- app_assoc.
    + apply NoDup_cons. split; [|done]. intros Hin.
      apply Hnew in Hin as [_ Hnone].
      by rewrite Hmodels1, lookup_insert_eq in Hnone.
    + intros q'. rewrite !elem_of_cons, Hnew, Hmodels1. split.
      * intros [->|[Hin Hnone]]; [by split; [left|]|].
        destruct (decide (q' = q)) as [->|Hne];
          [by rewrite lookup_insert_eq in Hnone|].
        rewrite lookup_insert_ne in Hnone by done. split; [by right|done].
      * intros [[->|Hin] Hnone]; [by left|].
        destruct (decide (q' = q)) as [->|Hne]; [by left|].
        right. split; [done|]. by rewrite lookup_insert_ne.
    + intros q' h Hq'. apply Hkept. rewrite Hmodels1.
      rewrite lookup_insert_ne; [done|]. congruence.
    + intros q' Hq'. apply elem_of_cons in Hq' as [->|Hq']; [|by apply Hall].
      eexists. apply Hkept. by rewrite Hmodels1, lookup_insert_eq.
Qed.

Lemma ended_quiet w st :
  forallb (fun t => task_ended (snd t)) (ex_tasks st) = true ->
  executor_quiet w st.
Proof.
  intros Hall st' Hstep.
  inversion Hstep as [st0 i args a self' a' Hi Hts]; subst.
  rewrite forallb_forall in Hall.
  apply list_elem_of_lookup_2, list_elem_of_In, Hall in Hi. cbn in Hi.
  by destruct a.
Qed.

(** A task run alone is a run of the executor in which only that task
    moves. *)
Lemma run_task_steps w fuel st i args a self' a' :
  ex_tasks st !! i = Some (args, a) ->
  run_task fuel w (ex_proc st) args a = (self', a') ->
  executor_steps w st
    {| ex_proc := self'; ex_tasks := <[i := (args, a')]> (ex_tasks st) |}.
Proof.
  revert st a. induction fuel as [|fuel IH]; intros st a Hi Hrun.
  - cbn in Hrun. injection Hrun as <- <-.
    rewrite list_insert_id by done. destruct st. constructor.
  - cbn [run_task] in Hrun.
    destruct (task_step w (ex_proc st) args a) as [[p1 a1]|] eqn:Hts.
    + set (st1 := {| ex_proc := p1;
                     ex_tasks := <[i := (args, a1)]> (ex_tasks st) |}).
      assert (Hi1 : ex_tasks st1 !! i = Some (args, a1)).
      { apply list_lookup_insert_eq. by eapply lookup_lt_Some. }
      pose proof (IH st1 a1 Hi1 Hrun) as Hrest.
      cbn [st1 ex_tasks] in Hrest. rewrite list_insert_insert_eq in Hrest.
      eapply executor_steps_trans; [|exact Hrest].
      eapply executor_steps_step; [constructor|]. by econstructor.
    + injection Hrun as <- <-.
      rewrite list_insert_id by done. destruct st. constructor.
Qed.

(** The preloads run one after the other are one of the runs of the
    executor: each task runs from its start to its end while the tasks
    after it have not started. *)
Lemma run_preloads_schedule w rp (tasks : list (Z * string)) rp' r
    (before : list (worker_args * task_pc)) :
  run_preloads w rp tasks = Some (rp', r) ->
  exists ended,
    executor_steps w
      {| ex_proc := rp;
         ex_tasks := (before
                      ++ map (fun t => (preload_args (snd t),
                                        TaskLoading PcCheck)) tasks)%list |}
      {| ex_proc := rp'; ex_tasks := (before ++ ended)%list |}
    /\ Forall (fun t => task_ended (snd t) = true) ended.
Proof.
  revert rp r before.
  induction tasks as [|[i q] tasks IH]; intros rp r before Hrun.
  { cbn in Hrun. injection Hrun as <- _. exists []. split; constructor. }
  cbn [run_preloads] in Hrun.
  pose proof (worker_task_run_task w rp (preload_args q)) as Halone.
  cbn [preload_args wa_model_path wa_observation wa_action_masks
       wa_deterministic wa_return_actions wa_return_log_probs
       wa_return_entropy wa_return_values wa_return_probs wa_extensions]
    in Halone.
  unfold ThreadedProcessor_predict in Hrun. rewrite Halone in Hrun.
  destruct (run_task (S (pc_rank PcCheck)) w rp (preload_args q)
              (TaskLoading PcCheck)) as [rp1 a1] eqn:Htask.
  destruct a1 as [a1|l r1]; [discriminate Hrun|].
  destruct (run_preloads w rp1 tasks) as [[rp2 r2]|] eqn:Hrest;
    [|discriminate Hrun].
  injection Hrun as <- _.
  destruct (IH rp1 r2 (before ++ [(preload_args q, TaskEnded l r1)])%list
              Hrest) as (ended & Hsteps & Hended).
  exists ((preload_args q, TaskEnded l r1) :: ended). split.
  - cbn [map snd].
    set (st := {| ex_proc := rp;
                  ex_tasks := (before
                               ++ (preload_args q, TaskLoading PcCheck)
                                  :: map (fun t => (preload_args (snd t),
                                                    TaskLoading PcCheck))
                                         tasks)%list |}).
    assert (Hi : ex_tasks st !! length before
                 = Some (preload_args q, TaskLoading PcCheck)).
    { cbn [st ex_tasks]. by rewrite lookup_app_r, Nat.sub_diag by lia. }
    pose proof (run_task_steps w _ st _ _ _ _ _ Hi Htask) as Hfirst.
    cbn [st ex_tasks] in Hfirst.
    rewrite insert_app_r_alt, Nat.sub_diag in Hfirst by lia.
    cbn [insert list_insert] in Hfirst.
    eapply executor_steps_trans; [exact Hfirst|].
    rewrite <- !app_assoc in Hsteps. exact Hsteps.
  - by constructor.
Qed.

(** C5.  A fresh processor is given the preload tasks of
    [_preload_models], one [_worker_task] per pool slot per catalog entry,
    poolSize x catalogSize tasks in all, for a catalog whose locations can
    all be loaded.  Whatever the interleaving of the executor's threads:
    the number of calls of [PPO.load] never exceeds catalogSize, every
    statement run brings the end closer, some thread can move as long as
    a task has not ended, and the run can be continued until no thread
    can move; and once no thread can move, every task has ended, exactly
    catalogSize calls of [PPO.load] have been made, one for each location
    of the catalog, and every task has got the cached handle of its
    location from [_load_model] and returned the empty prediction of a
    preload.  Run one after the other, as [_preload_models] on an
    executor with one worker runs them, the tasks make the same
    catalogSize calls and leave every location cached, and this is one of
    the runs of the executor; a task run alone is [predict], that is
    [_worker_task], on the task's arguments.  A
    preload for a location that is already loaded makes no call of
    [PPO.load], leaves the processor as it is and gets the cached
    handle. *)
Theorem warm_up_loads_each_model_once w models_path listing pool_size device :
  NoDup listing ->
  (0 < pool_size)%Z ->
  let catalog := scan_models models_path listing in
  let rp := fresh_processor pool_size device in
  let tasks := preload_tasks rp catalog in
  (forall q, q ∈ dict_values catalog -> loadable w rp q) ->
  length tasks = Z.to_nat pool_size * length catalog
  /\ (forall st,
        executor_steps w (preload_executor rp catalog) st ->
        length (load_calls (ex_proc st)) <= length catalog
        /\ (forall st',
              executor_step w st st' -> executor_rank st' < executor_rank st)
        /\ (forall i args a,
              ex_tasks st !! i = Some (args, a) -> task_ended a = false ->
              exists st', executor_step w st st')
        /\ (exists st', executor_steps w st st' /\ executor_quiet w st')
        /\ (executor_quiet w st ->
            load_calls (ex_proc st) ≡ₚ dict_values catalog
            /\ length (load_calls (ex_proc st)) = length catalog
            /\ length (ex_tasks st) = Z.to_nat pool_size * length catalog
            /\ forall i args a,
                 ex_tasks st !! i = Some (args, a) ->
                 exists h,
                   a = TaskEnded (inr h) (ret no_prediction)
                   /\ wa_model_path args ∈ dict_values catalog
                   /\ _models (ex_proc st) !! wa_model_path args = Some h))
  /\ (forall self,
        remote_processor self = Some rp -> models self = catalog ->
        exists rp',
          _preload_models w self
          = Some (set_remote_processor (Some rp') self, ret tt)
          /\ idle rp'
          /\ load_calls rp' ≡ₚ dict_values catalog
          /\ length (load_calls rp') = length catalog
          /\ (forall q, q ∈ dict_values catalog -> is_Some (_models rp' !! q))
          /\ exists st,
               executor_steps w (preload_executor rp catalog) st
               /\ executor_quiet w st
               /\ ex_proc st = rp')
  /\ (forall p process_id args,
        ThreadedProcessor_predict w p process_id (wa_model_path args)
          (wa_observation args) (wa_action_masks args)
          (wa_deterministic args) (wa_return_actions args)
          (wa_return_log_probs args) (wa_return_entropy args)
          (wa_return_values args) (wa_return_probs args) (wa_extensions args)
        = match run_task (S (pc_rank PcCheck)) w p args (TaskLoading PcCheck)
          with
          | (p', TaskEnded _ r) => Some (p', r)
          | _ => None
          end)
  /\ (forall p path h,
        _models p !! path = Some h ->
        _load_model w p path = Some (p, inr h)
        /\ ThreadedProcessor_predict w p 0 path None None
             (DetValue (JBool false)) (JBool true) (JBool false)
             (JBool false) (JBool false) (JBool false) (JArr [])
           = Some (p, ret no_prediction)).
Proof.
  intros Hnd Hpool catalog rp tasks Hload.
  assert (Hvalues : NoDup (dict_values catalog))
    by by apply scan_models_values_NoDup.
  assert (Hlen : length (dict_values catalog) = length catalog)
    by apply length_map.
  assert (Hpaths : forall q, q ∈ map snd tasks <-> q ∈ dict_values catalog)
    by (intros q; by apply (preload_tasks_paths rp catalog q)).
  split; [apply preload_tasks_length|]. split; [|split; [|split]].
  - intros st Hsteps.
    assert (Hinv : single_flight w ∅ [] (map snd tasks) (load_view st)).
    { eapply single_flight_steps; [|by apply executor_steps_view].
      rewrite load_view_preload.
      apply (single_flight_init w rp (map snd tasks)); [done|].
      intros q Hq _. by apply Hload, Hpaths. }
    assert (Hprogress : forall j q b,
              threads (load_view st) !! j = Some (q, b) ->
              finished b = false ->
              exists st', step w (load_view st) st').
    { intros j q b. by eapply single_flight_progress. }
    destruct (sf_calls _ _ _ _ _ Hinv) as (new & Hlog & Hnodup & Hnew).
    cbn [app load_view proc] in Hlog. rewrite Hlog.
    assert (Hsub : forall q, q ∈ new -> q ∈ dict_values catalog).
    { intros q Hq.
      eapply single_flight_new_in_paths in Hq; [|exact Hinv|exact Hnew].
      by apply Hpaths. }
    split; [|split; [|split; [|split]]].
    + rewrite <- Hlen. apply submseteq_length. by apply NoDup_submseteq.
    + apply executor_step_rank.
    + intros i args a Hi Hlive.
      eapply executor_progress; [exact Hprogress|exact Hi|].
      intros l r ->. discriminate Hlive.
    + apply executor_steps_to_quiet.
    + intros Hquiet.
      destruct (executor_quiet_view w st Hprogress Hquiet)
        as [Hended Hquiet'].
      assert (Hdone : forall i args a,
                ex_tasks st !! i = Some (args, a) ->
                exists h, task_caller a = PcDone h
                          /\ _models (ex_proc st) !! wa_model_path args
                             = Some h).
      { intros i args a Hi.
        apply (single_flight_quiet w _ _ _ _ i _ _ Hinv Hquiet').
        unfold load_view. cbn [threads]. change (map ?f ?l) with (f <$> l).
        by rewrite list_lookup_fmap, Hi. }
      assert (Hperm : new ≡ₚ dict_values catalog).
      { apply NoDup_Permutation; [done|done|]. intros q. split; [apply Hsub|].
        intros Hq. apply Hpaths in Hq.
        rewrite <- (sf_paths _ _ _ _ _ Hinv) in Hq.
        apply list_elem_of_fmap in Hq as ([q' a] & -> & Hin).
        apply list_elem_of_lookup in Hin as [i Hi].
        destruct (single_flight_quiet w _ _ _ _ _ _ _ Hinv Hquiet' Hi)
          as (h & -> & Hh).
        apply Hnew. split; [done|]. left. eauto. }
      destruct (executor_steps_consistent w _ _ Hsteps) as [Hcons Hargs].
      { unfold preload_executor. cbn [ex_tasks].
        apply Forall_forall. intros t Ht.
        by apply list_elem_of_fmap in Ht as (x & -> & _). }
      split; [done|]. split; [by rewrite Hperm|]. split.
      { rewrite (executor_steps_length _ _ _ Hsteps).
        unfold preload_executor. cbn [ex_tasks].
        rewrite length_map. apply preload_tasks_length. }
      intros i args a Hi.
      destruct (Hdone _ _ _ Hi) as (h & Hcall & Hh).
      destruct (Hended _ _ _ Hi) as (l & r & ->).
      destruct l as [e|h']; [discriminate Hcall|].
      cbn in Hcall. injection Hcall as ->.
      assert (Hin : args ∈ map fst (ex_tasks st)).
      { apply list_elem_of_fmap. exists (args, TaskEnded (inr h) r).
        split; [done|]. by eapply list_elem_of_lookup_2. }
      rewrite Hargs in Hin. unfold preload_executor in Hin.
      cbn [ex_tasks] in Hin. rewrite map_map in Hin. cbn [fst] in Hin.
      apply list_elem_of_fmap in Hin as (t & -> & Ht).
      rewrite Forall_forall in Hcons.
      pose proof (Hcons _ (list_elem_of_lookup_2 _ _ _ Hi)) as Hr.
      cbn in Hr. exists h. split; [by rewrite Hr|]. split; [|done].
      apply Hpaths. apply list_elem_of_fmap. by exists t.
  - intros self Hrp Hmodels. unfold _preload_models. rewrite Hrp, Hmodels.
    destruct (run_preloads_loads w rp tasks) as
      (rp' & new & Hrun & Hidle' & _ & Hlog & Hnodup & Hnew & _ & Hall);
      [done| |].
    { intros q Hq. by apply Hload, Hpaths. }
    fold catalog. fold rp. fold tasks. rewrite Hrun.
    exists rp'. cbn [app] in Hlog. rewrite Hlog.
    assert (Hperm : new ≡ₚ dict_values catalog).
    { apply NoDup_Permutation; [done|done|]. intros q.
      rewrite Hnew, Hpaths. split; [tauto|]. by split. }
    split_and!; try done.
    + by rewrite Hperm.
    + intros q Hq. by apply Hall, Hpaths.
    + destruct (run_preloads_schedule w rp tasks rp' (ret tt) [] Hrun)
        as (ended & Hsteps & Hended).
      eexists. split; [exact Hsteps|]. split; [|done].
      apply ended_quiet. cbn [ex_tasks app]. apply forallb_forall.
      intros t Ht. rewrite Forall_forall in Hended.
      by apply Hended, list_elem_of_In.
  - intros p process_id args. exact (worker_task_run_task w p args).
  - intros p path h Hh.
    pose proof (load_model_cached w p path h Hh) as Hcached.
    split; [done|].
    unfold ThreadedProcessor_predict, _worker_task. by rewrite Hcached.
Qed.

Lemma warm_up_loads_each_model_once_witness :
  let catalog := scan_models "models" ["bronze_agility.zip"; "notes.txt"] in
  let rp := fresh_processor 2 "cpu" in
  let st := run_executor toy_world (alternate 20)
              (preload_executor rp catalog) in
  length (preload_tasks rp catalog) = 2
  /\ length (load_calls (ex_proc st)) = 1
  /\ exists rp',
       _preload_models toy_world
         (set_server false toy_server)
       = Some (set_remote_processor (Some rp') (set_server false toy_server),
               ret tt)
       /\ length (load_calls rp') = 1.
Proof.
  intros catalog rp st.
  assert (Hnodup : NoDup ["bronze_agility.zip"; "notes.txt"]).
  { apply NoDup_cons. split; [|apply NoDup_cons; split; [|apply NoDup_nil_2]].
    - intros Hin. apply list_elem_of_singleton in Hin. discriminate Hin.
    - apply not_elem_of_nil. }
  destruct (warm_up_loads_each_model_once toy_world "models"
              ["bronze_agility.zip"; "notes.txt"] 2 "cpu" Hnodup eq_refl)
    as (Hlen & Hrun & Hseq & _).
  { intros q Hq. apply list_elem_of_singleton in Hq as ->.
    by exists toy_model. }
  split; [exact Hlen|]. split.
  - destruct (Hrun st (run_executor_steps toy_world (alternate 20) _))
      as (_ & _ & _ & _ & Hquiet).
    destruct Hquiet as (_ & Hcount & _); [|exact Hcount].
    apply ended_quiet. reflexivity.
  - destruct (Hseq (set_server false toy_server) eq_refl eq_refl)
      as (rp' & Hpre & _ & _ & Hcount & _ & _).
    exists rp'. by split.
Defined.

(** ** The handler and the processor, one request at a time *)

Lemma load_model_idle w p path :
  idle p ->
  exists p' r,
    _load_model w p path = Some (p', r)
    /\ idle p'
    /\ _device p' = _device p /\ _pool_size p' = _pool_size p
    /\ (forall q h, _models p !! q = Some h -> _models p' !! q = Some h)
    /\ (forall h, r = inr h -> _models p' !! path = Some h)
    /\ (forall e, r = inl e -> _models p' = _models p)
    /\ (forall q, q <> path -> _models p' !! q = _models p !! q)
    /\ (is_Some (_models p !! path) -> p' = p)
    /\ (_models p !! path = None ->
        load_calls p' = (load_calls p ++ [path])%list
        /\ r = match PPO_load w path (_device p) with
               | inr m => inr (Handle (length (load_calls p)) m)
               | inl e => inl e
               end).
Proof.
  intros Hidle. destruct (_models p !! path) as [h|] eqn:Hm.
  - exists p, (inr h). rewrite (load_model_cached w p path h Hm).
    split_and!; try done.
    by intros h' [= <-].
  - destruct (load_model_uncached w p path Hidle Hm)
      as (p' & Hrun & Hmodels & Hlog & Hidle' & Hdev & Hpool).
    eexists p', _. split; [exact Hrun|].
    destruct (PPO_load w path (_device p)) as [e|m]; rewrite Hmodels;
      split_and!; try done.
    + intros q h Hq. rewrite lookup_insert_ne; [done|]. congruence.
    + intros h [= <-]. by rewrite lookup_insert_eq.
    + intros q Hq. by rewrite lookup_insert_ne.
Qed.

Lemma dict_get_value {V} k (v : V) (d : pydict V) :
  dict_get k d = Some v -> v ∈ dict_values d.
Proof.
  unfold dict_values. induction d as [|[k' v'] d IH]; [done|]. cbn.
  destruct (String.eqb k k').
  - intros [= ->]. left.
  - intros H. right. by apply IH.
Qed.

Lemma set_remote_processor_same self rp :
  remote_processor self = Some rp -> set_remote_processor (Some rp) self = self.
Proof. destruct self. cbn. by intros ->. Qed.

(** One request on a server whose processor nobody else uses: either
    nothing changes, or the model of the request, not cached so far, went
    through [PPO.load]. *)
Lemma process_request_step w self request :
  processor_idle self ->
  exists self' r,
    _process_request w self request = Some (self', r)
    /\ (self' = self
        \/ exists rp rp' name path,
             remote_processor self = Some rp
             /\ model request = JStr name
             /\ dict_get name (models self) = Some path
             /\ _models rp !! path = None
             /\ self' = set_remote_processor (Some rp') self
             /\ idle rp'
             /\ _device rp' = _device rp
             /\ load_calls rp' = (load_calls rp ++ [path])%list
             /\ (forall q, q <> path -> _models rp' !! q = _models rp !! q)
             /\ match PPO_load w path (_device rp) with
                | inr m =>
                    _models rp' !! path
                    = Some (Handle (length (load_calls rp)) m)
                | inl e => _models rp' !! path = None /\ r = inl e
                end).
Proof.
  intros Hidle. unfold _process_request.
  match goal with
  | |- context [match ?b with inl _ => _ | inr _ => _ end] =>
      destruct b as [e|[[[[rp obs_t] masks_t] det] path]] eqn:Hbefore
  end.
  { eexists _, _. split; [reflexivity|]. by left. }
  assert (Hfacts : remote_processor self = Some rp
                   /\ exists name, model request = JStr name
                                   /\ dict_get name (models self) = Some path).
  { case_res Hbefore. destruct b; [|discriminate Hbefore]. cbn [negb] in Hbefore.
    do 5 case_res Hbefore.
    destruct (remote_processor self) as [rp0|] eqn:Hrp; [|discriminate].
    cbn [bind ret] in Hbefore.
    do 2 case_res Hbefore. cbn in Hbefore. injection Hbefore as <- <- <- <- <-.
    split; [done|].
    match goal with H : dict_getitem_val _ _ _ = inr _ |- _ => rename H into Hget end.
    unfold dict_getitem_val in Hget.
    destruct (model request) as [| | | |name| |]; try discriminate Hget.
    cbn in Hget. destruct (dict_get name (models self)) eqn:Hd; [|discriminate].
    injection Hget as ->. eauto. }
  destruct Hfacts as (Hrp & name & Hname & Hget).
  unfold processor_idle in Hidle. rewrite Hrp in Hidle.
  unfold ThreadedProcessor_predict, _worker_task.
  destruct (load_model_idle w rp path Hidle)
    as (rp' & r & Hrun & Hidle' & Hdev & _ & _ & Hres & Hfail & Hother
        & Hcached & Hload).
  rewrite Hrun.
  destruct (_models rp !! path) as [h|] eqn:Hm.
  - assert (rp' = rp) as -> by (apply Hcached; eauto).
    destruct r; rewrite set_remote_processor_same by done;
      eexists _, _; (split; [reflexivity|by left]).
  - destruct (Hload eq_refl) as [Hlog Hr].
    assert (Hright : forall result : res InferenceResponse,
      (match PPO_load w path (_device rp) with
       | inr _ => True | inl e => result = inl e end) ->
      exists self' r0,
        Some (set_remote_processor (Some rp') self, result) = Some (self', r0)
        /\ (self' = self \/ exists rp0 rp'0 name0 path0,
             remote_processor self = Some rp0
             /\ model request = JStr name0
             /\ dict_get name0 (models self) = Some path0
             /\ _models rp0 !! path0 = None
             /\ self' = set_remote_processor (Some rp'0) self
             /\ idle rp'0
             /\ _device rp'0 = _device rp0
             /\ load_calls rp'0 = (load_calls rp0 ++ [path0])%list
             /\ (forall q, q <> path0 -> _models rp'0 !! q = _models rp0 !! q)
             /\ match PPO_load w path0 (_device rp0) with
                | inr m =>
                    _models rp'0 !! path0
                    = Some (Handle (length (load_calls rp0)) m)
                | inl e => _models rp'0 !! path0 = None /\ r0 = inl e
                end)).
    { intros result Hresult. eexists _, _. split; [reflexivity|]. right.
      exists rp, rp', name, path. split_and!; try done.
      destruct (PPO_load w path (_device rp)) as [e|m].
      - split; [|done]. by rewrite (Hfail e Hr).
      - by apply Hres. }
    destruct r as [e|h]; [apply Hright|apply Hright].
    + destruct (PPO_load w path (_device rp)); [by injection Hr as ->|done].
    + destruct (PPO_load w path (_device rp)); [discriminate Hr|done].
Qed.

Lemma request_effect_idle w self self' :
  processor_idle self -> request_effect w self self' -> processor_idle self'.
Proof.
  intros Hidle [->|(rp & rp' & path & _ & _ & _ & -> & Hidle' & _)]; [done|].
  done.
Qed.

Lemma try_body_step w self parsed :
  processor_idle self ->
  exists self' r,
    try_body w self parsed = Some (self', r) /\ request_effect w self self'.
Proof.
  intros Hidle. unfold try_body.
  destruct parsed as [e|request_json].
  { eexists _, _. split; [reflexivity|by left]. }
  destruct (InferenceRequest_init w request_json) as [e|request].
  { eexists _, _. split; [reflexivity|by left]. }
  destruct (process_request_step w self request Hidle)
    as (self' & r & Hrun & Heffect).
  rewrite Hrun. eexists _, _. split; [reflexivity|].
  destruct Heffect as [->|(rp & rp' & name & path & Hrp & _ & Hget & Hm & ->
                           & Hidle' & Hdev & Hlog & Hother & Hload)];
    [by left|].
  right. exists rp, rp', path. split_and!; try done.
  - by eapply dict_get_value.
  - destruct (PPO_load w path (_device rp)); [apply Hload|done].
Qed.

(** A handler on a server whose processor nobody else uses closes in the
    end, having served its requests one after the other. *)
Lemma handle_client_closes w self events :
  processor_idle self ->
  exists out self',
    _handle_client w self events = (out, Closed, self')
    /\ rtc (request_effect w) self self'
    /\ processor_idle self'
    /\ length out <= 2 * lines_until_error events
    /\ (0 < lines_until_error events -> 0 < length out)
    /\ (Forall drains_ok events -> length out = lines_until_error events).
Proof.
  revert self. induction events as [|ev events IH]; intros self Hidle.
  { exists [], self. split_and!; try done; cbn; lia. }
  destruct ev as [parsed drains|e]; cbn [_handle_client lines_until_error].
  2:{ exists [], self. split_and!; try done; cbn; lia. }
  destruct (try_body_step w self parsed Hidle) as (self1 & r & Htry & Heffect).
  rewrite Htry.
  assert (Hidle1 : processor_idle self1) by by eapply request_effect_idle.
  destruct (IH self1 Hidle1)
    as (out & self' & Hrest & Hrtc & Hidle' & Hle & _ & Heq).
  assert (Hrtc' : rtc (request_effect w) self self') by by eapply rtc_l.
  assert (Hone : rtc (request_effect w) self self1) by by apply rtc_once.
  destruct r as [e|line].
  - destruct (nth 0 drains None) as [e0|] eqn:Hdrain.
    + eexists _, _. split; [reflexivity|]. split_and!; try done.
      * cbn. lia.
      * cbn. lia.
      * intros Hok. apply Forall_cons in Hok as [Hok _]. cbn in Hok. congruence.
    + rewrite Hrest. eexists _, _. split; [reflexivity|]. split_and!; try done.
      * cbn. lia.
      * cbn. lia.
      * intros Hok. apply Forall_cons in Hok as [_ Hok]. cbn. by rewrite Heq.
  - destruct (nth 0 drains None) as [e0|] eqn:Hdrain.
    + destruct (nth 1 drains None) as [e1|].
      * eexists _, _. split; [reflexivity|]. split_and!; try done.
        -- cbn. lia.
        -- cbn. lia.
        -- intros Hok. apply Forall_cons in Hok as [Hok _]. cbn in Hok.
           congruence.
      * rewrite Hrest. eexists _, _. split; [reflexivity|].
        split_and!; try done.
        -- cbn. lia.
        -- cbn. lia.
        -- intros Hok. apply Forall_cons in Hok as [Hok _]. cbn in Hok.
           congruence.
    + rewrite Hrest. eexists _, _. split; [reflexivity|]. split_and!; try done.
      * cbn. lia.
      * cbn. lia.
      * intros Hok. apply Forall_cons in Hok as [_ Hok]. cbn. by rewrite Heq.
Qed.

(** What a run of requests, one after the other, does to the processor:
    the load calls it adds and the models it leaves cached. *)
Lemma request_effects_processor w self self' rp :
  remote_processor self = Some rp ->
  idle rp ->
  rtc (request_effect w) self self' ->
  exists rp' (new : list string),
    self' = set_remote_processor (Some rp') self
    /\ idle rp'
    /\ _device rp' = _device rp
    /\ load_calls rp' = (load_calls rp ++ new)%list
    /\ (forall q, q ∈ new ->
          q ∈ dict_values (models self) /\ _models rp !! q = None)
    /\ (forall q h, _models rp !! q = Some h -> _models rp' !! q = Some h)
    /\ (forall q, q ∉ new -> _models rp' !! q = _models rp !! q)
    /\ ((forall q, q ∈ dict_values (models self) -> loadable w rp q) ->
        NoDup new /\ forall q, q ∈ new -> is_Some (_models rp' !! q)).
Proof.
  intros Hrp Hidle Hrtc. revert rp Hrp Hidle.
  induction Hrtc as [self|self self1 self' Hstep Hrtc IH]; intros rp Hrp Hidle.
  { exists rp, []. split_and!; try done.
    - by rewrite set_remote_processor_same.
    - by rewrite app_nil_r.
    - intros q Hq. by apply elem_of_nil in Hq.
    - intros _. split; [apply NoDup_nil_2|].
      intros q Hq. by apply elem_of_nil in Hq. }
  destruct Hstep as [->|(rp0 & rp1 & path & Hrp0 & Hpath & Habsent & ->
                         & Hidle1 & Hdev1 & Hlog1 & Hother1 & Hload1)];
    [by apply IH|].
  assert (rp0 = rp) as -> by congruence.
  destruct (IH rp1 eq_refl Hidle1)
    as (rp' & new & -> & Hidle' & Hdev & Hlog & Hnew & Hkept & Hrest & Hall).
  cbn [models set_remote_processor] in *.
  exists rp', (path :: new). split_and!; try done.
  - congruence.
  - rewrite Hlog, Hlog1, <- app_assoc. reflexivity.
  - intros q Hq. apply elem_of_cons in Hq as [->|Hq]; [done|].
    destruct (Hnew q Hq) as [Hin Hnone]. split; [done|].
    destruct (decide (q = path)) as [->|Hne]; [done|].
    by rewrite <- Hother1.
  - intros q h Hq. apply Hkept.
    destruct (decide (q = path)) as [->|Hne]; [congruence|].
    by rewrite Hother1.
  - intros q Hq. apply not_elem_of_cons in Hq as [Hne Hq].
    by rewrite Hrest, Hother1.
  - intros Hloadable.
    destruct Hall as [Hnodup Hcached].
    { intros q Hq. destruct (Hloadable q Hq) as [m Hm]. exists m.
      by rewrite Hdev1. }
    destruct (Hloadable path Hpath) as [m Hm]. rewrite Hm in Hload1.
    split.
    + apply NoDup_cons. split; [|done].
      intros Hin. destruct (Hnew path Hin) as [_ Hnone]. congruence.
    + intros q Hq. apply elem_of_cons in Hq as [->|Hq]; [|by apply Hcached].
      eexists. by eapply Hkept.
Qed.

(** X1.  A call of the connection handler on a server whose processor
    nobody else uses (server.py lines 104-144).  When the peer name has
    its two components, the handler never waits for ever and ends by
    closing the writer, leaving no lock held; it hands at most two lines
    to the writer for each line read before the stream ends or fails (the
    second is the error line that follows a failed write), at least one
    line if it read any, and exactly one for each line read when the
    writes succeed.  When the peer name is [None] or has fewer than two
    components, the handler raises before its [try] ([TypeError],
    [ValueError]): it reads nothing, writes nothing, leaves the server as
    it is, and does not close the writer. *)
Theorem handler_answers_each_line w self events :
  processor_idle self ->
  (forall client_ip client_port rest,
     exists out self',
       _handle_client_call w self (Some (client_ip :: client_port :: rest))
         events = (out, Entered Closed, self')
       /\ _handle_client w self events = (out, Closed, self')
       /\ processor_idle self'
       /\ length out <= 2 * lines_until_error events
       /\ (0 < lines_until_error events -> 0 < length out)
       /\ (Forall drains_ok events -> length out = lines_until_error events))
  /\ _handle_client_call w self None events
     = ([], RaisedBeforeTry TypeError, self)
  /\ (forall peername,
        length peername < 2 ->
        _handle_client_call w self (Some peername) events
        = ([], RaisedBeforeTry ValueError, self)).
Proof.
  intros Hidle. split; [|split; [done|]].
  - intros client_ip client_port rest.
    destruct (handle_client_closes w self events Hidle)
      as (out & self' & Hrun & _ & Hidle' & Hle & Hpos & Heq).
    exists out, self'. cbn [_handle_client_call]. rewrite Hrun.
    by split_and!.
  - intros [|client_ip [|client_port rest]] Hlen; [done|done|].
    cbn in Hlen. lia.
Qed.

Lemma handler_answers_each_line_witness :
  let events :=
    [ReadLine (inr (toy_request "iron_agility" [])) [];
     ReadLine (inr (toy_request "bronze_agility" [])) [];
     ReadError (Raise OSError "reset");
     ReadLine (inr (toy_request "bronze_agility" [])) []] in
  (exists out self',
     _handle_client_call toy_world toy_server
       (Some [JStr "127.0.0.1"; JInt 50000]) events
     = (out, Entered Closed, self')
     /\ length out = 2)
  /\ _handle_client_call toy_world toy_server None events
     = ([], RaisedBeforeTry TypeError, toy_server).
Proof.
  intros events.
  destruct (handler_answers_each_line toy_world toy_server events)
    as (Hcall & Hnone & _); [by split|].
  split; [|exact Hnone].
  destruct (Hcall (JStr "127.0.0.1") (JInt 50000) [])
    as (out & self' & Hrun & _ & _ & _ & _ & Heq).
  exists out, self'. split; [exact Hrun|]. apply Heq.
  repeat constructor.
Defined.

(** X2.  What a connection leaves of the server (server.py lines 104-226),
    when nobody else uses the processor: only the processor is replaced;
    host, port, listener and catalog are as before; its device is as
    before; every model that was cached is still cached, the same object
    under the same location; and [PPO.load] was called only for catalog
    locations that were not cached when the connection began, the cache
    being unchanged at every other location. *)
Theorem connection_keeps_catalog_and_models w self events rp :
  remote_processor self = Some rp ->
  idle rp ->
  exists out rp' (new : list string),
    _handle_client w self events
    = (out, Closed, set_remote_processor (Some rp') self)
    /\ _device rp' = _device rp
    /\ load_calls rp' = (load_calls rp ++ new)%list
    /\ (forall q, q ∈ new ->
          q ∈ dict_values (models self) /\ _models rp !! q = None)
    /\ (forall q h, _models rp !! q = Some h -> _models rp' !! q = Some h)
    /\ (forall q, q ∉ new -> _models rp' !! q = _models rp !! q).
Proof.
  intros Hrp Hidle.
  destruct (handle_client_closes w self events)
    as (out & self' & Hrun & Hrtc & _); [unfold processor_idle; by rewrite Hrp|].
  destruct (request_effects_processor w self self' rp Hrp Hidle Hrtc)
    as (rp' & new & -> & _ & Hdev & Hlog & Hnew & Hkept & Hrest & _).
  exists out, rp', new. by split_and!.
Qed.

Lemma connection_keeps_catalog_and_models_witness :
  let events :=
    [ReadLine (inr (toy_request "bronze_agility" [])) [];
     ReadLine (inr (toy_request "bronze_agility" [])) []] in
  exists out rp' (new : list string),
    _handle_client toy_world toy_server events
    = (out, Closed, set_remote_processor (Some rp') toy_server)
    /\ load_calls rp' = new
    /\ forall q, q ∈ new -> q ∈ ["models/bronze_agility.zip"].
Proof.
  intros events.
  destruct (connection_keeps_catalog_and_models toy_world toy_server events
              (fresh_processor 2 "cpu") eq_refl (conj eq_refl eq_refl))
    as (out & rp' & new & Hrun & _ & Hlog & Hnew & _).
  exists out, rp', new. split; [exact Hrun|]. split; [exact Hlog|].
  intros q Hq. exact (proj1 (Hnew q Hq)).
Defined.

(** X3.  A connection loads each location at most once (server.py lines
    104-226 with remote_processor.py lines 174-197), when nobody else uses
    the processor and the catalog's locations load: the calls of
    [PPO.load] it adds are for distinct locations, each of them cached
    when the connection ends, so there are at most as many as the catalog
    has entries, however many requests the connection carries. *)
Theorem connection_loads_each_location_once w self events rp :
  remote_processor self = Some rp ->
  idle rp ->
  (forall q, q ∈ dict_values (models self) -> loadable w rp q) ->
  exists out rp' (new : list string),
    _handle_client w self events
    = (out, Closed, set_remote_processor (Some rp') self)
    /\ load_calls rp' = (load_calls rp ++ new)%list
    /\ NoDup new
    /\ (forall q, q ∈ new -> is_Some (_models rp' !! q))
    /\ length new <= length (models self).
Proof.
  intros Hrp Hidle Hloadable.
  destruct (handle_client_closes w self events)
    as (out & self' & Hrun & Hrtc & _); [unfold processor_idle; by rewrite Hrp|].
  destruct (request_effects_processor w self self' rp Hrp Hidle Hrtc)
    as (rp' & new & -> & _ & _ & Hlog & Hnew & _ & _ & Hall).
  destruct (Hall Hloadable) as [Hnodup Hcached].
  exists out, rp', new. split_and!; try done.
  assert (Hsub : new ⊆+ dict_values (models self)).
  { apply NoDup_submseteq; [done|]. intros q Hq. by apply Hnew. }
  apply submseteq_length in Hsub. unfold dict_values in Hsub.
  by rewrite length_map in Hsub.
Qed.

Lemma connection_loads_each_location_once_witness :
  let events :=
    [ReadLine (inr (toy_request "bronze_agility" [])) [];
     ReadLine (inr (toy_request "bronze_agility" [])) [];
     ReadLine (inr (toy_request "bronze_agility" [])) []] in
  exists out rp',
    _handle_client toy_world toy_server events
    = (out, Closed, set_remote_processor (Some rp') toy_server)
    /\ length (load_calls rp') <= 1.
Proof.
  intros events.
  destruct (connection_loads_each_location_once toy_world toy_server events
              (fresh_processor 2 "cpu") eq_refl (conj eq_refl eq_refl))
    as (out & rp' & new & Hrun & Hlog & _ & _ & Hlen).
  - intros q Hq. apply list_elem_of_singleton in Hq as ->.
    by exists toy_model.
  - exists out, rp'. split; [exact Hrun|]. rewrite Hlog. exact Hlen.
Defined.

(** X4.  What one request does to the server (server.py lines 146-198,
    remote_processor.py lines 131-197), when nobody else uses the
    processor: it always returns or raises; it leaves the server as it
    was, or it has called [PPO.load] once, for the catalog location of the
    model it names, which was not cached; then that location is cached if
    the load succeeded, and if it failed nothing is cached there and the
    request raises the load's exception; no other location changes. *)
Theorem request_loads_only_its_model w self request :
  processor_idle self ->
  exists self' r,
    _process_request w self request = Some (self', r)
    /\ (self' = self
        \/ exists rp rp' name path,
             remote_processor self = Some rp
             /\ model request = JStr name
             /\ dict_get name (models self) = Some path
             /\ _models rp !! path = None
             /\ self' = set_remote_processor (Some rp') self
             /\ idle rp'
             /\ load_calls rp' = (load_calls rp ++ [path])%list
             /\ (forall q, q <> path -> _models rp' !! q = _models rp !! q)
             /\ match PPO_load w path (_device rp) with
                | inr m =>
                    _models rp' !! path
                    = Some (Handle (length (load_calls rp)) m)
                | inl e => _models rp' !! path = None /\ r = inl e
                end).
Proof.
  intros Hidle.
  destruct (process_request_step w self request Hidle)
    as (self' & r & Hrun & Hstep).
  exists self', r. split; [done|].
  destruct Hstep as [->|(rp & rp' & name & path & Hrp & Hname & Hget & Hm & ->
                         & Hidle' & _ & Hlog & Hother & Hload)]; [by left|].
  right. exists rp, rp', name, path. by split_and!.
Qed.

Lemma request_loads_only_its_model_witness :
  exists self' r,
    _process_request toy_world toy_server
      (toy_constructed "bronze_agility" false false false false)
    = Some (self', r)
    /\ (self' = toy_server
        \/ exists rp',
             self' = set_remote_processor (Some rp') toy_server
             /\ load_calls rp' = ["models/bronze_agility.zip"]).
Proof.
  destruct (request_loads_only_its_model toy_world toy_server
              (toy_constructed "bronze_agility" false false false false))
    as (self' & r & Hrun & Hstep); [by split|].
  exists self', r. split; [exact Hrun|].
  destruct Hstep as [->|(rp & rp' & name & path & Hrp & Hname & Hget & _ & ->
                         & _ & Hlog & _)]; [by left|].
  right. exists rp'. split; [reflexivity|].
  injection Hrp as <-. injection Hname as <-.
  cbn in Hget. injection Hget as <-. exact Hlog.
Defined.

(** ** Behind a response *)

Lemma load_model_registry w p path :
  idle p ->
  _models p !! path = None ->
  exists p',
    _load_model w p path
    = Some (p', match PPO_load w path (_device p) with
                | inr m => inr (Handle (length (load_calls p)) m)
                | inl e => inl e
                end)
    /\ idle p'
    /\ _device p' = _device p
    /\ _models p'
       = match PPO_load w path (_device p) with
         | inr m => <[path := Handle (length (load_calls p)) m]> (_models p)
         | inl _ => _models p
         end
    /\ _model_locks p'
       = match PPO_load w path (_device p) with
         | inr _ => delete path (_model_locks p)
         | inl _ =>
             match _model_locks p !! path with
             | Some _ => _model_locks p
             | None => <[path := next_lock p]> (_model_locks p)
             end
         end
    /\ next_lock p'
       = match _model_locks p !! path with
         | Some _ => next_lock p
         | None => S (next_lock p)
         end.
Proof.
  intros [Hreg Hheld] Hm. unfold _load_model, idle.
  run1. rewrite Hm. run1. rewrite Hreg. run1.
  assert (Hfree : forall l : nat, l ∉ (∅ : gset nat))
    by (intros l; apply not_elem_of_empty).
  assert (Hrel : forall l : nat, ({[l]} ∪ ∅) ∖ {[l]} = (∅ : gset nat)).
  { intros l. apply set_eq. intros x.
    rewrite elem_of_difference, elem_of_union, elem_of_singleton.
    split; [tauto|]. intros Hx. by apply not_elem_of_empty in Hx. }
  destruct (_model_locks p !! path) as [l|] eqn:Hl; run1.
  - rewrite Hl. run1. rewrite Hheld, decide_False by apply Hfree. run1.
    rewrite Hm. run1.
    destruct (PPO_load w path (_device p)) as [e|m]; run1.
    + eexists. split; [reflexivity|]. run1. by rewrite Hheld, Hrel.
    + repeat (first [rewrite Hl | rewrite lookup_insert_eq]; run1).
      eexists. split; [reflexivity|]. run1. by rewrite Hheld, Hrel.
  - rewrite lookup_insert_eq. run1.
    rewrite Hheld, decide_False by apply Hfree. run1.
    rewrite Hm. run1.
    destruct (PPO_load w path (_device p)) as [e|m]; run1.
    + eexists. split; [reflexivity|]. run1. by rewrite Hheld, Hrel.
    + repeat (rewrite lookup_insert_eq; run1).
      eexists. split; [reflexivity|]. run1. rewrite Hheld, Hrel.
      split_and!; try done.
      rewrite delete_insert_eq. by rewrite delete_id.
Qed.

Lemma mapM_Forall2 {A B} (f : A -> res B) (l : list A) (rs : list B) :
  mapM f l = inr rs -> Forall2 (fun a b => f a = inr b) l rs.
Proof.
  revert rs. induction l as [|a l IH]; intros rs H; cbn in H.
  - injection H as <-. constructor.
  - case_res H. case_res H. cbn in H. injection H as <-.
    constructor; [done|]. by apply IH.
Qed.

Lemma dict_getitem_val_inr {V} w k (d : pydict V) v :
  dict_getitem_val w k d = inr v ->
  exists s, k = JStr s /\ dict_get s d = Some v.
Proof.
  unfold dict_getitem_val. intros H.
  destruct k as [| | | |s| |]; try discriminate H.
  cbn in H. destruct (dict_get s d) as [v'|] eqn:Hd; [|discriminate H].
  injection H as ->. eauto.
Qed.

(** What stands behind a response: the model cached for the location of
    the requested name, and the prediction it made. *)
Lemma process_request_anatomy w self request self' r :
  _process_request w self request = Some (self', inr r) ->
  exists name path rp rp' h masks_t det pr,
    model request = JStr name
    /\ dict_get name (models self) = Some path
    /\ remote_processor self = Some rp
    /\ (exists heads head_items,
          py_iter w (actionMasks request) = inr heads
          /\ mapM (py_iter w) heads = inr head_items
          /\ masks_t
             = Tensor bool_ (JArr [JArr (chain_from_iterable head_items)]))
    /\ det = match deterministic request with
             | JArr _ => DetTensor (Tensor bool_ (deterministic request))
             | v => DetValue v
             end
    /\ _load_model w rp path = Some (rp', inr h)
    /\ self' = set_remote_processor (Some rp') self
    /\ PPO_predict w (obj_model h) (Tensor float32 (JArr [obs request]))
         masks_t det (JBool true) (returnLogProb request)
         (returnEntropy request) (returnValue request) (returnProbs request)
         (extensions request) = inr pr
    /\ extensionResults r = p_extension_results pr
    /\ (exists a, p_actions pr = Some a /\ row0 w a = inr (action r))
    /\ row0_opt w (p_log_probs pr) = inr (logProb r)
    /\ row0_opt w (p_entropy pr) = inr (entropy r)
    /\ row0_opt w (p_values pr) = inr (values r)
    /\ forall groups,
         probs r = Some groups ->
         exists heads sizes,
           py_iter w (actionMasks request) = inr heads
           /\ mapM (py_len w) heads = inr sizes
           /\ ((sizes = [] /\ groups = [])
               \/ exists flat row,
                    p_probs pr = Some flat /\ row0 w flat = inr row
                    /\ groups = split_by_heads sizes row).
Proof.
  intros H. unfold _process_request in H.
  match type of H with
  | match ?b with _ => _ end = _ =>
      destruct b as [e|[[[[rp obs_t] masks_t] det] path]] eqn:Hbefore;
        [by inversion H|]
  end.
  assert (Hfacts : remote_processor self = Some rp
                   /\ obs_t = Tensor float32 (JArr [obs request])
                   /\ (exists heads head_items,
                         py_iter w (actionMasks request) = inr heads
                         /\ mapM (py_iter w) heads = inr head_items
                         /\ masks_t
                            = Tensor bool_
                                (JArr [JArr (chain_from_iterable head_items)]))
                   /\ det = match deterministic request with
                            | JArr _ =>
                                DetTensor (Tensor bool_ (deterministic request))
                            | v => DetValue v
                            end
                   /\ exists name, model request = JStr name
                                   /\ dict_get name (models self) = Some path).
  { case_res Hbefore. destruct b; [|discriminate Hbefore].
    cbn [negb] in Hbefore.
    do 2 case_res Hbefore.
    unfold th_tensor in Hbefore at 1.
    destruct (torch_rejects w float32 (JArr [obs request]));
      [discriminate Hbefore|]. cbn [bind ret] in Hbefore.
    unfold th_tensor in Hbefore at 1.
    match type of Hbefore with
    | context [torch_rejects w bool_ ?data] =>
        destruct (torch_rejects w bool_ data); [discriminate Hbefore|]
    end.
    cbn [bind ret] in Hbefore. case_res Hbefore.
    match goal with
    | Hd : _ = inr ?d |- _ =>
        match type of Hd with
        | context [DetValue] => rename Hd into Hdet
        end
    end.
    destruct (remote_processor self) as [rp0|] eqn:Hrp; [|discriminate].
    cbn [bind ret] in Hbefore.
    do 2 case_res Hbefore. cbn in Hbefore. injection Hbefore as <- <- <- <- <-.
    split; [done|]. split; [done|]. split; [by eauto|]. split.
    { destruct (deterministic request) eqn:Hreq;
        try (by injection Hdet as <-).
      unfold th_tensor in Hdet.
      destruct (torch_rejects w bool_ (JArr items)); [discriminate Hdet|].
      cbn in Hdet. by injection Hdet as <-. }
    match goal with
    | Hget : dict_getitem_val _ _ _ = inr _ |- _ =>
        apply dict_getitem_val_inr in Hget as (name & Hname & Hget); eauto
    end. }
  destruct Hfacts as (Hrp & -> & Hmasks & Hdet & name & Hname & Hget).
  unfold ThreadedProcessor_predict, _worker_task in H.
  destruct (_load_model w rp path) as [[rp' [e|h]]|] eqn:Hload;
    [by inversion H| |done].
  injection H as <- H. case_res H. rename p into pr.
  case_res H. rename l into a. case_res H. rename o into probs_r.
  do 4 case_res H. cbn in H. injection H as <-. cbn.
  exists name, path, rp, rp', h, masks_t, det, pr.
  split_and!; try done.
  - destruct (p_actions pr) as [a0|]; [|done].
    match goal with Ha : ret a0 = inr a |- _ => injection Ha as -> end.
    eauto.
  - intros groups ->.
    match goal with
    | Hx : _ = inr (Some groups) |- _ => rename Hx into Hprobs
    end.
    destruct (truthy (returnProbs request)); [|discriminate Hprobs].
    destruct (p_probs pr) as [flat|]; [|discriminate Hprobs].
    do 2 case_res Hprobs.
    match goal with
    | Hi : py_iter w (actionMasks request) = inr ?hs,
      Hm : mapM (py_len w) ?hs = inr ?ss |- _ =>
        exists hs, ss; split; [done|]; split; [done|];
        destruct ss as [|n sizes]
    end.
    + cbn in Hprobs. injection Hprobs as <-. by left.
    + case_res Hprobs. cbn in Hprobs. injection Hprobs as <-.
      right. eauto.
Qed.

Lemma chunks_length {A} (ns : list nat) (row : list A) :
  length (chunks ns row) = length ns.
Proof.
  revert row. induction ns as [|n ns IH]; intros row; [done|].
  cbn. by rewrite IH.
Qed.

Lemma chunks_concat_take {A} (ns : list nat) (row : list A) :
  concat (chunks ns row) = take (sum_list ns) row.
Proof.
  revert row. induction ns as [|n ns IH]; intros row; cbn.
  - by rewrite take_0.
  - by rewrite IH, take_take_drop.
Qed.

Lemma chunks_lookup {A} (ns : list nat) (row : list A) i n :
  ns !! i = Some n ->
  chunks ns row !! i = Some (take n (drop (sum_list (take i ns)) row)).
Proof.
  revert row i. induction ns as [|n0 ns IH]; intros row [|i] Hi;
    simplify_eq/=.
  - by rewrite drop_0.
  - rewrite (IH _ _ Hi). by rewrite drop_drop.
Qed.

Lemma chunks_lengths {A} (ns : list nat) (row : list A) :
  sum_list ns <= length row -> map length (chunks ns row) = ns.
Proof.
  revert row. induction ns as [|n ns IH]; intros row Hlen; [done|].
  cbn in *. rewrite length_take, IH.
  - f_equal. lia.
  - rewrite length_drop. lia.
Qed.

Lemma py_len_iter w v items :
  py_iter w v = inr items -> py_len w v = inr (length items).
Proof.
  destruct v; try discriminate; cbn; intros [= <-]; try done.
  - by rewrite length_map, length_chars.
  - by rewrite length_map.
Qed.

Lemma mapM_py_len w heads head_items :
  mapM (py_iter w) heads = inr head_items ->
  mapM (py_len w) heads = inr (map length head_items).
Proof.
  revert head_items. induction heads as [|v heads IH]; intros head_items H;
    cbn in H.
  - by injection H as <-.
  - case_res H. case_res H. cbn in H. injection H as <-.
    cbn [mapM map].
    match goal with Hv : py_iter w v = inr _ |- _ =>
      rewrite (py_len_iter _ _ _ Hv) end.
    cbn [bind]. by rewrite (IH _ eq_refl).
Qed.

(** X8.  The grouping of the probabilities (server.py lines 158-160 and
    200-210), for any response that carries them.  The model that
    [_load_model] returns for the location of the requested name has made
    a prediction from the request's observation, its flattened masks and
    its flags; there is one group per head of the request's masks; the
    sizes used for the cut are the lengths of the heads as they were
    flattened for the model, so their sum is the length of the flattened
    masks; and unless there is no head, the groups are consecutive pieces
    of row 0 of the probabilities of that prediction, cut at the running
    sums of these sizes, and nothing is reordered or invented: a row that
    is too short gives short or empty groups, a row that is too long
    loses its tail. *)
Theorem probs_are_cut_at_the_heads w self request self' r groups :
  _process_request w self request = Some (self', inr r) ->
  probs r = Some groups ->
  exists name path rp rp' h pr heads head_items sizes,
    model request = JStr name
    /\ dict_get name (models self) = Some path
    /\ remote_processor self = Some rp
    /\ _load_model w rp path = Some (rp', inr h)
    /\ py_iter w (actionMasks request) = inr heads
    /\ mapM (py_iter w) heads = inr head_items
    /\ PPO_predict w (obj_model h) (Tensor float32 (JArr [obs request]))
         (Tensor bool_ (JArr [JArr (chain_from_iterable head_items)]))
         (match deterministic request with
          | JArr _ => DetTensor (Tensor bool_ (deterministic request))
          | v => DetValue v
          end)
         (JBool true) (returnLogProb request) (returnEntropy request)
         (returnValue request) (returnProbs request) (extensions request)
       = inr pr
    /\ sizes = map length head_items
    /\ sum_list sizes = length (chain_from_iterable head_items)
    /\ length groups = length heads
    /\ ((sizes = [] /\ groups = [])
        \/ exists flat row,
             p_probs pr = Some flat
             /\ flat !! 0 = Some row
             /\ concat groups = take (sum_list sizes) row
             /\ (forall i n,
                   sizes !! i = Some n ->
                   groups !! i
                   = Some (take n (drop (sum_list (take i sizes)) row)))
             /\ (sum_list sizes <= length row -> map length groups = sizes)).
Proof.
  intros Hrun Hprobs.
  destruct (process_request_anatomy w self request self' r Hrun)
    as (name & path & rp & rp' & h & masks_t & det & pr & Hname & Hget & Hrp
        & (heads & head_items & Hheads & Hitems & ->) & -> & Hload & _
        & Hpred & _ & _ & _ & _ & _ & Hgroups).
  destruct (Hgroups groups Hprobs)
    as (heads' & sizes & Hheads' & Hsizes & Hcut).
  assert (heads' = heads) as -> by congruence.
  rewrite (mapM_py_len w heads head_items Hitems) in Hsizes.
  injection Hsizes as <-.
  assert (Hlen : length (map length head_items) = length heads).
  { apply mapM_Forall2, Forall2_length in Hitems. by rewrite length_map. }
  exists name, path, rp, rp', h, pr, heads, head_items,
    (map length head_items).
  split_and!; try done.
  { symmetry. apply length_chain. }
  { destruct Hcut as [[Hnil ->]|(flat & row & _ & _ & ->)].
    - by rewrite Hnil in Hlen.
    - by rewrite split_by_heads_chunks, chunks_length. }
  destruct Hcut as [[Hnil ->]|(flat & row & Hflat & Hrow & ->)]; [by left|].
  right. exists flat, row. rewrite split_by_heads_chunks.
  split_and!; try done.
  - destruct flat as [|row0 flat]; [discriminate Hrow|].
    cbn in Hrow. by injection Hrow as ->.
  - apply chunks_concat_take.
  - intros i n Hi. by apply chunks_lookup.
  - apply chunks_lengths.
Qed.

Lemma probs_are_cut_at_the_heads_witness :
  let request := toy_constructed "bronze_agility" false false false true in
  let groups := [["0.2"; "0.8"; "0.0"]; ["0.5"; "0.5"]] in
  exists rp' h pr flat row,
    _load_model toy_world (fresh_processor 2 "cpu")
      "models/bronze_agility.zip" = Some (rp', inr h)
    /\ PPO_predict toy_world (obj_model h)
         (Tensor float32 (JArr [obs request]))
         (Tensor bool_
            (JArr [JArr [JBool true; JBool true; JBool false; JBool true;
                         JBool true]]))
         (DetValue (JBool false)) (JBool true) (JBool false) (JBool false)
         (JBool false) (JBool true) (JArr []) = inr pr
    /\ p_probs pr = Some flat
    /\ flat !! 0 = Some row
    /\ concat groups = take 5 row.
Proof.
  intros request groups.
  assert (Hrun : exists self' r,
            _process_request toy_world toy_server request
            = Some (self', inr r)
            /\ probs r = Some groups).
  { eexists _, _. split; [vm_compute; reflexivity|]. reflexivity. }
  destruct Hrun as (self' & r & Hrun & Hprobs).
  destruct (probs_are_cut_at_the_heads toy_world toy_server request self' r
              groups Hrun Hprobs)
    as (name & path & rp & rp' & h & pr & heads & head_items & sizes & Hname
        & Hget & Hrp & Hload & Hheads & Hitems & Hpred & -> & _ & _ & Hcut).
  injection Hname as <-. cbn in Hget. injection Hget as <-.
  injection Hrp as <-. cbn in Hheads. injection Hheads as <-.
  cbn in Hitems. injection Hitems as <-.
  destruct Hcut as [[Hnil _]|(flat & row & Hflat & Hrow & Hcat & _)];
    [discriminate Hnil|].
  exists rp', h, pr, flat, row. by split_and!.
Defined.

Lemma PPO_predict_extensions w m obs masks det ra rl re rv rp exts r :
  PPO_predict w m obs masks det ra rl re rv rp exts = inr r ->
  exists names,
    py_iter w exts = inr names
    /\ Forall2
         (fun name result =>
            exists s run,
              name = JStr s
              /\ dict_get s (_extensions m) = Some run
              /\ run (if normalized_observations m then normalize m obs
                      else obs) = inr result)
         names (p_extension_results r).
Proof.
  unfold PPO_predict. intros H.
  case_res H.
  destruct p as [[[[actions log_probs] entropy] values] probs].
  case_res H. case_res H. cbn in H. injection H as <-. cbn.
  match goal with
  | Hi : py_iter w exts = inr ?names, Hm : mapM _ ?names = inr _ |- _ =>
      exists names; split; [done|]; apply mapM_Forall2 in Hm;
      eapply Forall2_impl; [exact Hm|]
  end.
  intros name result Hname. cbn beta in Hname. case_res Hname.
  match goal with
  | Hget : dict_getitem_val _ _ _ = inr _ |- _ =>
      apply dict_getitem_val_inr in Hget as (s & -> & Hget)
  end.
  eauto.
Qed.

(** X9.  The extension results of a response (ppo.py lines 165-168,
    server.py line 218): one result per name the request lists under
    [extensions], in the order of the request; every such name is a string
    naming an extension of the model that [_load_model] returns for the
    location of the requested name, and its result is what that extension
    returns for the tensor of the request's observation, normalized if the
    model normalizes observations.  So a request that lists anything else
    gets no response. *)
Theorem extension_results_follow_the_request w self request self' r :
  _process_request w self request = Some (self', inr r) ->
  exists name path rp rp' h names,
    model request = JStr name
    /\ dict_get name (models self) = Some path
    /\ remote_processor self = Some rp
    /\ _load_model w rp path = Some (rp', inr h)
    /\ self' = set_remote_processor (Some rp') self
    /\ py_iter w (extensions request) = inr names
    /\ length (extensionResults r) = length names
    /\ Forall2
         (fun name result =>
            exists s run,
              name = JStr s
              /\ dict_get s (_extensions (obj_model h)) = Some run
              /\ run (if normalized_observations (obj_model h)
                      then normalize (obj_model h)
                             (Tensor float32 (JArr [obs request]))
                      else Tensor float32 (JArr [obs request]))
                 = inr result)
         names (extensionResults r).
Proof.
  intros Hrun.
  destruct (process_request_anatomy w self request self' r Hrun)
    as (name & path & rp & rp' & h & masks_t & det & pr & Hname & Hget & Hrp
        & _ & _ & Hload & Hself & Hpred & Hext & _).
  apply PPO_predict_extensions in Hpred as (names & Hnames & Hall).
  rewrite Hext. exists name, path, rp, rp', h, names.
  split_and!; try done.
  symmetry. by eapply Forall2_length.
Qed.

Lemma extension_results_follow_the_request_witness :
  let request :=
    {| model := JStr "bronze_agility";
       actionMasks := JArr [JArr [JBool true]; JArr [JBool true]];
       obs := JArr [JInt 1];
       deterministic := JBool false;
       returnLogProb := JBool false; returnEntropy := JBool false;
       returnValue := JBool false; returnProbs := JBool false;
       extensions := JArr [JStr "winrate"] |} in
  exists self' r rp' h,
    _process_request toy_world toy_server request = Some (self', inr r)
    /\ _load_model toy_world (fresh_processor 2 "cpu")
         "models/bronze_agility.zip" = Some (rp', inr h)
    /\ Forall2
         (fun name result =>
            exists s run,
              name = JStr s
              /\ dict_get s (_extensions (obj_model h)) = Some run
              /\ run (if normalized_observations (obj_model h)
                      then normalize (obj_model h)
                             (Tensor float32 (JArr [obs request]))
                      else Tensor float32 (JArr [obs request]))
                 = inr result)
         [JStr "winrate"] (extensionResults r).
Proof.
  intros request.
  assert (Hrun : exists self' r,
            _process_request toy_world toy_server request
            = Some (self', inr r)).
  { eexists _, _. vm_compute. reflexivity. }
  destruct Hrun as (self' & r & Hrun).
  destruct (extension_results_follow_the_request toy_world toy_server request
              self' r Hrun)
    as (name & path & rp & rp' & h & names & Hname & Hget & Hrp & Hload & _
        & Hnames & _ & Hall).
  injection Hname as <-. cbn in Hget. injection Hget as <-.
  injection Hrp as <-. cbn in Hnames. injection Hnames as <-.
  exists self', r, rp', h. by split_and!.
Defined.

(** X10.  The model that answers (server.py lines 177-198,
    remote_processor.py lines 131-172): for every response, the request
    names a catalog entry, the model cached for that entry's location
    after the request is the one that made the prediction, and it is the
    model that was cached there before or, if none was, the one that
    [PPO.load] gives for that location; the action of the response is the
    first row of that prediction's actions. *)
Theorem response_comes_from_the_named_model w self request self' r :
  processor_idle self ->
  _process_request w self request = Some (self', inr r) ->
  exists name path rp rp' h masks_t det pr,
    model request = JStr name
    /\ dict_get name (models self) = Some path
    /\ remote_processor self = Some rp
    /\ remote_processor self' = Some rp'
    /\ _models rp' !! path = Some h
    /\ (_models rp !! path = Some h
        \/ (_models rp !! path = None
            /\ PPO_load w path (_device rp) = inr (obj_model h)))
    /\ PPO_predict w (obj_model h) (Tensor float32 (JArr [obs request]))
         masks_t det (JBool true) (returnLogProb request)
         (returnEntropy request) (returnValue request) (returnProbs request)
         (extensions request) = inr pr
    /\ exists a, p_actions pr = Some a /\ a !! 0 = Some (action r).
Proof.
  intros Hidle Hrun.
  destruct (process_request_anatomy w self request self' r Hrun)
    as (name & path & rp & rp' & h & masks_t & det & pr & Hname & Hget & Hrp
        & _ & _ & Hload & -> & Hpred & _ & (a & Ha & Hrow) & _).
  exists name, path, rp, rp', h, masks_t, det, pr.
  unfold processor_idle in Hidle. rewrite Hrp in Hidle.
  split_and!; try done.
  - destruct (_models rp !! path) as [h0|] eqn:Hm.
    + rewrite (load_model_cached w rp path h0 Hm) in Hload.
      by injection Hload as <- <-.
    + destruct (load_model_uncached w rp path Hidle Hm)
        as (p' & Hrun' & Hmodels & _).
      rewrite Hrun' in Hload. injection Hload as <- Hres.
      destruct (PPO_load w path (_device rp)) as [e|m]; [discriminate Hres|].
      injection Hres as <-. by rewrite Hmodels, lookup_insert_eq.
  - destruct (_models rp !! path) as [h0|] eqn:Hm.
    + rewrite (load_model_cached w rp path h0 Hm) in Hload.
      left. by injection Hload as _ <-.
    + right. split; [done|].
      destruct (load_model_uncached w rp path Hidle Hm)
        as (p' & Hrun' & _).
      rewrite Hrun' in Hload. injection Hload as _ Hres.
      destruct (PPO_load w path (_device rp)) as [e|m]; [discriminate Hres|].
      by injection Hres as <-.
  - exists a. split; [done|]. destruct a as [|a0 a]; [discriminate Hrow|].
    cbn in Hrow. by injection Hrow as ->.
Qed.

Lemma json_escape_char_printable c :
  forallb (fun x => (32 <=? nat_of_ascii x)%nat && (nat_of_ascii x <=? 126)%nat)
          (chars (json_escape_char c)) = true.
Proof. destruct c as [[] [] [] [] [] [] [] []]; vm_compute; reflexivity. Qed.

Lemma json_escape_printable s :
  forallb (fun x => (32 <=? nat_of_ascii x)%nat && (nat_of_ascii x <=? 126)%nat)
          (chars (json_escape s)) = true.
Proof.
  induction s as [|c s IH]; [done|].
  cbn [json_escape]. rewrite chars_app, forallb_app, IH.
  by rewrite json_escape_char_printable.
Qed.

(** X11.  The framing of an error line (server.py lines 128-131):
    whatever the message of the exception, the line written is the JSON
    object with the one member [error], in characters from space
    to tilde only, followed by one line feed; so the message cannot end
    the line early or carry a second line. *)
Theorem error_line_is_one_line e :
  exists body,
    error_line e = body +:+ newline
    /\ body = "{" +:+ dumps_str "error" +:+ ": " +:+ dumps_str (exn_str e)
              +:+ "}"
    /\ Forall (fun c => 32 <= nat_of_ascii c <= 126) (chars body).
Proof.
  eexists. split; [reflexivity|]. split; [reflexivity|].
  apply Forall_forall. intros c Hc.
  assert (Hb : forallb
            (fun x => (32 <=? nat_of_ascii x)%nat
                      && (nat_of_ascii x <=? 126)%nat)
            (chars (json_dumps (JObj [("error", JStr (exn_str e))]))) = true).
  { cbn [json_dumps map join fst snd]. unfold dumps_str at 2.
    rewrite !chars_app, !forallb_app, json_escape_printable.
    vm_compute. reflexivity. }
  rewrite forallb_forall in Hb. apply list_elem_of_In, Hb in Hc.
  apply andb_prop in Hc as [H1 H2].
  apply Nat.leb_le in H1, H2. lia.
Qed.

(** X7.  The lock of a location in the registry after a call of
    [_load_model] that has to load (remote_processor.py lines 174-197),
    one caller at a time: no lock is held afterwards and the locks of
    other locations are untouched; after a load that succeeded the
    registry has no lock for the location; after a load that failed the
    lock stays in the registry, where the next call for the location finds
    it, makes no new one, and removes it once its own load succeeds. *)
Theorem lock_entry_after_load w p path :
  idle p ->
  _models p !! path = None ->
  exists p' r,
    _load_model w p path = Some (p', r)
    /\ idle p'
    /\ (forall q, q <> path -> _model_locks p' !! q = _model_locks p !! q)
    /\ match r with
       | inr _ => _model_locks p' !! path = None
       | inl _ =>
           is_Some (_model_locks p' !! path)
           /\ forall w', exists p'' r',
                _load_model w' p' path = Some (p'', r')
                /\ next_lock p'' = next_lock p'
                /\ match r' with
                   | inr _ => _model_locks p'' !! path = None
                   | inl _ => _model_locks p'' = _model_locks p'
                   end
       end.
Proof.
  intros Hidle Hm.
  destruct (load_model_registry w p path Hidle Hm)
    as (p' & Hrun & Hidle' & Hdev & Hmodels & Hlocks & Hnext).
  eexists p', _. split; [exact Hrun|]. split; [done|].
  destruct (PPO_load w path (_device p)) as [e|m].
  - assert (Hentry : is_Some (_model_locks p' !! path)).
    { rewrite Hlocks. destruct (_model_locks p !! path) eqn:Hl; [by eauto|].
      rewrite lookup_insert_eq. by eauto. }
    split; [|split; [done|]].
    + intros q Hq. rewrite Hlocks.
      destruct (_model_locks p !! path); [done|].
      by rewrite lookup_insert_ne.
    + intros w'. assert (Hm' : _models p' !! path = None) by by rewrite Hmodels.
      destruct (load_model_registry w' p' path Hidle' Hm')
        as (p'' & Hrun' & _ & _ & _ & Hlocks' & Hnext').
      destruct Hentry as [l Hl]. rewrite Hl in Hlocks', Hnext'.
      eexists p'', _. split; [exact Hrun'|]. split; [done|].
      destruct (PPO_load w' path (_device p')); [done|].
      by rewrite Hlocks', lookup_delete_eq.
  - split.
    + intros q Hq. by rewrite Hlocks, lookup_delete_ne.
    + by rewrite Hlocks, lookup_delete_eq.
Qed.

Lemma lock_entry_after_load_witness :
  exists p' r,
    _load_model toy_world (fresh_processor 1 "cpu") "models/broken.zip"
    = Some (p', r)
    /\ idle p'
    /\ match r with
       | inr _ => _model_locks p' !! "models/broken.zip" = None
       | inl _ => is_Some (_model_locks p' !! "models/broken.zip")
       end.
Proof.
  destruct (lock_entry_after_load toy_world (fresh_processor 1 "cpu")
              "models/broken.zip")
    as (p' & r & Hrun & Hidle & _ & Hentry); [by split|reflexivity|].
  exists p', r. split; [exact Hrun|]. split; [exact Hidle|].
  destruct r; [apply Hentry|exact Hentry].
Defined.

Lemma in_list_spec k l : in_list k l = true <-> k ∈ l.
Proof.
  unfold in_list. rewrite existsb_exists. split.
  - intros (x & Hx & Heq). apply String.eqb_eq in Heq as ->.
    by apply list_elem_of_In.
  - intros Hk. exists k. split; [by apply list_elem_of_In|apply String.eqb_refl].
Qed.

Lemma filter_nil_spec (f : string -> bool) (l : list string) :
  filter f l = [] <-> forall x, x ∈ l -> f x = false.
Proof.
  split.
  - intros Hnil x Hx. destruct (f x) eqn:Hf; [|done].
    assert (Hin : x ∈ filter f l).
    { apply list_elem_of_filter. split; [by rewrite Hf|done]. }
    rewrite Hnil in Hin. by apply elem_of_nil in Hin.
  - intros Hall. destruct (filter f l) as [|x xs] eqn:Hfilter; [done|].
    assert (Hin : x ∈ filter f l) by (rewrite Hfilter; left).
    apply list_elem_of_filter in Hin as [Hfx Hx].
    rewrite (Hall x Hx) in Hfx. done.
Qed.

(** X12.  The constructor of a request applied to a parsed line
    (protocol.py lines 7-28, server.py line 122): it succeeds exactly for a
    JSON object whose keys are all fields of the request and that has the
    three required ones; every failure is a [TypeError]; a field that is
    given has the given value, and one that is not has its default. *)
Theorem request_constructor_contract w request_json :
  ((exists request, InferenceRequest_init w request_json = inr request)
   <-> exists kwargs,
         request_json = JObj kwargs
         /\ (forall k, k ∈ dict_keys kwargs -> k ∈ request_fields)
         /\ (forall k, k ∈ required_fields -> is_Some (dict_get k kwargs)))
  /\ (forall e,
        InferenceRequest_init w request_json = inl e -> exn_cls e = TypeError)
  /\ (forall request kwargs,
        InferenceRequest_init w request_json = inr request ->
        request_json = JObj kwargs ->
        (forall k v field,
           (k, field) ∈ [("model", model); ("actionMasks", actionMasks);
                         ("obs", obs); ("deterministic", deterministic);
                         ("returnLogProb", returnLogProb);
                         ("returnEntropy", returnEntropy);
                         ("returnValue", returnValue);
                         ("returnProbs", returnProbs);
                         ("extensions", extensions)] ->
           dict_get k kwargs = Some v -> field request = v)
        /\ (forall k field,
              (k, field) ∈ [("deterministic", deterministic);
                            ("returnLogProb", returnLogProb);
                            ("returnEntropy", returnEntropy);
                            ("returnValue", returnValue);
                            ("returnProbs", returnProbs)] ->
              dict_get k kwargs = None -> field request = JBool false)
        /\ (dict_get "extensions" kwargs = None ->
            extensions request = JArr [])).
Proof.
  split; [|split].
  - split.
    + intros [request Hinit]. unfold InferenceRequest_init in Hinit.
      destruct request_json as [| | | | | |kwargs]; try discriminate Hinit.
      exists kwargs. split; [done|].
      destruct (filter _ (dict_keys kwargs)) eqn:Hkeys; [|discriminate Hinit].
      destruct (filter _ required_fields) eqn:Hreq; [|discriminate Hinit].
      split.
      * intros k Hk. apply in_list_spec.
        apply (proj1 (filter_nil_spec _ _) Hkeys) in Hk.
        by destruct (in_list k request_fields).
      * intros k Hk. apply (proj1 (filter_nil_spec _ _) Hreq) in Hk.
        unfold dict_contains in Hk.
        destruct (dict_get k kwargs); [by eauto|discriminate Hk].
    + intros (kwargs & -> & Hkeys & Hreq). unfold InferenceRequest_init.
      rewrite (proj2 (filter_nil_spec _ (dict_keys kwargs))).
      2:{ intros k Hk. apply Hkeys, in_list_spec in Hk. by rewrite Hk. }
      rewrite (proj2 (filter_nil_spec _ required_fields)).
      2:{ intros k Hk. apply Hreq in Hk as [v Hv]. unfold dict_contains.
          by rewrite Hv. }
      eauto.
  - intros e Hinit. unfold InferenceRequest_init in Hinit.
    destruct request_json as [| | | | | |kwargs];
      try (by injection Hinit as <-).
    destruct (filter _ (dict_keys kwargs)); [|by injection Hinit as <-].
    destruct (filter _ required_fields); [discriminate Hinit|].
    by injection Hinit as <-.
  - intros request kwargs Hinit ->. unfold InferenceRequest_init in Hinit.
    destruct (filter _ (dict_keys kwargs)); [|discriminate Hinit].
    destruct (filter _ required_fields); [|discriminate Hinit].
    injection Hinit as <-. split; [|split].
    + intros k v field Hin Hget.
      repeat (apply elem_of_cons in Hin as [[= -> ->]|Hin];
              [cbn; unfold field_or; by rewrite Hget|]).
      by apply elem_of_nil in Hin.
    + intros k field Hin Hget.
      repeat (apply elem_of_cons in Hin as [[= -> ->]|Hin];
              [cbn; unfold field_or; by rewrite Hget|]).
      by apply elem_of_nil in Hin.
    + intros Hget. cbn. unfold field_or. by rewrite Hget.
Qed.

Lemma response_comes_from_the_named_model_witness :
  let request := toy_constructed "bronze_agility" false false false false in
  exists self' r rp' h,
    _process_request toy_world toy_server request = Some (self', inr r)
    /\ remote_processor self' = Some rp'
    /\ _models rp' !! "models/bronze_agility.zip" = Some h
    /\ PPO_load toy_world "models/bronze_agility.zip" "cpu"
       = inr (obj_model h).
Proof.
  intros request.
  assert (Hrun : exists self' r,
            _process_request toy_world toy_server request
            = Some (self', inr r)).
  { eexists _, _. vm_compute. reflexivity. }
  destruct Hrun as (self' & r & Hrun).
  destruct (response_comes_from_the_named_model toy_world toy_server request
              self' r (conj eq_refl eq_refl) Hrun)
    as (name & path & rp & rp' & h & masks_t & det & pr & Hname & Hget & Hrp
        & Hrp' & Hh & Horigin & _).
  injection Hname as <-. cbn in Hget. injection Hget as <-.
  injection Hrp as <-.
  exists self', r, rp', h. split; [exact Hrun|]. split; [exact Hrp'|].
  split; [exact Hh|].
  destruct Horigin as [Hold|[_ Hnew]]; [|exact Hnew].
  cbn [_models fresh_processor] in Hold. rewrite lookup_empty in Hold.
  discriminate Hold.
Defined.

(** X15.  Checks come before the load (server.py lines 150-198): whenever
    a request makes the processor call [PPO.load], the request named a
    catalog entry, its masks were iterable head by head, torch accepted
    the observation and the flattened masks as tensors, and the pool size
    was positive.  A request that fails one of these is answered with the
    error and loads nothing. *)
Theorem load_follows_validation w self request self' r rp rp' :
  _process_request w self request = Some (self', r) ->
  remote_processor self = Some rp ->
  remote_processor self' = Some rp' ->
  load_calls rp' <> load_calls rp ->
  exists name path heads head_items,
    model request = JStr name
    /\ dict_get name (models self) = Some path
    /\ py_iter w (actionMasks request) = inr heads
    /\ mapM (py_iter w) heads = inr head_items
    /\ torch_rejects w float32 (JArr [obs request]) = None
    /\ torch_rejects w bool_ (JArr [JArr (chain_from_iterable head_items)])
       = None
    /\ (0 < get_pool_size rp)%Z.
Proof.
  intros H Hrp Hrp' Hloaded. unfold _process_request in H.
  match type of H with
  | match ?b with _ => _ end = _ =>
      destruct b as [e|[[[[rp0 obs_t] masks_t] det] path]] eqn:Hbefore
  end.
  { injection H as <- _. congruence. }
  clear H. case_res Hbefore. destruct b; [|discriminate Hbefore].
  cbn [negb] in Hbefore.
  do 2 case_res Hbefore.
  unfold th_tensor in Hbefore at 1.
  destruct (torch_rejects w float32 (JArr [obs request])) eqn:Hobs;
    [discriminate Hbefore|]. cbn [bind ret] in Hbefore.
  unfold th_tensor in Hbefore at 1.
  match type of Hbefore with
  | context [torch_rejects w bool_ ?data] =>
      destruct (torch_rejects w bool_ data) eqn:Hmasks;
        [discriminate Hbefore|]
  end.
  cbn [bind ret] in Hbefore. case_res Hbefore.
  rewrite Hrp in Hbefore. cbn [bind ret] in Hbefore.
  unfold randint_check in Hbefore at 1.
  destruct (Z.leb_spec (get_pool_size rp) 0); [discriminate Hbefore|].
  cbn [bind ret] in Hbefore. case_res Hbefore.
  match goal with
  | Hget : dict_getitem_val _ _ _ = inr _ |- _ =>
      apply dict_getitem_val_inr in Hget as (name & Hname & Hget)
  end.
  match goal with
  | Hi : py_iter w (actionMasks request) = inr ?hs,
    Hm : mapM (py_iter w) ?hs = inr ?items,
    Hg : dict_get name (models self) = Some ?p |- _ =>
      exists name, p, hs, items
  end.
  by split_and!.
Qed.

Lemma load_follows_validation_witness :
  let request := toy_constructed "bronze_agility" false false false false in
  exists name path heads head_items,
    model request = JStr name
    /\ dict_get name (models toy_server) = Some path
    /\ py_iter toy_world (actionMasks request) = inr heads
    /\ mapM (py_iter toy_world) heads = inr head_items.
Proof.
  intros request.
  assert (Hrun : exists self' r rp',
            _process_request toy_world toy_server request = Some (self', r)
            /\ remote_processor self' = Some rp'
            /\ load_calls rp' = ["models/bronze_agility.zip"]).
  { eexists _, _, _. split; [vm_compute; reflexivity|]. by split. }
  destruct Hrun as (self' & r & rp' & Hrun & Hrp' & Hlog).
  destruct (load_follows_validation toy_world toy_server request self' r
              (fresh_processor 2 "cpu") rp' Hrun eq_refl Hrp')
    as (name & path & heads & head_items & Hname & Hget & Hheads & Hitems & _).
  { rewrite Hlog. discriminate. }
  exists name, path, heads, head_items. by split_and!.
Defined.

(** ** The locks of the model cache *)

Section lock_registry.
Context (w : world).

Ltac step_cases Hts :=
  match type of Hts with
  | thread_step _ _ _ ?a = Some _ =>
      destruct a; cbn [thread_step] in Hts; repeat case_match; simplify_eq
  end.

Ltac proc_simpl :=
  cbn [set_lock_lock set_model_locks set_models set_held_locks bump_next_lock
       log_load _model_locks _models _lock_lock held_locks next_lock
       load_calls _device _pool_size proc threads outline holds_registry
       holds_model in_lock_window] in *.

Lemma step_locks self p a self' a' q l :
  thread_step w self p a = Some (self', a') ->
  outline w self' p a' ->
  _model_locks self' !! q = Some l ->
  (q = p /\ in_lock_window a' = true)
  \/ (_model_locks self !! q = Some l
      /\ (q = p -> in_lock_window a = true -> in_lock_window a' = true)).
Proof.
  intros Hts Ha' Hq. step_cases Hts; proc_simpl; try done; eauto.
  - destruct (decide (q = p)) as [->|Hne]; [by left|].
    right. rewrite lookup_insert_ne in Hq by done. by split.
  - right. split; [done|]. intros ->. congruence.
  - destruct (decide (q = p)) as [->|Hne].
    + by rewrite lookup_delete_eq in Hq.
    + right. rewrite lookup_delete_ne in Hq by done. by split.
Qed.

Lemma registry_tracked_step cached0 calls0 paths locks0 st st' :
  single_flight w cached0 calls0 paths st ->
  registry_tracked locks0 st ->
  step w st st' ->
  registry_tracked locks0 st'.
Proof.
  intros Hinv Htracked Hstep.
  pose proof (single_flight_step w cached0 calls0 paths st st' Hinv Hstep)
    as Hinv'.
  inversion Hstep as [st0 i p a self' a' Hi Hts]; subst st0 st'.
  assert (Hmine : <[i := (p, a')]> (threads st) !! i = Some (p, a')).
  { apply list_lookup_insert_eq. by eapply lookup_lt_Some. }
  pose proof (sf_outline _ _ _ _ _ Hinv' _ _ _ Hmine) as Ha'.
  cbn [proc] in Ha'.
  intros q l Hq. cbn [proc threads] in *.
  destruct (step_locks _ _ _ _ _ _ _ Hts Ha' Hq) as [[-> Hwin]|[Hold Hkeep]].
  { right. eauto. }
  destruct (Htracked q l Hold) as [H0|(k & b & Hk & Hb)]; [by left|].
  right. destruct (decide (k = i)) as [->|Hne].
  - assert (q = p /\ b = a) as [-> ->] by (split; congruence).
    exists i, a'. split; [done|]. by apply Hkeep.
  - exists k, b. split; [|done]. by rewrite list_lookup_insert_ne.
Qed.

Lemma registry_tracked_steps cached0 calls0 paths locks0 st st' :
  single_flight w cached0 calls0 paths st ->
  registry_tracked locks0 st ->
  steps w st st' ->
  registry_tracked locks0 st'.
Proof.
  intros Hinv Htracked Hsteps.
  induction Hsteps as [|st st' st'' Hsteps IH Hstep]; [done|].
  eapply registry_tracked_step; [|by apply IH|exact Hstep].
  by eapply single_flight_steps.
Qed.

Lemma registry_tracked_init self ps :
  registry_tracked (_model_locks self) {| proc := self; threads := callers ps |}.
Proof. intros q l Hq. by left. Qed.

(** A lock flag is set exactly while some thread is inside the block it
    guards. *)
Lemma single_flight_lock_flags cached0 calls0 paths st :
  single_flight w cached0 calls0 paths st ->
  (_lock_lock (proc st) = true
   <-> exists i q a, threads st !! i = Some (q, a) /\ holds_registry a = true)
  /\ (forall l,
        l ∈ held_locks (proc st)
        <-> exists i q a, threads st !! i = Some (q, a) /\ holds_model a = Some l).
Proof.
  intros Hinv. split; [|intros l]; split.
  - apply (sf_registry_owner _ _ _ _ _ Hinv).
  - intros (i & q & a & Hi & Ha).
    pose proof (sf_outline _ _ _ _ _ Hinv _ _ _ Hi) as Hout.
    destruct a; cbn in Ha, Hout; try done; tauto.
  - apply (sf_model_owner _ _ _ _ _ Hinv).
  - intros (i & q & a & Hi & Ha).
    pose proof (sf_outline _ _ _ _ _ Hinv _ _ _ Hi) as Hout.
    destruct a; cbn in Ha, Hout; try done; simplify_eq; tauto.
Qed.

Lemma single_flight_one_loader cached0 calls0 paths st i j q a a' :
  single_flight w cached0 calls0 paths st ->
  threads st !! i = Some (q, a) ->
  threads st !! j = Some (q, a') ->
  i <> j ->
  in_load a = true -> in_load a' = true -> False.
Proof.
  intros Hinv Hi Hj Hne Ha Ha'.
  pose proof (sf_outline _ _ _ _ _ Hinv _ _ _ Hi) as Hout.
  pose proof (sf_outline _ _ _ _ _ Hinv _ _ _ Hj) as Hout'.
  destruct (sf_exclusive _ _ _ _ _ Hinv _ _ _ _ _ _ Hi Hj Hne) as [_ Hx].
  destruct a; try done; destruct a'; try done; cbn in Hout, Hout';
    destruct_and!; eapply Hx; cbn; try reflexivity; f_equal; congruence.
Qed.

End lock_registry.

(** X5.  Mutual exclusion in [_load_model], in every interleaving of
    callers that began on a processor nobody was using and whose uncached
    locations load: two threads are never together inside blocks guarded by
    the registry lock, two threads with the same location are never
    together between the call of [PPO.load] and the store of its result,
    and each lock is marked held exactly while a thread is inside a block
    it guards. *)
Theorem load_sections_are_exclusive w self (ps : list string) :
  idle self ->
  (forall q, q ∈ ps -> _models self !! q = None -> loadable w self q) ->
  forall st,
    steps w {| proc := self; threads := callers ps |} st ->
    (forall i j q a q' a',
       threads st !! i = Some (q, a) -> threads st !! j = Some (q', a') ->
       i <> j ->
       ~ (holds_registry a = true /\ holds_registry a' = true)
       /\ (q = q' -> ~ (in_load a = true /\ in_load a' = true)))
    /\ (_lock_lock (proc st) = true
        <-> exists i q a,
              threads st !! i = Some (q, a) /\ holds_registry a = true)
    /\ (forall l,
          l ∈ held_locks (proc st)
          <-> exists i q a,
                threads st !! i = Some (q, a) /\ holds_model a = Some l).
Proof.
  intros Hidle Hload st Hsteps.
  assert (Hinv : single_flight w (_models self) (load_calls self) ps st).
  { eapply single_flight_steps; [|exact Hsteps].
    by apply single_flight_init. }
  split; [|by eapply single_flight_lock_flags].
  intros i j q a q' a' Hi Hj Hne. split.
  - intros [Ha Ha'].
    destruct (sf_exclusive _ _ _ _ _ Hinv _ _ _ _ _ _ Hi Hj Hne) as [Hx _].
    by apply Hx.
  - intros <- [Ha Ha'].
    exact (single_flight_one_loader w _ _ _ _ _ _ _ _ _ Hinv Hi Hj Hne Ha Ha').
Qed.

Lemma load_sections_are_exclusive_witness :
  let st := run_schedule toy_world (alternate 4) toy_pool in
  _lock_lock (proc st) = true
  <-> exists i q a, threads st !! i = Some (q, a) /\ holds_registry a = true.
Proof.
  intros st.
  destruct (load_sections_are_exclusive toy_world (fresh_processor 2 "cpu")
              (replicate 2 "models/bronze_agility.zip")
              (conj eq_refl eq_refl)) with (st := st)
    as (_ & Hflag & _).
  - intros q Hq _. apply elem_of_replicate in Hq as [-> _].
    by exists toy_model.
  - apply run_schedule_steps.
  - exact Hflag.
Defined.

(** X6.  The lock registry after [_load_model], in every interleaving of
    callers that began on a processor nobody was using and whose uncached
    locations load: a lock in the registry was there before the calls or
    belongs to the location of a thread still between reading it and
    deleting it; so when all callers have returned no lock is held and the
    registry has nothing that it did not have before: it is empty if it
    was. *)
Theorem locks_are_cleaned_up w self (ps : list string) :
  idle self ->
  (forall q, q ∈ ps -> _models self !! q = None -> loadable w self q) ->
  forall st,
    steps w {| proc := self; threads := callers ps |} st ->
    registry_tracked (_model_locks self) st
    /\ (quiet w st ->
        idle (proc st)
        /\ (forall q l,
              _model_locks (proc st) !! q = Some l ->
              _model_locks self !! q = Some l)
        /\ (_model_locks self = ∅ -> _model_locks (proc st) = ∅)).
Proof.
  intros Hidle Hload st Hsteps.
  assert (Hinit : single_flight w (_models self) (load_calls self) ps
                    {| proc := self; threads := callers ps |})
    by by apply single_flight_init.
  assert (Hinv : single_flight w (_models self) (load_calls self) ps st)
    by by eapply single_flight_steps.
  assert (Htracked : registry_tracked (_model_locks self) st).
  { eapply registry_tracked_steps; [exact Hinit| |exact Hsteps].
    apply registry_tracked_init. }
  split; [done|]. intros Hquiet.
  assert (Hdone : forall i q a,
            threads st !! i = Some (q, a) -> exists h, a = PcDone h).
  { intros i q a Hi.
    destruct (single_flight_quiet w _ _ _ _ _ _ _ Hinv Hquiet Hi)
      as (h & -> & _). eauto. }
  assert (Hkept : forall q l,
            _model_locks (proc st) !! q = Some l ->
            _model_locks self !! q = Some l).
  { intros q l Hq.
    destruct (Htracked q l Hq) as [H0|(i & a & Hi & Ha)]; [done|].
    destruct (Hdone _ _ _ Hi) as [h ->]. discriminate Ha. }
  split; [|split; [done|]].
  - destruct (single_flight_lock_flags w _ _ _ _ Hinv) as [Hreg Hmod]. split.
    + destruct (_lock_lock (proc st)) eqn:Hlock; [|done].
      destruct (proj1 Hreg eq_refl) as (i & q & a & Hi & Ha).
      destruct (Hdone _ _ _ Hi) as [h ->]. discriminate Ha.
    + apply set_eq. intros l. split; [|by intros ?%not_elem_of_empty].
      intros Hl. destruct (proj1 (Hmod l) Hl) as (i & q & a & Hi & Ha).
      destruct (Hdone _ _ _ Hi) as [h ->]. discriminate Ha.
  - intros Hempty. apply map_empty. intros q.
    destruct (_model_locks (proc st) !! q) as [l|] eqn:Hq; [|done].
    apply Hkept in Hq. by rewrite Hempty in Hq.
Qed.

Lemma locks_are_cleaned_up_witness :
  let st := run_schedule toy_world (alternate 20) toy_pool in
  idle (proc st) /\ _model_locks (proc st) = ∅.
Proof.
  intros st.
  destruct (locks_are_cleaned_up toy_world (fresh_processor 2 "cpu")
              (replicate 2 "models/bronze_agility.zip")
              (conj eq_refl eq_refl)) with (st := st)
    as (_ & Hquiet).
  - intros q Hq _. apply elem_of_replicate in Hq as [-> _].
    by exists toy_model.
  - apply run_schedule_steps.
  - destruct Hquiet as (Hidle & _ & Hempty).
    + apply finished_quiet. reflexivity.
    + split; [exact Hidle|]. by apply Hempty.
Defined.

(** ** A location that does not load *)

Section failing_flight.
Context (w : world) (cached0 : gmap string handle) (calls0 : list string)
        (p : string) (e : py_exn).

Ltac step_cases Hts :=
  match type of Hts with
  | thread_step _ _ _ ?a = Some _ =>
      destruct a; cbn [thread_step] in Hts; repeat case_match; simplify_eq
  end.

Ltac proc_simpl :=
  cbn [set_lock_lock set_model_locks set_models set_held_locks bump_next_lock
       log_load _model_locks _models _lock_lock held_locks next_lock
       load_calls _device _pool_size proc threads failing_outline
       holds_registry holds_model attempted] in *.

Ltac break_hyps :=
  repeat match goal with
         | H : _ /\ _ |- _ => destruct H
         | H : is_Some _ |- _ => destruct H as [? H]
         | H : exists _, _ |- _ => destruct H
         end.

Ltac finish :=
  break_hyps; proc_simpl; simplify_map_eq;
  first [done | congruence | by eauto | by intuition eauto | set_solver].

Lemma failing_outline_own self a self' a' :
  thread_step w self p a = Some (self', a') ->
  failing_outline self p e a ->
  _models self !! p = None ->
  PPO_load w p (_device self) = inl e ->
  failing_outline self' p e a'.
Proof.
  intros Hts Ha Habsent Hload. step_cases Hts; proc_simpl; try finish.
Qed.

Lemma failing_outline_other self a self' a' b :
  thread_step w self p a = Some (self', a') ->
  failing_outline self p e a ->
  failing_outline self p e b ->
  exclusive a b ->
  failing_outline self' p e b.
Proof.
  intros Hts Ha Hb [Hreg Hmod]. step_cases Hts; proc_simpl; try done.
  all: destruct b; proc_simpl; try done;
       try (by exfalso; apply Hreg);
       try (by exfalso; eapply Hmod).
  all: try finish.
Qed.

Lemma failing_exclusive_step self a self' a' b :
  thread_step w self p a = Some (self', a') ->
  failing_outline self p e b ->
  exclusive a b ->
  exclusive a' b.
Proof.
  intros Hts Hb [Hreg Hmod]. step_cases Hts; proc_simpl.
  all: split; [|intros l0]; proc_simpl; try done; try (by eauto).
  all: destruct b; proc_simpl; try done; finish.
Qed.

Lemma failing_step_kind self a self' a' :
  thread_step w self p a = Some (self', a') ->
  failing_outline self p e a ->
  failing_outline self' p e a' ->
  _models self' = _models self
  /\ ((attempted a = false /\ attempted a' = true
       /\ load_calls self' = (load_calls self ++ [p])%list)
      \/ (attempted a' = attempted a /\ load_calls self' = load_calls self)).
Proof.
  intros Hts Ha Ha'. step_cases Hts; proc_simpl; try done.
  all: split; [done|]; first [by right | by left].
Qed.

Lemma attempts_insert (T : list (string * pc)) i q a a' :
  T !! i = Some (q, a) ->
  attempts (<[i := (q, a')]> T) + (if attempted a then 1 else 0)
  = attempts T + (if attempted a' then 1 else 0).
Proof.
  unfold attempts. revert i.
  induction T as [|t T IH]; intros [|i] Hi; simplify_eq/=.
  - lia.
  - specialize (IH i Hi). lia.
Qed.

Lemma failing_flight_step st st' :
  failing_flight w cached0 calls0 p e st ->
  step w st st' ->
  failing_flight w cached0 calls0 p e st'.
Proof.
  intros [Hpaths Hload Hmodels Habsent Hout Hexcl Hreg Hmod Hcalls] Hstep.
  inversion Hstep as [st0 i q a self' a' Hi Hts]; subst st0 st'.
  assert (q = p) as -> by by eapply Hpaths.
  pose proof (Hout _ _ _ Hi) as Ha.
  assert (Habs : _models (proc st) !! p = None) by by rewrite Hmodels.
  assert (Ha' : failing_outline self' p e a')
    by by eapply failing_outline_own.
  assert (Hdev : _device self' = _device (proc st)) by by eapply step_device.
  destruct (failing_step_kind _ _ _ _ Hts Ha Ha') as [Hsame Hkind].
  split; cbn [proc threads].
  - intros j q b Hj.
    apply lookup_updated_thread in Hj as [[-> [= -> ->]]|[Hne Hj]]; [done|].
    by eapply Hpaths.
  - by rewrite Hdev.
  - by rewrite Hsame.
  - done.
  - intros j q b Hj.
    apply lookup_updated_thread in Hj as [[-> [= -> ->]]|[Hne Hj]]; [done|].
    assert (q = p) as -> by by eapply Hpaths.
    eapply failing_outline_other; eauto.
  - intros j k q b q' b' Hj Hk Hjk.
    apply lookup_updated_thread in Hj as [[-> [= -> ->]]|[Hnej Hj]];
      apply lookup_updated_thread in Hk as [[-> [= -> ->]]|[Hnek Hk]].
    + done.
    + assert (q' = p) as -> by by eapply Hpaths.
      eapply failing_exclusive_step; eauto.
    + assert (q = p) as -> by by eapply Hpaths.
      apply exclusive_sym. eapply failing_exclusive_step; eauto.
    + eauto.
  - intros Hlock.
    destruct (step_registry _ _ _ _ _ _ Hts) as [Hown|[Hfree|[Hnot Hsame']]].
    + exists i, p, a'. split; [|done].
      apply list_lookup_insert_eq. by eapply lookup_lt_Some.
    + congruence.
    + rewrite Hsame' in Hlock. destruct (Hreg Hlock) as (k & q & b & Hk & Hb).
      exists k, q, b. split; [|done].
      rewrite list_lookup_insert_ne; [done|]. intros ->. simplify_eq. congruence.
  - intros l Hl.
    destruct (step_model_lock _ _ _ _ _ _ l Hts Hl) as [Hown|[Hheld Hnot]].
    + exists i, p, a'. split; [|done].
      apply list_lookup_insert_eq. by eapply lookup_lt_Some.
    + destruct (Hmod l Hheld) as (k & q & b & Hk & Hb).
      exists k, q, b. split; [|done].
      rewrite list_lookup_insert_ne; [done|]. intros ->. simplify_eq.
  - pose proof (attempts_insert _ _ _ _ a' Hi) as Hcount.
    destruct Hkind as [(Hbefore & Hafter & Hlog)|[Hsame' Hlog]].
    + rewrite Hbefore, Hafter in Hcount. rewrite Hlog, Hcalls.
      replace (attempts (<[i:=(p, a')]> (threads st)))
        with (attempts (threads st) + 1) by lia.
      by rewrite replicate_add, app_assoc.
    + rewrite Hsame' in Hcount. rewrite Hlog, Hcalls.
      by replace (attempts (<[i:=(p, a')]> (threads st)))
        with (attempts (threads st)) by lia.
Qed.

Lemma failing_flight_steps st st' :
  failing_flight w cached0 calls0 p e st ->
  steps w st st' ->
  failing_flight w cached0 calls0 p e st'.
Proof.
  intros Hinv Hsteps. induction Hsteps as [|st st' st'' _ IH Hstep]; [done|].
  eapply failing_flight_step; [by apply IH|exact Hstep].
Qed.

Lemma failing_flight_progress st i q a :
  failing_flight w cached0 calls0 p e st ->
  threads st !! i = Some (q, a) ->
  finished a = false ->
  exists st', step w st st'.
Proof.
  intros Hinv Hi Hfin.
  destruct (thread_step w (proc st) q a) as [[self' a']|] eqn:Hts.
  { eapply thread_can_step; eauto. }
  assert (Hwait : (_lock_lock (proc st) = true)
                  \/ exists l, l ∈ held_locks (proc st)).
  { destruct a; cbn in Hts, Hfin; repeat case_match; simplify_eq; eauto. }
  destruct Hwait as [Hlock|[l Hl]].
  - destruct (ff_registry_owner _ _ _ _ _ _ Hinv Hlock)
      as (k & q' & b & Hk & Hb).
    eapply thread_can_step; [exact Hk|]. by apply registry_holder_moves.
  - destruct (ff_model_owner _ _ _ _ _ _ Hinv l Hl) as (k & q' & b & Hk & Hb).
    eapply thread_can_step; [exact Hk|]. by eapply model_holder_moves.
Qed.

Lemma failing_flight_quiet st i q a :
  failing_flight w cached0 calls0 p e st ->
  quiet w st ->
  threads st !! i = Some (q, a) ->
  q = p /\ a = PcRaised e.
Proof.
  intros Hinv Hquiet Hi.
  split; [by eapply (ff_paths _ _ _ _ _ _ Hinv)|].
  destruct (finished a) eqn:Hfin.
  - pose proof (ff_outline _ _ _ _ _ _ Hinv _ _ _ Hi) as Ha.
    destruct a; try done. cbn in Ha. by subst.
  - destruct (failing_flight_progress _ _ _ _ Hinv Hi Hfin) as [st' Hstep].
    by apply Hquiet in Hstep.
Qed.

Lemma attempts_le (T : list (string * pc)) : attempts T <= length T.
Proof.
  unfold attempts. induction T as [|t T IH]; [done|].
  cbn. destruct (attempted (snd t)); lia.
Qed.

Lemma attempts_replicate K (q : string) e0 :
  attempts (replicate K (q, PcRaised e0)) = K.
Proof.
  unfold attempts. induction K as [|K IH]; [done|]. cbn. by rewrite IH.
Qed.

Lemma attempts_callers ps : attempts (callers ps) = 0.
Proof. unfold attempts, callers. induction ps as [|q ps IH]; [done|]. done. Qed.

Lemma failing_flight_init self K :
  idle self ->
  _models self = cached0 ->
  load_calls self = calls0 ->
  cached0 !! p = None ->
  PPO_load w p (_device self) = inl e ->
  failing_flight w cached0 calls0 p e
    {| proc := self; threads := callers (replicate K p) |}.
Proof.
  intros [Hreg Hheld] Hmodels Hcalls Habsent Hload.
  assert (Hcheck : forall i q a,
            callers (replicate K p) !! i = Some (q, a) ->
            q = p /\ a = PcCheck).
  { intros i q a Hi. unfold callers in Hi.
    apply list_lookup_fmap_Some in Hi as (x & [= -> ->] & Hx).
    apply lookup_replicate in Hx as [-> _]. done. }
  split; cbn [proc threads]; try done.
  - intros i q a Hi. by apply Hcheck in Hi as [-> _].
  - intros i q a Hi. by apply Hcheck in Hi as [-> ->].
  - intros i j q a q' a' Hi Hj _.
    apply Hcheck in Hi as [_ ->]. apply Hcheck in Hj as [_ ->]. by split.
  - congruence.
  - intros l Hl. rewrite Hheld in Hl. by apply not_elem_of_empty in Hl.
  - by rewrite attempts_callers, Hcalls, app_nil_r.
Qed.

End failing_flight.

Lemma steps_length w st st' :
  steps w st st' -> length (threads st') = length (threads st).
Proof.
  intros Hsteps. induction Hsteps as [|st st' st'' _ IH Hstep]; [done|].
  inversion Hstep as [st0 i q a self' a' Hi Hts]; subst. cbn [threads].
  by rewrite length_insert.
Qed.

(** X16.  Callers of a location whose load fails
    (remote_processor.py lines 174-197), in every interleaving, when they
    began on a processor nobody was using: nothing is cached; every caller
    that got as far calls [PPO.load] itself, one at a time, the model lock
    being held by one thread at most; a thread that has not finished can
    always be followed by a step of some thread; and when no thread can
    move, all K callers have raised the load's exception, [PPO.load] was
    called K times, and no lock is held. *)
Theorem failing_location_is_tried_by_every_caller w self p K e :
  idle self ->
  _models self !! p = None ->
  PPO_load w p (_device self) = inl e ->
  forall st,
    steps w {| proc := self; threads := callers (replicate K p) |} st ->
    _models (proc st) = _models self
    /\ load_calls (proc st)
       = (load_calls self ++ replicate (attempts (threads st)) p)%list
    /\ attempts (threads st) <= K
    /\ (forall i j q a q' a' l l',
          threads st !! i = Some (q, a) -> threads st !! j = Some (q', a') ->
          i <> j -> holds_model a = Some l -> holds_model a' = Some l' ->
          False)
    /\ (forall i q a,
          threads st !! i = Some (q, a) -> finished a = false ->
          exists st', step w st st')
    /\ (quiet w st ->
        threads st = replicate K (p, PcRaised e)
        /\ load_calls (proc st) = (load_calls self ++ replicate K p)%list
        /\ idle (proc st)).
Proof.
  intros Hidle Hm Hload st Hsteps.
  assert (Hinv : failing_flight w (_models self) (load_calls self) p e st).
  { eapply failing_flight_steps; [|exact Hsteps].
    by apply failing_flight_init. }
  assert (Hlen : length (threads st) = K).
  { rewrite (steps_length _ _ _ Hsteps). cbn [threads]. unfold callers.
    by rewrite length_map, length_replicate. }
  split_and!.
  - apply (ff_models _ _ _ _ _ _ Hinv).
  - apply (ff_calls _ _ _ _ _ _ Hinv).
  - rewrite <- Hlen. apply attempts_le.
  - intros i j q a q' a' l l' Hi Hj Hne Ha Ha'.
    pose proof (ff_outline _ _ _ _ _ _ Hinv _ _ _ Hi) as Hout.
    pose proof (ff_outline _ _ _ _ _ _ Hinv _ _ _ Hj) as Hout'.
    rewrite (ff_paths _ _ _ _ _ _ Hinv _ _ _ Hi) in Hout.
    rewrite (ff_paths _ _ _ _ _ _ Hinv _ _ _ Hj) in Hout'.
    destruct (ff_exclusive _ _ _ _ _ _ Hinv _ _ _ _ _ _ Hi Hj Hne) as [_ Hx].
    apply (Hx l); [done|]. rewrite Ha'. f_equal.
    destruct a; try done; destruct a'; try done; cbn in Hout, Hout', Ha, Ha';
      destruct_and!; simplify_eq; congruence.
  - intros i q a. by eapply failing_flight_progress.
  - intros Hquiet.
    assert (Hthreads : threads st = replicate K (p, PcRaised e)).
    { symmetry. apply replicate_as_Forall. split; [done|].
      apply Forall_forall. intros [q a] Hin.
      apply list_elem_of_lookup in Hin as [i Hi].
      by destruct (failing_flight_quiet w _ _ _ _ _ _ _ _ Hinv Hquiet Hi)
        as [-> ->]. }
    split; [done|]. split.
    + rewrite (ff_calls _ _ _ _ _ _ Hinv), Hthreads.
      by rewrite attempts_replicate.
    + split.
      * destruct (_lock_lock (proc st)) eqn:Hlock; [|done].
        destruct (ff_registry_owner _ _ _ _ _ _ Hinv Hlock)
          as (i & q & a & Hi & Ha).
        destruct (failing_flight_quiet w _ _ _ _ _ _ _ _ Hinv Hquiet Hi)
          as [_ ->]. discriminate Ha.
      * apply set_eq. intros l. split; [|by intros ?%not_elem_of_empty].
        intros Hl.
        destruct (ff_model_owner _ _ _ _ _ _ Hinv l Hl)
          as (i & q & a & Hi & Ha).
        destruct (failing_flight_quiet w _ _ _ _ _ _ _ _ Hinv Hquiet Hi)
          as [_ ->]. discriminate Ha.
Qed.

Lemma failing_location_is_tried_by_every_caller_witness :
  let st := run_schedule toy_world (alternate 20)
              {| proc := fresh_processor 2 "cpu";
                 threads := callers (replicate 2 "models/broken.zip") |} in
  threads st
  = replicate 2 ("models/broken.zip",
                 PcRaised (Raise ValueError "models/broken.zip not found"))
  /\ load_calls (proc st) = ["models/broken.zip"; "models/broken.zip"].
Proof.
  intros st.
  destruct (failing_location_is_tried_by_every_caller toy_world
              (fresh_processor 2 "cpu") "models/broken.zip" 2
              (Raise ValueError "models/broken.zip not found")
              (conj eq_refl eq_refl) eq_refl eq_refl st
              (run_schedule_steps toy_world (alternate 20) _))
    as (_ & _ & _ & _ & _ & Hquiet).
  destruct Hquiet as (Hthreads & Hcalls & _); [|by split].
  apply finished_quiet. reflexivity.
Defined.

(** ** Starting the server *)

(** The preloads run one after the other on a processor nobody else
    uses. *)
Lemma run_preloads_idle w rp (tasks : list (Z * string)) :
  idle rp ->
  exists rp' r,
    run_preloads w rp tasks = Some (rp', r)
    /\ idle rp'
    /\ _device rp' = _device rp
    /\ _pool_size rp' = _pool_size rp
    /\ (forall q h, _models rp !! q = Some h -> _models rp' !! q = Some h)
    /\ (r = inr tt ->
        forall q, q ∈ map snd tasks -> is_Some (_models rp' !! q))
    /\ (forall e, r = inl e ->
        exists q, q ∈ map snd tasks /\ PPO_load w q (_device rp) = inl e).
Proof.
  revert rp. induction tasks as [|[i q] tasks IH]; intros rp Hidle.
  { exists rp, (inr tt). split_and!; try done.
    intros _ q Hq. by apply elem_of_nil in Hq. }
  cbn [run_preloads map snd].
  unfold ThreadedProcessor_predict, _worker_task.
  destruct (load_model_idle w rp q Hidle)
    as (rp1 & r1 & Hrun & Hidle1 & Hdev1 & Hpool1 & Hkept1 & Hres1 & _ & _
        & Hcached & Hload).
  rewrite Hrun.
  destruct (IH rp1 Hidle1)
    as (rp' & r & Hrest & Hidle' & Hdev & Hpool & Hkept & Hall & Herr).
  assert (Hfail : forall e, r1 = inl e -> PPO_load w q (_device rp) = inl e).
  { intros e ->. destruct (_models rp !! q) as [h|] eqn:Hm.
    - rewrite (load_model_cached w rp q h Hm) in Hrun. by inversion Hrun.
    - destruct (Hload eq_refl) as [_ Hr].
      destruct (PPO_load w q (_device rp)); [by injection Hr as ->|done]. }
  destruct r1 as [e|h]; rewrite Hrest.
  - eexists rp', _. split; [reflexivity|]. split_and!; try done.
    + congruence.
    + congruence.
    + by eauto.
    + intros e' [= <-]. exists q. split; [left|by apply Hfail].
  - eexists rp', _. split; [reflexivity|]. split_and!; try done.
    + congruence.
    + congruence.
    + by eauto.
    + cbn [bind ret]. intros -> q' Hq'.
      apply elem_of_cons in Hq' as [->|Hq']; [|by apply Hall].
      exists h. apply Hkept. by apply Hres1.
    + cbn [bind ret]. intros e' ->.
      destruct (Herr e' eq_refl) as (q' & Hq' & Hload').
      exists q'. split; [by right|]. by rewrite <- Hdev1.
Qed.

Lemma preload_tasks_cover rp (catalog : pydict string) q :
  (0 < get_pool_size rp)%Z ->
  q ∈ dict_values catalog -> q ∈ map snd (preload_tasks rp catalog).
Proof.
  intros Hpool Hq. by apply preload_tasks_paths.
Qed.

(** A request to a server whose processor nobody else uses and has every
    catalog location cached leaves the server as it is. *)
Lemma process_request_warm w self rp request :
  remote_processor self = Some rp ->
  idle rp ->
  (forall q, q ∈ dict_values (models self) -> is_Some (_models rp !! q)) ->
  exists r, _process_request w self request = Some (self, r).
Proof.
  intros Hrp Hidle Hwarm.
  destruct (process_request_step w self request) as (self' & r & Hrun & Hstep).
  { unfold processor_idle. by rewrite Hrp. }
  destruct Hstep as [->|(rp0 & rp' & name & path & Hrp0 & _ & Hget & Hm & _)];
    [by eauto|].
  assert (rp0 = rp) as -> by congruence.
  apply dict_get_value in Hget. apply Hwarm in Hget as [h Hh]. congruence.
Qed.

(** [start] once the processor is made: the preloads, run one after the
    other, and then the listener. *)
Lemma start_processor w self rp :
  create_remote_processor (pool_size self) (processor_type self) (device self)
  = inr rp ->
  exists rp' (r : res unit),
    start w self
    = match r with
      | inl e => Some (set_remote_processor (Some rp') self, inl e)
      | inr _ =>
          match bind_fails w (host self) (port self) with
          | Some e => Some (set_remote_processor (Some rp') self, inl e)
          | None =>
              Some (set_server true (set_remote_processor (Some rp') self),
                    ret tt)
          end
      end
    /\ idle rp'
    /\ _device rp' = device self
    /\ get_pool_size rp' = pool_size self
    /\ (r = inr tt ->
        forall q, q ∈ dict_values (models self) -> is_Some (_models rp' !! q))
    /\ (forall e, r = inl e ->
        exists q, q ∈ dict_values (models self)
                  /\ PPO_load w q (device self) = inl e).
Proof.
  intros Hcreate. unfold start. rewrite Hcreate.
  assert (Hfresh : rp = fresh_processor (pool_size self) (device self)
                   /\ (0 < pool_size self)%Z).
  { unfold create_remote_processor, ThreadedProcessor_init in Hcreate.
    destruct (String.eqb _ _); [|discriminate Hcreate].
    destruct (Z.leb_spec (pool_size self) 0); [discriminate Hcreate|].
    injection Hcreate as <-. by split. }
  destruct Hfresh as [-> Hpool].
  set (rp := fresh_processor (pool_size self) (device self)).
  assert (Hidle : idle rp) by by split.
  cbn [models set_remote_processor host port].
  destruct (models self) as [|entry catalog] eqn:Hcatalog.
  - exists rp, (inr tt). split; [reflexivity|]. split_and!; try done.
    intros _ q Hq. by apply elem_of_nil in Hq.
  - unfold _preload_models. cbn [remote_processor set_remote_processor models].
    rewrite Hcatalog.
    destruct (run_preloads_idle w rp (preload_tasks rp (entry :: catalog))
                Hidle)
      as (rp' & r & Hrun & Hidle' & Hdev & Hsize & _ & Hall & Herr).
    rewrite Hrun. exists rp', r. split; [by destruct r as [e|[]]|].
    split_and!; try done.
    + intros Hr q Hq. apply Hall; [done|]. by apply preload_tasks_cover.
    + intros e Hr. destruct (Herr e Hr) as (q & Hq & Hload).
      exists q. split; [|done]. by apply preload_tasks_paths in Hq.
Qed.

(** X13.  How [start] ends (server.py lines 60-92, with the preloads run
    one after the other): it always returns or raises; the address and the
    catalog are as before.  When it returns, the server listens, its
    processor is the one made from the server's pool size and device, no
    lock is held, every catalog location is cached, and so no request
    loads a model or changes the server afterwards.  When it raises, the
    server does not listen, and the exception is that of the processor's
    construction, of [PPO.load] for a catalog location, or of the
    listener. *)
Theorem start_outcome w self :
  server self = false ->
  exists self' r,
    start w self = Some (self', r)
    /\ host self' = host self /\ port self' = port self
    /\ models self' = models self
    /\ (r = inr tt ->
        server self' = true
        /\ exists rp,
             remote_processor self' = Some rp
             /\ idle rp
             /\ _device rp = device self
             /\ get_pool_size rp = pool_size self
             /\ (forall q, q ∈ dict_values (models self) ->
                   is_Some (_models rp !! q))
             /\ forall request, exists answer,
                  _process_request w self' request = Some (self', answer))
    /\ (forall e,
          r = inl e ->
          server self' = false
          /\ ((self' = self
               /\ create_remote_processor (pool_size self)
                    (processor_type self) (device self) = inl e)
              \/ (exists q,
                    q ∈ dict_values (models self)
                    /\ PPO_load w q (device self) = inl e)
              \/ bind_fails w (host self) (port self) = Some e)).
Proof.
  intros Hserver.
  destruct (create_remote_processor (pool_size self) (processor_type self)
              (device self)) as [e|rp] eqn:Hcreate.
  { exists self, (inl e). unfold start. rewrite Hcreate.
    split_and!; try done.
    intros e' [= <-]. split; [done|]. by left. }
  destruct (start_processor w self rp Hcreate)
    as (rp' & r & -> & Hidle & Hdev & Hsize & Hall & Herr).
  destruct r as [e|[]].
  { eexists _, _. split; [reflexivity|]. split_and!; try done.
    intros e' [= <-]. split; [done|]. right. left. by apply Herr. }
  destruct (bind_fails w (host self) (port self)) as [e|] eqn:Hbind.
  { eexists _, _. split; [reflexivity|]. split_and!; try done.
    intros e' [= <-]. split; [done|]. by right; right. }
  eexists _, _. split; [reflexivity|]. split_and!; try done.
  intros _. split; [done|]. exists rp'. split_and!; try done.
  - by apply Hall.
  - intros request. eapply process_request_warm; [reflexivity|done|].
    cbn [models set_server set_remote_processor]. by apply Hall.
Qed.

Lemma start_outcome_witness :
  exists self' r,
    start toy_world (set_server false toy_server) = Some (self', r)
    /\ models self' = [("bronze_agility", "models/bronze_agility.zip")]
    /\ (r = inr tt -> server self' = true).
Proof.
  destruct (start_outcome toy_world (set_server false toy_server) eq_refl)
    as (self' & r & Hrun & _ & _ & Hmodels & Hok & _).
  exists self', r. split; [exact Hrun|]. split; [exact Hmodels|].
  intros Hr. exact (proj1 (Hok Hr)).
Defined.

(** X14.  What [create_tcp_server] hands back (server.py lines 229-247
    with lines 30-92, the preloads run one after the other): it always
    returns or raises; a server it returns listens on the given host and
    port, its catalog is the scan of the models directory (empty if the
    directory does not exist), every catalog location is cached in its
    processor, and no request loads a model or changes it. *)
Theorem created_server_is_warm w settings_models_dir host_ port_ models_dir
    pool_size_ processor_type_ device_ :
  let models_path :=
    Path_str w (match models_dir with
                | Some d => if String.eqb d "" then settings_models_dir else d
                | None => settings_models_dir
                end) in
  exists outcome,
    create_tcp_server w settings_models_dir host_ port_ models_dir pool_size_
      processor_type_ device_ = Some outcome
    /\ forall self,
         outcome = inr self ->
         host self = host_ /\ port self = port_ /\ server self = true
         /\ (if Path_exists w models_path
             then exists listing,
                    os_listdir w models_path = inr listing
                    /\ models self = scan_models models_path listing
             else models self = [])
         /\ (exists rp,
               remote_processor self = Some rp
               /\ idle rp
               /\ _device rp = device_
               /\ get_pool_size rp = pool_size_
               /\ forall q, q ∈ dict_values (models self) ->
                            is_Some (_models rp !! q))
         /\ forall request, exists answer,
              _process_request w self request = Some (self, answer).
Proof.
  intros models_path. unfold create_tcp_server.
  destruct (TCPInferenceServer_init w settings_models_dir host_ port_
              models_dir pool_size_ processor_type_ device_)
    as [e|self0] eqn:Hinit.
  { eexists. split; [reflexivity|]. intros self [=]. }
  assert (Hfields : host self0 = host_ /\ port self0 = port_
                    /\ server self0 = false /\ device self0 = device_
                    /\ pool_size self0 = pool_size_
                    /\ if Path_exists w models_path
                       then exists listing,
                              os_listdir w models_path = inr listing
                              /\ models self0
                                 = scan_models models_path listing
                       else models self0 = []).
  { unfold TCPInferenceServer_init in Hinit. fold models_path in Hinit.
    destruct (Path_exists w models_path).
    - destruct (os_listdir w models_path) as [e|listing] eqn:Hlist;
        [discriminate Hinit|].
      cbn in Hinit. injection Hinit as <-. cbn. split_and!; try done. eauto.
    - cbn in Hinit. injection Hinit as <-. by cbn. }
  destruct Hfields as (Hhost & Hport & Hserver & Hdevice & Hpool & Hcatalog).
  destruct (create_remote_processor (pool_size self0) (processor_type self0)
              (device self0)) as [e|rp] eqn:Hcreate.
  { unfold start. rewrite Hcreate.
    eexists. split; [reflexivity|]. intros self [=]. }
  destruct (start_processor w self0 rp Hcreate)
    as (rp' & r & -> & Hidle & Hdev & Hsize & Hall & _).
  destruct r as [e|[]].
  { eexists. split; [reflexivity|]. intros self [=]. }
  destruct (bind_fails w (host self0) (port self0)) as [e|].
  { eexists. split; [reflexivity|]. intros self [=]. }
  eexists. split; [reflexivity|]. intros self [= <-].
  cbn [host port server models remote_processor set_server
       set_remote_processor].
  split_and!; try congruence; try done.
  - exists rp'. split_and!; try congruence; try done. by apply Hall.
  - intros request. eapply process_request_warm; [reflexivity|done|].
    cbn [models set_server set_remote_processor]. by apply Hall.
Qed.
